(** * Viewport configuration tool: the configuration core

    A shallow embedding of [viewport_configuration_tool/core.py]
    (class [ViewportConfigurationManager]) and the properties of its
    catalog parser and of its config-file read / merge / write cycle.

    Conventions of the embedding.
    - A Python [str] is a [string]; its characters are read as the code
      points U+0000 .. U+00FF.
    - A [Dict[str, str]] is a [gmap string string]: the code never depends
      on the insertion order of a dict (the writer orders the keys itself).
    - The output folder ([export_folder], else [rom_folder]) is a finite map
      from file name to the text stored in the file; the log sink receives
      lines, kept in the order they were sent.
    - Methods that touch the folder or the log are computations in the
      state monad [M] over [world].
    - Files are read in text mode with universal newlines, and written
      with LF kept as LF (the POSIX behaviour of text mode).
    - Left out: the optional progress callback (taken to be [None], its
      default), I/O and encoding errors, and the limit CPython puts on the
      number of digits [int] accepts. *)

From Stdlib Require Import ZArith Ascii String List DecimalString.
From stdpp Require Import base option list sorting gmap strings fin_maps.

Local Open Scope Z_scope.
Set Warnings "-clear-no-such-hyp".

(** ** Python text primitives *)

Module Text.

Definition LF : ascii := "010"%char.
Definition CR : ascii := "013"%char.
Definition EQUALS : ascii := "="%char.
Definition HASH : ascii := "#"%char.
Definition DQUOTE : ascii := "034"%char.

(** [str.isspace] on one character, for the code points below 256:
    TAB LF VT FF CR, FS GS RS US, SPACE, NEL (U+0085) and NBSP (U+00A0). *)
Definition isspace (c : ascii) : bool :=
  let n := N_of_ascii c in
  ((9 <=? n) && (n <=? 13) || (28 <=? n) && (n <=? 32)
   || (n =? 133) || (n =? 160))%N.

Fixpoint lstrip (s : string) : string :=
  match s with
  | EmptyString => EmptyString
  | String c s' => if isspace c then lstrip s' else s
  end.

Fixpoint rstrip (s : string) : string :=
  match s with
  | EmptyString => EmptyString
  | String c s' =>
      match rstrip s' with
      | EmptyString => if isspace c then EmptyString else String c EmptyString
      | r => String c r
      end
  end.

(** [s.strip()] *)
Definition strip (s : string) : string := rstrip (lstrip s).

(** [c in s] *)
Fixpoint contains (c : ascii) (s : string) : bool :=
  match s with
  | EmptyString => false
  | String d s' => Ascii.eqb d c || contains c s'
  end.

(** [s.startswith(c)] for a one-character prefix. *)
Definition startswith (c : ascii) (s : string) : bool :=
  match s with
  | EmptyString => false
  | String d _ => Ascii.eqb d c
  end.

(** [s.split(c, 1)] when [c] occurs in [s]: the text before the first
    occurrence and the text after it.  [None] when [c] does not occur
    (Python then returns a one-element list). *)
Fixpoint split_once (c : ascii) (s : string) : option (string * string) :=
  match s with
  | EmptyString => None
  | String d s' =>
      if Ascii.eqb d c then Some (EmptyString, s')
      else match split_once c s' with
           | Some (a, b) => Some (String d a, b)
           | None => None
           end
  end.

(** Text-mode reading with [newline=None]: CR LF and a lone CR both
    reach the program as LF. *)
Fixpoint universal_newlines (s : string) : string :=
  match s with
  | EmptyString => EmptyString
  | String c s' =>
      if Ascii.eqb c CR then
        match s' with
        | String d s'' =>
            if Ascii.eqb d LF then String LF (universal_newlines s'')
            else String LF (universal_newlines s')
        | EmptyString => String LF EmptyString
        end
      else String c (universal_newlines s')
  end.

(** Iterating over a text file: every line keeps its terminating LF,
    the last one may lack it. *)
Fixpoint readlines (s : string) : list string :=
  match s with
  | EmptyString => []
  | String c s' =>
      if Ascii.eqb c LF then String LF EmptyString :: readlines s'
      else match readlines s' with
           | [] => [String c EmptyString]
           | l :: ls => String c l :: ls
           end
  end.

(** Concatenation of the pieces written to a file one after the other. *)
Definition join (pieces : list string) : string :=
  foldr String.append EmptyString pieces.

(** [str(n)] for an [int]. *)
Definition str_int (n : Z) : string := NilZero.string_of_int (Z.to_int n).

(** [f'"{s}"'] *)
Definition quoted (s : string) : string :=
  String DQUOTE (s +:+ String DQUOTE EmptyString).

End Text.

Import Text.

(** ** The world of the manager: output folder and log sink *)

Record world := World {
  files : gmap string string;   (* file name -> text of the file *)
  logged : list string          (* lines sent to [log_callback], oldest first *)
}.

Definition M (A : Type) : Type := world → A * world.

Global Instance M_ret : MRet M := λ A a w, (a, w).
Global Instance M_bind : MBind M :=
  λ A B f m w, let '(a, w') := m w in f a w'.

(** The world a computation leaves, and the value it returns. *)
Definition exec {A} (m : M A) (w : world) : world := (m w).2.
Definition eval {A} (m : M A) (w : world) : A := (m w).1.

(** [self.log(message)] *)
Definition log (message : string) : M () :=
  λ w, ((), World (files w) (logged w ++ [message])).

(** [config_path.exists()] *)
Definition path_exists (config_path : string) : M bool :=
  λ w, (bool_decide (is_Some (files w !! config_path)), w).

(** [config_path.unlink()] *)
Definition unlink (config_path : string) : M () :=
  λ w, ((), World (delete config_path (files w)) (logged w)).

(** [open(config_path, 'w')] followed by the writes: the file is created
    or truncated and holds exactly the text written. *)
Definition write_text (config_path : string) (content : string) : M () :=
  λ w, ((), World (<[config_path := content]> (files w)) (logged w)).

(** ** Config files *)

(** The body of the loop of [read_config_file] for one line. *)
Definition read_line (config : gmap string string) (line : string)
  : gmap string string :=
  let line := strip line in
  if contains EQUALS line && negb (startswith HASH line) then
    match split_once EQUALS line with
    | Some (key, value) => <[strip key := strip value]> config
    | None => config
    end
  else config.

(** The dictionary read from the text of a config file. *)
Definition parse_config (content : string) : gmap string string :=
  foldl read_line ∅ (readlines (universal_newlines content)).

(** The dictionary [read_config_file] returns given the folder: empty when
    the file does not exist. *)
Definition config_of (fs : gmap string string) (config_path : string)
  : gmap string string :=
  match fs !! config_path with
  | Some content => parse_config content
  | None => ∅
  end.

Definition read_config_file (config_path : string) : M (gmap string string) :=
  λ w, (config_of (files w) config_path, w).

Definition viewport_order : list string :=
  [ "aspect_ratio_index"; "custom_viewport_x"; "custom_viewport_y";
    "custom_viewport_width"; "custom_viewport_height" ].

(** [f'{key} = {value}\n'] *)
Definition format_entry (key value : string) : string :=
  key +:+ " = " +:+ value +:+ String LF EmptyString.

(** Python's order on the tuples [(key, value)] of [config.items()]. *)
Definition item_leb (p q : string * string) : bool :=
  if bool_decide (p.1 = q.1) then String.leb p.2 q.2 else String.leb p.1 q.1.
Definition item_le (p q : string * string) : Prop := item_leb p q.

(** [sorted(config.items())] *)
Definition sorted_items (config : gmap string string) : list (string * string) :=
  merge_sort item_le (map_to_list config).

(** The lines of the first loop of [write_config_file]. *)
Definition viewport_lines (config : gmap string string) : list string :=
  omap (λ key, format_entry key <$> config !! key) viewport_order.

(** The lines of its second loop. *)
Definition other_lines (config : gmap string string) : list string :=
  omap (λ '(key, value),
          if bool_decide (key ∈ viewport_order) then None
          else Some (format_entry key value))
       (sorted_items config).

(** The text [write_config_file] leaves in the file. *)
Definition serialize (config : gmap string string) : string :=
  join (viewport_lines config ++ other_lines config).

Definition write_config_file (config_path : string)
    (config : gmap string string) : M () :=
  write_text config_path (serialize config).

(** The name of the config file of a ROM inside the output folder. *)
Definition config_path_of (rom_name : string) : string :=
  rom_name +:+ ".zip.cfg".

(** [x if x is not None else 0] *)
Definition or_zero (x : option Z) : Z := default 0 x.

(** The five assignments of [update_rom_config]. *)
Definition set_viewport (config : gmap string string)
    (width height : Z) (x y : option Z) : gmap string string :=
  let config := <["custom_viewport_width" := quoted (str_int width)]> config in
  let config := <["custom_viewport_height" := quoted (str_int height)]> config in
  let config := <["custom_viewport_x" := quoted (str_int (or_zero x))]> config in
  let config := <["custom_viewport_y" := quoted (str_int (or_zero y))]> config in
  <["aspect_ratio_index" := quoted "23"]> config.

Definition update_rom_config (rom_name : string) (width height : Z)
    (x y : option Z) : M () :=
  let config_path := config_path_of rom_name in
  config ← read_config_file config_path;
  let config := set_viewport config width height x y in
  write_config_file config_path config;;
  present ← path_exists config_path;
  let action := if present : bool then "Updated" else "Created" in
  let log_msg := action +:+ " config for " +:+ rom_name +:+ ".zip: "
                 +:+ str_int width +:+ "x" +:+ str_int height in
  let log_msg :=
    if bool_decide (is_Some x) || bool_decide (is_Some y)
    then log_msg +:+ " at (" +:+ str_int (or_zero x) +:+ ", "
         +:+ str_int (or_zero y) +:+ ")"
    else log_msg in
  log log_msg.

(** The keys [remove_rom_config] deletes, in the order of its loop. *)
Definition removed_keys : list string :=
  [ "custom_viewport_width"; "custom_viewport_height";
    "custom_viewport_x"; "custom_viewport_y"; "aspect_ratio_index" ].

(** One turn of the removal loop on [(config, removed_any)]. *)
Definition remove_key (st : gmap string string * bool) (key : string)
  : gmap string string * bool :=
  if bool_decide (is_Some (st.1 !! key)) then (delete key st.1, true) else st.

Definition remove_viewport (config : gmap string string)
  : gmap string string * bool :=
  foldl remove_key (config, false) removed_keys.

(** [not config] *)
Definition is_empty_dict (config : gmap string string) : bool :=
  bool_decide (config = ∅).

(** Returns [(removed, is_empty)]. *)
Definition remove_rom_config (rom_name : string) (delete_if_empty : bool)
  : M (bool * bool) :=
  let config_path := config_path_of rom_name in
  present ← path_exists config_path;
  if negb present then
    log ("No config file found for " +:+ rom_name +:+ ".zip");;
    mret (false, false)
  else
    config ← read_config_file config_path;
    let '(config, removed_any) := remove_viewport config in
    if negb removed_any then
      log ("No viewport overrides found in config for " +:+ rom_name +:+ ".zip");;
      mret (false, false)
    else
      let is_empty := is_empty_dict config in
      (if is_empty && delete_if_empty then
         unlink config_path;;
         log ("Removed config file for " +:+ rom_name
              +:+ ".zip (was empty after removing overrides)")
       else if is_empty then
         write_config_file config_path config;;
         log ("Config for " +:+ rom_name
              +:+ ".zip is now empty after removing overrides")
       else
         write_config_file config_path config;;
         log ("Removed viewport overrides from " +:+ rom_name +:+ ".zip config"));;
      mret (true, is_empty).

(** ** The manager *)

(** [GameInfo]: what the catalog says about one game. *)
Record GameInfo := {
  name : string;
  width : Z;
  height : Z;
  description : string;
  year : string;
  manufacturer : string;
  cloneof : string;
  rotate : string;
  screen_type : string
}.

(** The attributes of [ViewportConfigurationManager].  A folder attribute
    is [None] when the constructor received no (or an empty) path.  The
    [files] of the world are the content of the output folder, which the
    operations below take to be set and to exist. *)
Record manager := {
  dat_file : option string;
  rom_folder : option string;
  export_folder : option string;
  override_width : option Z;
  override_height : option Z;
  override_x : option Z;
  override_y : option Z;
  game_resolutions : gmap string (Z * Z);
  game_info : gmap string GameInfo
}.

(** [self.export_folder if self.export_folder else self.rom_folder] *)
Definition output_folder (mgr : manager) : option string :=
  match export_folder mgr with
  | Some p => Some p
  | None => rom_folder mgr
  end.

(** [for x in l: st = f(st, x)] for a loop body with effects. *)
Fixpoint for_each {A B} (f : B → A → M B) (st : B) (l : list A) : M B :=
  match l with
  | [] => mret st
  | x :: l' => st' ← f st x; for_each f st' l'
  end.

(** [name.endswith(suffix)] *)
Definition endswith (suffix name : string) : bool :=
  bool_decide (String.length suffix ≤ String.length name)%nat
  && String.eqb
       (String.substring (String.length name - String.length suffix)
                         (String.length suffix) name)
       suffix.

(** [output_folder.glob('*.zip.cfg')]: the names of the folder that end
    in [.zip.cfg], in the order the folder lists them. *)
Definition glob_configs : M (list string) :=
  λ w, (filter (λ n, endswith ".zip.cfg" n) (map_to_list (files w)).*1, w).

(** The keys [remove_all_overrides] looks for and pops. *)
Definition popped_keys : list string :=
  [ "custom_viewport_width"; "custom_viewport_height"; "aspect_ratio_index" ].

(** One turn of the loop of [remove_all_overrides] on the counters
    [(removed_count, skipped_count)]; the progress callback is absent. *)
Definition remove_all_step (counts : Z * Z) (config_file : string)
  : M (Z * Z) :=
  config ← read_config_file config_file;
  let has_overrides :=
    existsb (λ key, bool_decide (is_Some (config !! key))) popped_keys in
  if has_overrides then
    let config := delete "custom_viewport_width" config in
    let config := delete "custom_viewport_height" config in
    let config := delete "aspect_ratio_index" config in
    (if is_empty_dict config then
       unlink config_file;;
       log ("Removed " +:+ config_file
            +:+ " (was empty after removing overrides)")
     else
       write_config_file config_file config;;
       log ("Removed viewport overrides from " +:+ config_file));;
    mret (counts.1 + 1, counts.2)
  else mret (counts.1, counts.2 + 1).

(** Returns [(removed_count, skipped_count)]. *)
Definition remove_all_overrides (mgr : manager) : M (Z * Z) :=
  match output_folder mgr with
  | None => log "Output folder not found: None";; mret (0, 0)
  | Some folder =>
      config_files ← glob_configs;
      log ("Found " +:+ str_int (Z.of_nat (length config_files))
           +:+ " config files in " +:+ folder);;
      counts ← for_each remove_all_step (0, 0) config_files;
      log (String LF "Removal complete:");;
      log ("  Removed: " +:+ str_int counts.1);;
      log ("  Skipped: " +:+ str_int counts.2);;
      mret counts
  end.

(** [Path.stem]: the name without its last suffix; a name whose only dot
    is the first or the last character has no suffix. *)
Fixpoint rfind (c : ascii) (s : string) : option nat :=
  match s with
  | EmptyString => None
  | String d s' =>
      match rfind c s' with
      | Some i => Some (S i)
      | None => if Ascii.eqb d c then Some 0%nat else None
      end
  end.

Definition stem (name : string) : string :=
  match rfind "."%char name with
  | Some i =>
      if bool_decide (0 < i < String.length name - 1)%nat
      then String.substring 0 i name else name
  | None => name
  end.

(** [get_rom_files]: [listing] holds the names found in the ROM folder,
    [None] when that folder is unset or missing. *)
Definition get_rom_files (mgr : manager) (listing : option (list string))
  : M (list string) :=
  match rom_folder mgr, listing with
  | Some folder, Some names =>
      let rom_files := filter (λ n, endswith ".zip" n) names in
      log ("Found " +:+ str_int (Z.of_nat (length rom_files))
           +:+ " ROM files in " +:+ folder);;
      mret rom_files
  | folder, _ =>
      log ("ROM folder not found: " +:+ default "None" folder);;
      mret []
  end.

(** One turn of the loop of [process_roms] on the counters
    [(processed_count, skipped_count)]; the progress callback is absent. *)
Definition process_step (mgr : manager) (counts : Z * Z) (rom_file : string)
  : M (Z * Z) :=
  let rom_name := stem rom_file in
  match game_resolutions mgr !! rom_name with
  | Some (dat_width, dat_height) =>
      let width := match override_width mgr with
                   | Some w => w | None => dat_width end in
      let height := match override_height mgr with
                    | Some h => h | None => dat_height end in
      update_rom_config rom_name width height
                        (override_x mgr) (override_y mgr);;
      mret (counts.1 + 1, counts.2)
  | None =>
      log ("Skipped " +:+ rom_name +:+ ".zip: No resolution data in DAT file");;
      mret (counts.1, counts.2 + 1)
  end.

(** Returns [(processed_count, skipped_count)]. *)
Definition process_roms (mgr : manager) (listing : option (list string))
  : M (Z * Z) :=
  rom_files ← get_rom_files mgr listing;
  counts ← for_each (process_step mgr) (0, 0) rom_files;
  log (String LF "Processing complete:");;
  log ("  Processed: " +:+ str_int counts.1);;
  log ("  Skipped: " +:+ str_int counts.2);;
  mret counts.

(** ** The catalog *)

(** An [xml.etree.ElementTree.Element]. *)
#[warnings="-register-all"]
Inductive element := Element {
  tag : string;
  attrib : gmap string string;
  text : option string;
  children : list element
}.

(** The result of [ET.parse(self.dat_file)]. *)
Inductive et_parse_result :=
  | ET_ParseError (message : string)
  | ET_FileNotFound
  | ET_Tree (root : element).

Inductive exn :=
  | ValueError (message : string)
  | ParseError (message : string)
  | FileNotFoundError.

(** The proper descendants of an element, in document order. *)
Fixpoint descendants (e : element) : list element :=
  (fix go (cs : list element) : list element :=
     match cs with
     | [] => []
     | c :: cs' => c :: descendants c ++ go cs'
     end) (children e).

(** [e.findall('.//t')] *)
Definition findall_desc (t : string) (e : element) : list element :=
  filter (λ d, tag d = t) (descendants e).

(** [e.find('.//t')] *)
Definition find_desc (t : string) (e : element) : option element :=
  head (findall_desc t e).

(** [e.find('t')]: the first child with that tag. *)
Definition find_child (t : string) (e : element) : option element :=
  head (filter (λ d, tag d = t) (children e)).

(** [e.get(key)] and [e.get(key, "")] *)
Definition get (e : element) (key : string) : option string := attrib e !! key.
Definition get_or_empty (e : element) (key : string) : string :=
  default EmptyString (attrib e !! key).

(** Truth value of an optional string: [None] and the empty string are
    false. *)
Definition truthy (o : option string) : bool :=
  match o with
  | Some s => negb (bool_decide (s = EmptyString))
  | None => false
  end.

(** [a or b] on strings. *)
Definition py_or (a b : string) : string :=
  if bool_decide (a = EmptyString) then b else a.

(** [elem.text if elem is not None and elem.text else ""] *)
Definition text_or_empty (elem : option element) : string :=
  match elem with
  | Some e => if truthy (text e) then default EmptyString (text e)
              else EmptyString
  | None => EmptyString
  end.

(** [str(o)] inside an f-string for a value that may be [None]. *)
Definition str_opt (o : option string) : string := default "None" o.

(** [int(s)] for a [str]: surrounding whitespace, an optional sign, then
    decimal digits where single underscores may separate digits; [None]
    stands for [ValueError]. *)
Definition digit_of (c : ascii) : option Z :=
  let n := N_of_ascii c in
  if ((48 <=? n) && (n <=? 57))%N then Some (Z.of_N n - 48) else None.

Fixpoint int_digits (acc : Z) (after_digit : bool) (s : string) : option Z :=
  match s with
  | EmptyString => if after_digit then Some acc else None
  | String c s' =>
      if Ascii.eqb c "_"%char then
        if after_digit then int_digits acc false s' else None
      else match digit_of c with
           | Some d => int_digits (10 * acc + d) true s'
           | None => None
           end
  end.

Definition py_int (s : string) : option Z :=
  match strip s with
  | String c r =>
      if Ascii.eqb c "+"%char then int_digits 0 false r
      else if Ascii.eqb c "-"%char then Z.opp <$> int_digits 0 false r
      else int_digits 0 false (String c r)
  | EmptyString => None
  end.

(** The values [width], [height], [rotate], [screen_type] hold when the
    two lookups of [parse_dat_file] are done. *)
Record screen := {
  scr_width : option string;
  scr_height : option string;
  scr_rotate : string;
  scr_type : string
}.

Definition lookup_screen (game : element) : screen :=
  let scr := {| scr_width := None; scr_height := None;
                scr_rotate := EmptyString; scr_type := EmptyString |} in
  let scr :=
    match find_desc "display" game with
    | Some display =>
        {| scr_width := get display "width";
           scr_height := get display "height";
           scr_rotate := py_or (get_or_empty display "rotate")
                               (get_or_empty display "orientation");
           scr_type := get_or_empty display "type" |}
    | None => scr
    end in
  if negb (truthy (scr_width scr)) || negb (truthy (scr_height scr)) then
    match find_desc "video" game with
    | Some video =>
        {| scr_width := get video "width";
           scr_height := get video "height";
           scr_rotate := py_or (get_or_empty video "rotate")
                               (get_or_empty video "orientation");
           scr_type := py_or (get_or_empty video "screen")
                             (get_or_empty video "type") |}
    | None => scr
    end
  else scr.

Definition invalid_resolution_warning (game_name : string)
    (w h : option string) : string :=
  "Warning: Invalid resolution for " +:+ game_name +:+ ": "
  +:+ str_opt w +:+ "x" +:+ str_opt h.

(** The body of the loop of [parse_dat_file] for one [game] element. *)
Definition scan_game (mgr : manager) (game : element) : M manager :=
  let game_name := get game "name" in
  if negb (truthy game_name) then mret mgr
  else
    let game_name := default EmptyString game_name in
    let description := text_or_empty (find_child "description" game) in
    let year := text_or_empty (find_child "year" game) in
    let manufacturer := text_or_empty (find_child "manufacturer" game) in
    let cloneof := get_or_empty game "cloneof" in
    let scr := lookup_screen game in
    if truthy (scr_width scr) && truthy (scr_height scr) then
      match py_int (default EmptyString (scr_width scr)),
            py_int (default EmptyString (scr_height scr)) with
      | Some w, Some h =>
          mret {| dat_file := dat_file mgr;
                  rom_folder := rom_folder mgr;
                  export_folder := export_folder mgr;
                  override_width := override_width mgr;
                  override_height := override_height mgr;
                  override_x := override_x mgr;
                  override_y := override_y mgr;
                  game_resolutions :=
                    <[game_name := (w, h)]> (game_resolutions mgr);
                  game_info :=
                    <[game_name :=
                        {| name := game_name; width := w; height := h;
                           description := description; year := year;
                           manufacturer := manufacturer; cloneof := cloneof;
                           rotate := scr_rotate scr;
                           screen_type := scr_type scr |}]> (game_info mgr) |}
      | _, _ =>
          log (invalid_resolution_warning game_name
                 (scr_width scr) (scr_height scr));;
          mret mgr
      end
    else mret mgr.

(** [parse_dat_file], given what [ET.parse] makes of the catalog file.
    The result is the exception that leaves the method, or the manager
    with its two maps filled. *)
Definition parse_dat_file (mgr : manager) (parsed : et_parse_result)
  : M (exn + manager) :=
  match dat_file mgr with
  | None => mret (inl (ValueError "DAT file not set"))
  | Some path =>
      log ("Parsing DAT file: " +:+ path);;
      match parsed with
      | ET_ParseError e =>
          log ("Error parsing DAT file: " +:+ e);;
          mret (inl (ParseError e))
      | ET_FileNotFound =>
          log ("DAT file not found: " +:+ path);;
          mret (inl FileNotFoundError)
      | ET_Tree root =>
          mgr ← for_each scan_game mgr (findall_desc "game" root);
          let found := Z.of_nat (size (game_resolutions mgr)) in
          log ("Found " +:+ str_int found +:+ " games with resolution data");;
          (if bool_decide (found = 0) then
             let total_games :=
               Z.of_nat (length (findall_desc "game" root))
               + Z.of_nat (length (findall_desc "machine" root)) in
             if bool_decide (0 < total_games) then
               log ("Warning: Found " +:+ str_int total_games
                    +:+ " game entries but none have resolution data.");;
               log "This DAT file may not contain display/video information.";;
               log "Please use a DAT file that includes resolution data (e.g., MAME XML, FinalBurn Neo DAT with display tags)."
             else mret ()
           else mret ());;
          mret (inr mgr)
      end
  end.

(** ** Vocabulary of the statements *)

Fixpoint all_chars (P : ascii → bool) (s : string) : bool :=
  match s with
  | EmptyString => true
  | String c s' => P c && all_chars P s'
  end.

(** A line terminator of text-mode reading. *)
Definition is_newline (c : ascii) : bool := Ascii.eqb c LF || Ascii.eqb c CR.

Definition no_newline (s : string) : Prop :=
  all_chars (λ c, negb (is_newline c)) s = true.

(** A key as [read_config_file] can return it. *)
Definition clean_key (k : string) : Prop :=
  strip k = k ∧ contains EQUALS k = false ∧ startswith HASH k = false
  ∧ no_newline k.

(** A value as [read_config_file] can return it. *)
Definition clean_value (v : string) : Prop :=
  strip v = v ∧ no_newline v.

Definition clean_config (config : gmap string string) : Prop :=
  map_Forall (λ k v, clean_key k ∧ clean_value v) config.

Definition clean_items (items : list (string * string)) : Prop :=
  Forall (λ p, clean_key p.1 ∧ clean_value p.2) items.

(** The entries behind the two groups of lines of [write_config_file]. *)
Definition viewport_items (config : gmap string string)
  : list (string * string) :=
  omap (λ key, pair key <$> config !! key) viewport_order.

Definition other_items (config : gmap string string)
  : list (string * string) :=
  filter (λ p, p.1 ∉ viewport_order) (sorted_items config).

(** The width and height [process_roms] passes on for a catalog entry:
    the override where there is one, the catalog value otherwise. *)
Definition effective (mgr : manager) (dat : Z * Z) : Z * Z :=
  (default dat.1 (override_width mgr), default dat.2 (override_height mgr)).

(** [width and height] in [parse_dat_file]: both screen values of the game
    element are there and non-empty, so the method goes on to convert
    them. *)
Definition has_resolution_text (game : element) : bool :=
  truthy (scr_width (lookup_screen game))
  && truthy (scr_height (lookup_screen game)).

(** Both are there and both convert: the element stores an entry under
    its name. *)
Definition valid_resolution (game : element) : bool :=
  has_resolution_text game
  && bool_decide
       (is_Some (py_int (default EmptyString (scr_width (lookup_screen game)))))
  && bool_decide
       (is_Some (py_int (default EmptyString (scr_height (lookup_screen game))))).

(** Strictly before, in the order of Python on [str]. *)
Definition str_lt (a b : string) : Prop := String.le a b ∧ a ≠ b.

(** ** Sample data *)

Module Sample.

Definition display (attrs : list (string * string)) : element :=
  Element "display" (list_to_map attrs) None [].

Definition game (game_name : string) (cs : list element) : element :=
  Element "game" {[ "name" := game_name ]} None cs.

Definition pacman : element :=
  game "pacman" [display [("width", "224"); ("height", "288")]].

(** A width that is no integer, and no height at all. *)
Definition no_height : element :=
  game "halfgame" [display [("width", "abc")]].

(** A width that is no integer next to a height that is one. *)
Definition bad_width : element :=
  game "badgame" [display [("width", "abc"); ("height", "240")]].

Definition catalog (games : list element) : element :=
  Element "datafile" ∅ None games.

Definition mgr (ow oh ox oy : option Z) (res : gmap string (Z * Z))
  : manager :=
  {| dat_file := Some "fbneo.dat"; rom_folder := Some "roms";
     export_folder := None;
     override_width := ow; override_height := oh;
     override_x := ox; override_y := oy;
     game_resolutions := res; game_info := ∅ |}.

Definition empty_world : world := World ∅ [].

(** A folder whose one target holds an unrelated key. *)
Definition plain_world : world :=
  World {[ "pacman.zip.cfg" := format_entry "video_driver" "gl" ]} [].

(** The folder after one [update_rom_config]. *)
Definition applied_world : world :=
  exec (update_rom_config "pacman" 320 240 None None) empty_world.

End Sample.

(** ** Further operations of the manager *)

(** Returns whether the file was deleted. *)
Definition delete_empty_config (rom_name : string) : M bool :=
  let config_path := config_path_of rom_name in
  present ← path_exists config_path;
  if negb present then mret false
  else
    config ← read_config_file config_path;
    if negb (is_empty_dict config) then mret false
    else
      unlink config_path;;
      log ("Deleted empty config file: " +:+ rom_name +:+ ".zip.cfg");;
      mret true.

(** What the interface does to remove one override: it calls
    [remove_rom_config] with [delete_if_empty=False] and, when told that
    settings were removed and the record is now empty (and the user
    agrees), [delete_empty_config]. *)
Definition remove_then_delete (rom_name : string) : M (bool * bool) :=
  result ← remove_rom_config rom_name false;
  (if result.1 && result.2 then delete_empty_config rom_name;; mret ()
   else mret ());;
  mret result.

(** ** Vocabulary of the further statements *)

(** The ROM files [get_rom_files] hands to [process_roms]. *)
Definition listed_roms (mgr : manager) (listing : option (list string))
  : list string :=
  match rom_folder mgr, listing with
  | Some _, Some names => filter (λ n, endswith ".zip" n) names
  | _, _ => []
  end.

(** The ROM file has an entry in the catalog. *)
Definition in_catalog (mgr : manager) (rom_file : string) : bool :=
  bool_decide (is_Some (game_resolutions mgr !! stem rom_file)).

(** The catalog entry under which [process_roms] writes the file [path]:
    that of the first ROM file of the list whose target is [path] and that
    the catalog knows. *)
Definition processed_entry (mgr : manager) (rom_files : list string)
    (path : string) : option (Z * Z) :=
  head (omap (λ rom_file,
                if bool_decide (config_path_of (stem rom_file) = path)
                then game_resolutions mgr !! stem rom_file else None)
             rom_files).

(** [has_overrides] in [remove_all_overrides]. *)
Definition has_popped_key (config : gmap string string) : bool :=
  existsb (λ key, bool_decide (is_Some (config !! key))) popped_keys.

(** The record once [remove_all_overrides] has popped its three keys. *)
Definition pop_keys (config : gmap string string) : gmap string string :=
  delete "aspect_ratio_index"
    (delete "custom_viewport_height" (delete "custom_viewport_width" config)).

(** What one turn of [remove_all_overrides] leaves of the file it visits,
    [None] standing for no file. *)
Definition after_pop (fs : gmap string string) (config_file : string)
  : option string :=
  let config := config_of fs config_file in
  if has_popped_key config then
    if is_empty_dict (pop_keys config) then None
    else Some (serialize (pop_keys config))
  else fs !! config_file.

(** The config files [remove_all_overrides] visits: those the folder
    lists under [*.zip.cfg], none when no output folder is set. *)
Definition listed_configs (mgr : manager) (w : world) : list string :=
  match output_folder mgr with
  | Some _ => eval glob_configs w
  | None => []
  end.

(** The element stores an entry: it has a name and a valid resolution. *)
Definition stores_entry (game : element) : bool :=
  truthy (get game "name") && valid_resolution game.

(** The [GameInfo] a storing element puts in [game_info]. *)
Definition info_of (game : element) (game_name : string) (w h : Z)
  : GameInfo :=
  {| name := game_name; width := w; height := h;
     description := text_or_empty (find_child "description" game);
     year := text_or_empty (find_child "year" game);
     manufacturer := text_or_empty (find_child "manufacturer" game);
     cloneof := get_or_empty game "cloneof";
     rotate := scr_rotate (lookup_screen game);
     screen_type := scr_type (lookup_screen game) |}.

(** The two maps of the manager tell the same story: a name has a
    resolution exactly when it has a [GameInfo], which then carries that
    name and that resolution. *)
Definition maps_agree (mgr : manager) : Prop :=
  ∀ n, game_resolutions mgr !! n
       = (λ info, (width info, height info)) <$> game_info mgr !! n
       ∧ ∀ info, game_info mgr !! n = Some info → name info = n.

(** The attributes of the manager that [parse_dat_file] does not set. *)
Definition same_settings (mgr mgr' : manager) : Prop :=
  dat_file mgr' = dat_file mgr ∧ rom_folder mgr' = rom_folder mgr
  ∧ export_folder mgr' = export_folder mgr
  ∧ override_width mgr' = override_width mgr
  ∧ override_height mgr' = override_height mgr
  ∧ override_x mgr' = override_x mgr ∧ override_y mgr' = override_y mgr.

(** The text of a file made of the given lines, each ended by LF. *)
Definition text_of_lines (bodies : list string) : string :=
  join ((λ body, body +:+ String LF EmptyString) <$> bodies).

(** A line [read_config_file] passes over: once stripped it has no equals
    sign (a blank line is one such) or starts with [#]. *)
Definition ignored_line (body : string) : bool :=
  negb (contains EQUALS (strip body)) || startswith HASH (strip body).

(** ** Backup archives *)

(** Conventions of [backup_configs] and [restore_configs].
    - File names are POSIX names.  A file of the output folder is known
      by its name, and the content of a file is a string: the text of a
      config file, the bytes of an archive.
    - An archive lies where its path says: in the output folder, as the
      code's own default path does, or outside it.  The files outside the
      folder are kept by path.
    - [zipfile] is seen through two functions, the bytes it writes for
      given members and what it finds in given bytes, and through what
      extracting a member does.
    - A computation answers [None] where the code goes beyond this model:
      a file name that no real folder has, an archive written over one of
      the files it is to hold, a member to extract whose name is not a
      plain file name (its extraction enters a sub-folder, or its target
      is tested outside the folder), and a member extracted over the
      archive that is being read.
    - Left out, with the I/O errors: a file that [zipfile] refuses for its
      modification time, and the rest of what an archive records of a file
      besides its name and bytes. *)

Definition NUL : ascii := "000"%char.
Definition SLASH : ascii := "/"%char.

(** The name of a file in a folder: not empty, without separator or NUL,
    and neither [.] nor [..]. *)
Definition plain_name (n : string) : bool :=
  negb (String.eqb n EmptyString)
  && negb (contains SLASH n) && negb (contains NUL n)
  && negb (String.eqb n ".") && negb (String.eqb n "..").

(** What [zipf.extract] does with a member: it writes the member's bytes
    to the target, or it raises, [zipfile.BadZipFile] or another
    exception [e] with [str(e) = message], having left the target alone
    or holding [remains], a part of the bytes. *)
Inductive member_data :=
  | Stored (content : string)
  | Damaged (bad_zip : bool) (message : string) (remains : option string).

(** What [zipfile.ZipFile(path, 'r')] does with the bytes of a file: it
    raises [zipfile.BadZipFile], or another exception [e] with
    [str(e) = message], or finds an archive with its members in order. *)
Inductive zip_file :=
  | NotZip
  | Unreadable (message : string)
  | Zip (members : list (string * member_data)).

(** The library: the bytes of the archive that holds the given files,
    each a name and its bytes, and what is found in given bytes. *)
Record zip_library := ZipLibrary {
  zip_bytes : list (string * string) → string;
  unzip : string → zip_file
}.

(** Reading an archive the library wrote gives the files written, each
    one intact. *)
Definition reads_back (lib : zip_library) : Prop :=
  ∀ written, Forall (λ m, plain_name m.1) written →
    unzip lib (zip_bytes lib written) = Zip (prod_map id Stored <$> written).

(** What lies at a path outside the output folder: a file, or nothing
    and no way to create a file there ([open] raises [e] with
    [str(e) = message]).  A path that is not listed has nothing, and a
    file can be created there. *)
Inductive slot :=
  | File (content : string)
  | Blocked (message : string).

(** A path to an archive: [str(path)], and the name of the file when the
    path leads into the output folder. *)
Record zip_path := ZipPath {
  path_text : string;
  path_name : option string
}.

(** The output folder and the log, whether the folder exists, and the
    files outside it. *)
Record disk := Disk {
  disk_world : world;
  folder_present : bool;
  elsewhere : gmap string slot
}.

Definition MD (A : Type) : Type := disk → option (A * disk).

Global Instance MD_ret : MRet MD := λ A a d, Some (a, d).
Global Instance MD_bind : MBind MD :=
  λ A B f m d, match m d with
               | Some (a, d') => f a d'
               | None => None
               end.

(** Beyond the model. *)
Definition unmodelled {A} : MD A := λ d, None.

(** A computation on the folder and the log, run on the disk. *)
Definition on_world {A} (m : M A) : MD A :=
  λ d, let '(a, w') := m (disk_world d) in
       Some (a, Disk w' (folder_present d) (elsewhere d)).

(** [config_folder.exists()] *)
Definition folder_exists : MD bool := λ d, Some (folder_present d, d).

(** [config_folder.glob('*.cfg')] *)
Definition glob_cfg : M (list string) :=
  λ w, (filter (λ n, endswith ".cfg" n) (map_to_list (files w)).*1, w).

(** The members the loop [zipf.write(config_file, config_file.name)]
    stores: each file under its own name, with its bytes. *)
Definition members_of (fs : gmap string string) (names : list string)
  : list (string * string) :=
  omap (λ n, pair n <$> fs !! n) names.

(** [str(config_folder / name)] *)
Definition joinpath (config_folder name : string) : string :=
  if String.eqb config_folder "." then name
  else if endswith "/" config_folder then config_folder +:+ name
  else config_folder +:+ "/" +:+ name.

(** [config_folder / f"config_backup_{timestamp}.zip"] *)
Definition default_backup_path (config_folder timestamp : string)
  : zip_path :=
  let name := "config_backup_" +:+ timestamp +:+ ".zip" in
  ZipPath (joinpath config_folder name) (Some name).

(** [with zipfile.ZipFile(backup_path, 'w', ...)] and the writes in it.
    Returns [str(e)] when opening the archive raises [e], which a path
    outside the folder can do.  An archive in the folder is a file of the
    folder, new or written over the file of that name.  Beyond the model:
    a config file whose name is not a plain name, and an archive in the
    folder under a name that is not plain or is that of one of the config
    files, which [zipfile] would then read while it writes it. *)
Definition write_zip (lib : zip_library) (backup_path : zip_path)
    (config_files : list string) : MD (option string) :=
  λ d,
    let w := disk_world d in
    let bytes := zip_bytes lib (members_of (files w) config_files) in
    if negb (forallb plain_name config_files) then None
    else
      match path_name backup_path with
      | Some name =>
          if negb (plain_name name) || bool_decide (name ∈ config_files)
          then None
          else Some (None, Disk (World (<[name := bytes]> (files w))
                                       (logged w))
                                (folder_present d) (elsewhere d))
      | None =>
          match elsewhere d !! path_text backup_path with
          | Some (Blocked message) => Some (Some message, d)
          | _ => Some (None, Disk w (folder_present d)
                                  (<[path_text backup_path := File bytes]>
                                     (elsewhere d)))
          end
      end.

(** [self.log(error_msg); return False, None, error_msg] *)
Definition backup_error (error_msg : string)
  : MD (bool * option zip_path * option string) :=
  on_world (log error_msg);;
  mret (false, None, Some error_msg).

(** [backup_configs]; [timestamp] is what
    [datetime.now().strftime("%Y%m%d_%H%M%S")] gives.  Returns
    [(success, backup_path, error_message)]. *)
Definition backup_configs (lib : zip_library) (mgr : manager)
    (backup_path : option zip_path) (timestamp : string)
  : MD (bool * option zip_path * option string) :=
  match output_folder mgr with
  | None => backup_error "Config folder not found: None"
  | Some config_folder =>
      present ← folder_exists;
      if negb present
      then backup_error ("Config folder not found: " +:+ config_folder)
      else
        config_files ← on_world glob_cfg;
        match config_files with
        | [] => backup_error "No config files found to backup"
        | _ =>
            let backup_path :=
              default (default_backup_path config_folder timestamp)
                      backup_path in
            raised ← write_zip lib backup_path config_files;
            match raised with
            | Some message => backup_error ("Backup failed: " +:+ message)
            | None =>
                on_world (log ("Backup created: "
                               +:+ path_text backup_path));;
                on_world (log ("Backed up "
                               +:+ str_int (Z.of_nat (length config_files))
                               +:+ " config files"));;
                mret (true, Some backup_path, None)
            end
        end
  end.

(** The folder a disk holds. *)
Definition folder (d : disk) : gmap string string := files (disk_world d).

(** What lies at a path: the bytes of the file, [None] when there is no
    file. *)
Definition bytes_at (d : disk) (backup_path : zip_path) : option string :=
  match path_name backup_path with
  | Some name => folder d !! name
  | None =>
      match elsewhere d !! path_text backup_path with
      | Some (File content) => Some content
      | _ => None
      end
  end.

(** [backup_path.exists()] and the bytes [zipfile.ZipFile(backup_path, 'r')]
    is given. *)
Definition read_bytes (backup_path : zip_path) : MD (option string) :=
  λ d, Some (bytes_at d backup_path, d).

(** The member [zipf.extract(filename, ...)] extracts: the last one of
    that name. *)
Definition zip_read (members : list (string * member_data))
    (filename : string) : option member_data :=
  snd <$> last (filter (λ m, m.1 = filename) members).

(** The exceptions [restore_configs] tells apart. *)
Inductive raised :=
  | BadZipFile
  | OtherError (message : string).

(** One turn of the loop of [restore_configs] on the counters
    [(restored_count, skipped_count)]: the new counters, or what
    [zipf.extract] raised.  The target [config_folder / filename] is the
    file [filename] of the folder, and the file [zipf.extract] writes,
    for a plain name; the turn is beyond the model for another name, and
    where it extracts over the archive itself.  A name that the archive
    does not have cannot come up: the names are those of its members. *)
Definition restore_step (backup_path : zip_path)
    (members : list (string * member_data)) (overwrite : bool)
    (counts : Z * Z) (filename : string) : MD (raised + Z * Z) :=
  if negb (plain_name filename) then unmodelled
  else
    present ← on_world (path_exists filename);
    if present && negb overwrite then
      on_world (log ("Skipped " +:+ filename +:+ " (already exists)"));;
      mret (inr (counts.1, counts.2 + 1))
    else if bool_decide (path_name backup_path = Some filename)
    then unmodelled
    else
      match zip_read members filename with
      | None => unmodelled
      | Some (Stored content) =>
          on_world (write_text filename content);;
          on_world (log ("Restored " +:+ filename));;
          mret (inr (counts.1 + 1, counts.2))
      | Some (Damaged bad_zip message remains) =>
          match remains with
          | Some part => on_world (write_text filename part)
          | None => mret ()
          end;;
          mret (inl (if bad_zip then BadZipFile else OtherError message))
      end.

(** [for filename in cfg_files: ...], left at the first exception. *)
Fixpoint restore_loop (backup_path : zip_path)
    (members : list (string * member_data)) (overwrite : bool)
    (counts : Z * Z) (cfg_files : list string) : MD (raised + Z * Z) :=
  match cfg_files with
  | [] => mret (inr counts)
  | filename :: rest =>
      outcome ← restore_step backup_path members overwrite counts filename;
      match outcome with
      | inl e => mret (inl e)
      | inr counts' => restore_loop backup_path members overwrite counts' rest
      end
  end.

(** [self.log(error_msg); return 0, 0, error_msg] *)
Definition restore_error (error_msg : string)
  : MD (Z * Z * option string) :=
  on_world (log error_msg);;
  mret (0, 0, Some error_msg).

(** Returns [(restored_count, skipped_count, error_message)]. *)
Definition restore_configs (lib : zip_library) (mgr : manager)
    (backup_path : zip_path) (overwrite : bool)
  : MD (Z * Z * option string) :=
  match output_folder mgr with
  | None => restore_error "Config folder not found: None"
  | Some config_folder =>
      present ← folder_exists;
      if negb present
      then restore_error ("Config folder not found: " +:+ config_folder)
      else
        found ← read_bytes backup_path;
        match found with
        | None =>
            restore_error ("Backup file not found: "
                           +:+ path_text backup_path)
        | Some bytes =>
            match unzip lib bytes with
            | NotZip =>
                restore_error "Invalid backup file (not a valid zip archive)"
            | Unreadable message =>
                restore_error ("Restore failed: " +:+ message)
            | Zip members =>
                let cfg_files :=
                  filter (λ f, endswith ".cfg" f) members.*1 in
                match cfg_files with
                | [] => restore_error "No config files found in backup"
                | _ =>
                    outcome ← restore_loop backup_path members overwrite
                                           (0, 0) cfg_files;
                    match outcome with
                    | inl BadZipFile =>
                        restore_error
                          "Invalid backup file (not a valid zip archive)"
                    | inl (OtherError message) =>
                        restore_error ("Restore failed: " +:+ message)
                    | inr counts =>
                        on_world (log (String LF "Restore complete:"));;
                        on_world (log ("  Restored: " +:+ str_int counts.1));;
                        on_world (log ("  Skipped: " +:+ str_int counts.2));;
                        mret (counts.1, counts.2, None)
                    end
                end
            end
        end
  end.

(** ** Vocabulary of the archive statements *)

(** The [.cfg] files of a folder, with their text. *)
Definition is_cfg_file (fs : gmap string string) (n c : string) : Prop :=
  endswith ".cfg" n = true ∧ fs !! n = Some c.

(** What the library finds at a path, [None] when there is no file. *)
Definition archive_at (lib : zip_library) (d : disk) (backup_path : zip_path)
  : option zip_file :=
  unzip lib <$> bytes_at d backup_path.

(** The members [restore_configs] restores, by name. *)
Definition cfg_members (members : list (string * member_data))
  : list string :=
  filter (λ f, endswith ".cfg" f) members.*1.

(** Each [.cfg] member has a plain name. *)
Definition plain_members (members : list (string * member_data)) : Prop :=
  ∀ f, f ∈ cfg_members members → plain_name f.

(** No [.cfg] member has the name the archive itself has in the folder. *)
Definition apart (backup_path : zip_path)
    (members : list (string * member_data)) : Prop :=
  ∀ f, f ∈ cfg_members members → path_name backup_path ≠ Some f.

(** The restore is one this model follows: the [.cfg] members of the
    archive at the path, if there is one, have plain names and, where
    files are overwritten, none has the archive's own. *)
Definition can_restore (lib : zip_library) (d : disk)
    (backup_path : zip_path) (overwrite : bool) : Prop :=
  ∀ members, archive_at lib d backup_path = Some (Zip members) →
             plain_members members
             ∧ (overwrite = true → apart backup_path members).

(** Every [.cfg] member of the archive is intact. *)
Definition intact (members : list (string * member_data)) : Prop :=
  ∀ f, f ∈ cfg_members members →
       ∃ content, zip_read members f = Some (Stored content).




(** ** A stand-in for the library

    One way to write an archive down as a string and to read it back:
    a mark before each member, and before each character of a name or
    of a content a mark that says which it is. *)

Module Sample_zip.

Fixpoint tagged (tag : ascii) (s : string) : string :=
  match s with
  | EmptyString => EmptyString
  | String c s' => String tag (String c (tagged tag s'))
  end.

Definition zip_bytes (written : list (string * string)) : string :=
  Text.join ((λ m, String "m" (tagged "n" m.1 +:+ tagged "c" m.2))
             <$> written).

(** The name and the content read so far of the member at hand, and the
    members after it. *)
Fixpoint parse (s : string)
  : option (string * string * list (string * member_data)) :=
  match s with
  | EmptyString => Some (EmptyString, EmptyString, [])
  | String "m" s' =>
      match parse s' with
      | Some (n, c, l) => Some (EmptyString, EmptyString, (n, Stored c) :: l)
      | None => None
      end
  | String "n" (String x s') =>
      match parse s' with
      | Some (n, c, l) => Some (String x n, c, l)
      | None => None
      end
  | String "c" (String x s') =>
      match parse s' with
      | Some (n, c, l) => Some (n, String x c, l)
      | None => None
      end
  | _ => None
  end.

Definition unzip (bytes : string) : zip_file :=
  match parse bytes with
  | Some (EmptyString, EmptyString, members) => Zip members
  | _ => NotZip
  end.

Definition lib : zip_library := ZipLibrary zip_bytes unzip.

(** A folder with one config file, the archive [backup_configs] makes of
    it at its default path, the folder with that archive in it, and
    another folder that holds the archive beside a text file. *)
Definition cfg_text : string := format_entry "video_driver" "gl".

Definition stamp : string := "20240101_120000".

Definition archive_name : string := "config_backup_20240101_120000.zip".

Definition archive_path : zip_path := default_backup_path "roms" stamp.

Definition archive_bytes : string := zip_bytes [("pacman.zip.cfg", cfg_text)].

Definition source : disk := Disk Sample.plain_world true ∅.

Definition backed_up : disk :=
  Disk (World {[ "pacman.zip.cfg" := cfg_text;
                 archive_name := archive_bytes ]}
              ["Backup created: roms/config_backup_20240101_120000.zip";
               "Backed up 1 config files"])
       true ∅.

Definition target : disk :=
  Disk (World {[ "readme.txt" := "notes"; archive_name := archive_bytes ]} [])
       true ∅.

Definition mgr : manager := Sample.mgr None None None None ∅.

End Sample_zip.

(** * Properties *)

(** ** Text *)

Section text_facts.

Lemma append_cons c s t : String c s +:+ t = String c (s +:+ t).
Proof. reflexivity. Qed.

Lemma append_nil_l s : EmptyString +:+ s = s.
Proof. reflexivity. Qed.

Lemma append_nil_r s : s +:+ EmptyString = s.
Proof. induction s as [|c s IH]; [done|]. by rewrite append_cons, IH. Qed.

Lemma append_assoc s t u : (s +:+ t) +:+ u = s +:+ t +:+ u.
Proof.
  induction s as [|c s IH]; [done|]. by rewrite !append_cons, IH.
Qed.

Lemma all_chars_app P s t :
  all_chars P (s +:+ t) = all_chars P s && all_chars P t.
Proof.
  induction s as [|c s IH]; [done|].
  rewrite append_cons. simpl. rewrite IH. by rewrite andb_assoc.
Qed.

Lemma all_chars_impl (P Q : ascii → bool) s :
  (∀ c, P c = true → Q c = true) →
  all_chars P s = true → all_chars Q s = true.
Proof.
  intros HPQ. induction s as [|c s IH]; simpl; [done|].
  intros [? ?]%andb_true_iff. apply andb_true_iff. auto.
Qed.

Lemma contains_all_chars c s :
  contains c s = false ↔ all_chars (λ d, negb (Ascii.eqb d c)) s = true.
Proof.
  induction s as [|d s IH]; simpl; [done|].
  rewrite orb_false_iff, andb_true_iff, negb_true_iff. tauto.
Qed.

Lemma contains_app c s t :
  contains c (s +:+ t) = contains c s || contains c t.
Proof.
  induction s as [|d s IH]; [done|].
  rewrite append_cons. simpl. rewrite IH. by rewrite orb_assoc.
Qed.

(** *** Stripping *)

Lemma lstrip_head s :
  lstrip s = EmptyString ∨
  ∃ c r, lstrip s = String c r ∧ isspace c = false.
Proof.
  induction s as [|c s IH]; simpl; [by left|].
  destruct (isspace c) eqn:Hc; [done|]. right. eauto.
Qed.

Lemma lstrip_nonspace c s : isspace c = false → lstrip (String c s) = String c s.
Proof. intros Hc. simpl. by rewrite Hc. Qed.

Lemma rstrip_nonspace c s :
  isspace c = false → rstrip (String c s) = String c (rstrip s).
Proof. intros Hc. simpl. rewrite Hc. by destruct (rstrip s). Qed.

Lemma rstrip_space c s :
  isspace c = true →
  rstrip (String c s) =
    match rstrip s with EmptyString => EmptyString | r => String c r end.
Proof. intros Hc. simpl. by rewrite Hc. Qed.

Lemma lstrip_idem s : lstrip (lstrip s) = lstrip s.
Proof.
  induction s as [|c s IH]; simpl; [done|].
  destruct (isspace c) eqn:Hc; [done|]. by apply lstrip_nonspace.
Qed.

Lemma rstrip_idem s : rstrip (rstrip s) = rstrip s.
Proof.
  induction s as [|c s IH]; [done|].
  destruct (isspace c) eqn:Hc.
  - rewrite (rstrip_space c s Hc).
    destruct (rstrip s) as [|d r] eqn:Hr; [done|].
    rewrite (rstrip_space c _ Hc), IH. done.
  - rewrite (rstrip_nonspace c s Hc), (rstrip_nonspace c _ Hc), IH. done.
Qed.

Lemma lstrip_rstrip s : lstrip (rstrip s) = rstrip (lstrip s).
Proof.
  induction s as [|c s IH]; [done|].
  destruct (isspace c) eqn:Hc.
  - rewrite (rstrip_space c s Hc). simpl lstrip at 2. rewrite Hc, <- IH.
    destruct (rstrip s) as [|d r]; [done|]. simpl. by rewrite Hc.
  - rewrite (lstrip_nonspace c s Hc), (rstrip_nonspace c s Hc).
    by apply lstrip_nonspace.
Qed.

Lemma strip_idem s : strip (strip s) = strip s.
Proof.
  unfold strip. by rewrite lstrip_rstrip, lstrip_idem, rstrip_idem.
Qed.

Lemma strip_lstrip s : strip (lstrip s) = strip s.
Proof. unfold strip. by rewrite lstrip_idem. Qed.

Lemma strip_rstrip s : strip (rstrip s) = strip s.
Proof. unfold strip. by rewrite lstrip_rstrip, rstrip_idem. Qed.

Lemma lstrip_app_nonspace p c r :
  isspace c = false →
  lstrip (p +:+ String c r) = lstrip p +:+ String c r.
Proof.
  intros Hc. induction p as [|d p IH].
  - rewrite append_nil_l. simpl. by rewrite Hc.
  - rewrite append_cons. simpl. by destruct (isspace d).
Qed.

Lemma rstrip_app_nonspace p c r :
  isspace c = false →
  rstrip (p +:+ String c r) = p +:+ String c (rstrip r).
Proof.
  intros Hc. induction p as [|d p IH].
  - rewrite !append_nil_l. by apply rstrip_nonspace.
  - rewrite !append_cons. simpl. rewrite IH.
    destruct p; by rewrite ?append_nil_l, ?append_cons.
Qed.

Lemma rstrip_all_space ws :
  all_chars isspace ws = true → rstrip ws = EmptyString.
Proof.
  induction ws as [|c ws IH]; simpl; [done|].
  intros [Hc Hws]%andb_true_iff. by rewrite IH, Hc.
Qed.

Lemma rstrip_app_space s ws :
  all_chars isspace ws = true → rstrip (s +:+ ws) = rstrip s.
Proof.
  intros Hws. induction s as [|c s IH].
  - rewrite append_nil_l. by apply rstrip_all_space.
  - rewrite append_cons. simpl. by rewrite IH.
Qed.

Lemma lstrip_space_app ws s :
  all_chars isspace ws = true → lstrip (ws +:+ s) = lstrip s.
Proof.
  induction ws as [|c ws IH]; [done|]. rewrite append_cons.
  intros [Hc Hws]%andb_true_iff. simpl. rewrite Hc. auto.
Qed.

Lemma all_chars_lstrip P s :
  all_chars P s = true → all_chars P (lstrip s) = true.
Proof.
  induction s as [|c s IH]; simpl; [done|].
  intros [? ?]%andb_true_iff. destruct (isspace c); [auto|].
  simpl. apply andb_true_iff. auto.
Qed.

Lemma all_chars_rstrip P s :
  all_chars P s = true → all_chars P (rstrip s) = true.
Proof.
  induction s as [|c s IH]; simpl; [done|].
  intros [HP Hs]%andb_true_iff. specialize (IH Hs).
  destruct (rstrip s) as [|d r].
  - destruct (isspace c); simpl; [done|]. by rewrite HP.
  - simpl in *. by rewrite HP, IH.
Qed.

Lemma all_chars_strip P s :
  all_chars P s = true → all_chars P (strip s) = true.
Proof. intros. by apply all_chars_rstrip, all_chars_lstrip. Qed.

End text_facts.

Section line_facts.

Lemma stripped_head s :
  strip s = s →
  s = EmptyString ∨ ∃ c r, s = String c r ∧ isspace c = false.
Proof.
  unfold strip. intros Hs.
  destruct (lstrip_head s) as [He|(c & r & He & Hc)]; rewrite He in Hs.
  - left. by rewrite <- Hs.
  - right. rewrite (rstrip_nonspace c r Hc) in Hs. eauto.
Qed.

Lemma stripped_lstrip s : strip s = s → lstrip s = s.
Proof.
  intros [->|(c & r & -> & Hc)]%stripped_head; [done|].
  by apply lstrip_nonspace.
Qed.

Lemma stripped_rstrip s : strip s = s → rstrip s = s.
Proof.
  intros Hs. pose proof (stripped_lstrip s Hs) as Hl.
  unfold strip in Hs. by rewrite Hl in Hs.
Qed.

Lemma split_once_app c p r :
  contains c p = false → split_once c (p +:+ String c r) = Some (p, r).
Proof.
  induction p as [|d p IH].
  - intros _. rewrite append_nil_l. simpl. by rewrite Ascii.eqb_refl.
  - rewrite append_cons. simpl. intros [Hd Hp]%orb_false_iff.
    by rewrite Hd, (IH Hp).
Qed.

Lemma split_once_Some c s a b :
  split_once c s = Some (a, b) →
  s = a +:+ String c b ∧ contains c a = false.
Proof.
  revert a b. induction s as [|d s IH]; intros a b; simpl; [done|].
  destruct (Ascii.eqb_spec d c) as [->|Hdc].
  - intros [= <- <-]. done.
  - destruct (split_once c s) as [[a' b']|]; [|done].
    intros [= <- <-]. destruct (IH a' b' eq_refl) as [-> Ha].
    split; [done|]. simpl. rewrite Ha.
    by destruct (Ascii.eqb_spec d c).
Qed.

(** What one turn of the reading loop can do. *)
Lemma read_line_cases config line :
  read_line config line = config ∨
  ∃ a b, strip line = a +:+ String EQUALS b
         ∧ contains EQUALS a = false
         ∧ startswith HASH (strip line) = false
         ∧ read_line config line = <[strip a := strip b]> config.
Proof.
  unfold read_line.
  destruct (contains EQUALS (strip line)); [|by left].
  destruct (startswith HASH (strip line)) eqn:Hh; [by left|]. simpl.
  destruct (split_once EQUALS (strip line)) as [[a b]|] eqn:Hs; [|by left].
  right. exists a, b. apply split_once_Some in Hs as [? ?]. done.
Qed.

(** A line split at its first [=] whose first visible character is not
    [#] defines the stripped key and value. *)
Lemma read_line_split config p r :
  contains EQUALS p = false →
  startswith HASH (lstrip p +:+ String EQUALS EmptyString) = false →
  read_line config (p +:+ String EQUALS r) = <[strip p := strip r]> config.
Proof.
  intros Hp Hh. unfold read_line.
  assert (Heq : isspace EQUALS = false) by done.
  assert (Hstrip : strip (p +:+ String EQUALS r)
                   = lstrip p +:+ String EQUALS (rstrip r)).
  { unfold strip. rewrite (lstrip_app_nonspace p _ r Heq).
    by apply rstrip_app_nonspace. }
  rewrite Hstrip.
  assert (Hlp : contains EQUALS (lstrip p) = false).
  { apply contains_all_chars, all_chars_lstrip, contains_all_chars, Hp. }
  assert (contains EQUALS (lstrip p +:+ String EQUALS (rstrip r)) = true)
    as -> by (rewrite contains_app; apply orb_true_r).
  assert (startswith HASH (lstrip p +:+ String EQUALS (rstrip r)) = false)
    as ->.
  { destruct (lstrip p); [done|]. by rewrite append_cons in *. }
  simpl. rewrite (split_once_app _ _ _ Hlp).
  by rewrite strip_lstrip, strip_rstrip.
Qed.

(** Reading back one written line. *)
Lemma read_line_format_entry config k v :
  clean_key k → clean_value v →
  read_line config (format_entry k v) = <[k := v]> config.
Proof.
  intros (Hk & Hkeq & Hkh & _) (Hv & _). unfold format_entry.
  change (k +:+ " = " +:+ v +:+ String LF EmptyString)
    with (k +:+ String " " (String EQUALS
            (String " " (v +:+ String LF EmptyString)))).
  replace (k +:+ String " " (String EQUALS
            (String " " (v +:+ String LF EmptyString))))
    with ((k +:+ " ") +:+ String EQUALS
            (" " +:+ (v +:+ String LF EmptyString)))
    by (by rewrite append_assoc).
  rewrite read_line_split.
  - f_equal.
    + unfold strip. rewrite <- lstrip_rstrip.
      rewrite (rstrip_app_space k " ") by done.
      rewrite lstrip_rstrip. exact Hk.
    + unfold strip. rewrite (lstrip_space_app " ") by done.
      rewrite <- lstrip_rstrip.
      rewrite (rstrip_app_space v (String LF EmptyString)) by done.
      rewrite lstrip_rstrip. exact Hv.
  - rewrite contains_app, Hkeq. done.
  - destruct (stripped_head k Hk) as [->|(c & r & -> & Hc)]; [done|].
    rewrite append_cons, (lstrip_nonspace c _ Hc). exact Hkh.
Qed.

Lemma startswith_strip_prefix c a b :
  strip (String c a +:+ b) = String c a +:+ b →
  startswith HASH (strip (String c a)) = startswith HASH (String c a).
Proof.
  rewrite append_cons.
  intros [?|(c' & r & [= <- <-] & Hc)]%stripped_head; [done|].
  unfold strip. by rewrite (lstrip_nonspace c a Hc), (rstrip_nonspace c a Hc).
Qed.

Lemma read_line_clean config line :
  no_newline (strip line) →
  clean_config config → clean_config (read_line config line).
Proof.
  intros Hnl Hc.
  destruct (read_line_cases config line)
    as [->|(a & b & Hs & Ha & Hh & ->)]; [done|].
  unfold no_newline in Hnl. rewrite Hs, all_chars_app in Hnl.
  apply andb_true_iff in Hnl as [Hnla Hnlb].
  change (all_chars (λ c, negb (is_newline c)) b = true) in Hnlb.
  apply map_Forall_insert_2; [|done]. split.
  - split; [apply strip_idem|]. split; [|split].
    + by apply contains_all_chars, all_chars_strip, contains_all_chars.
    + destruct a as [|c a]; [done|].
      rewrite (startswith_strip_prefix c a (String EQUALS b)).
      * rewrite Hs in Hh. by rewrite append_cons in Hh.
      * rewrite <- Hs. apply strip_idem.
    + by apply all_chars_strip.
  - split; [apply strip_idem|]. by apply all_chars_strip.
Qed.

End line_facts.

Section file_facts.

Local Abbreviation not_lf := (λ c : ascii, negb (Ascii.eqb c LF)).
Local Abbreviation not_cr := (λ c : ascii, negb (Ascii.eqb c CR)).

Lemma no_newline_split s :
  no_newline s ↔ all_chars not_lf s = true ∧ all_chars not_cr s = true.
Proof.
  unfold no_newline, is_newline.
  induction s as [|c s IH]; simpl; [done|].
  rewrite !andb_true_iff, IH, negb_orb, andb_true_iff. tauto.
Qed.

Lemma universal_newlines_id s :
  all_chars not_cr s = true → universal_newlines s = s.
Proof.
  induction s as [|c s IH]; simpl; [done|].
  intros [Hc Hs]%andb_true_iff. apply negb_true_iff in Hc.
  rewrite Hc. f_equal. auto.
Qed.

Lemma universal_newlines_no_cr s :
  all_chars not_cr (universal_newlines s) = true.
Proof.
  remember (String.length s) as n eqn:Hn.
  revert s Hn. induction (lt_wf n) as [n _ IH]. intros s ->.
  destruct s as [|c s]; [done|].
  cbn [universal_newlines].
  destruct (Ascii.eqb c CR) eqn:Hc.
  - destruct s as [|d s]; [done|].
    destruct (Ascii.eqb d LF).
    + cbn [all_chars]. apply andb_true_iff. split; [done|].
      eapply IH; [|done]. simpl. lia.
    + cbn [all_chars]. apply andb_true_iff. split; [done|].
      eapply IH; [|done]. simpl. lia.
  - cbn [all_chars]. rewrite Hc. simpl. eapply IH; [|done]. simpl. lia.
Qed.

Lemma readlines_all_chars P s :
  all_chars P s = true → Forall (λ l, all_chars P l = true) (readlines s).
Proof.
  induction s as [|c s IH]; simpl; [constructor|].
  intros [Hc Hs]%andb_true_iff. specialize (IH Hs).
  destruct (Ascii.eqb_spec c LF) as [->|_].
  - constructor; [|done]. simpl. by rewrite Hc.
  - destruct (readlines s) as [|l ls].
    + constructor; [|done]. simpl. by rewrite Hc.
    + inversion_clear IH as [|? ? Hl Hls].
      constructor; [|done]. simpl. by rewrite Hc, Hl.
Qed.

(** A line of a file is free of LF but for its last character. *)
Lemma readlines_shape s :
  Forall (λ l, ∃ body, all_chars not_lf body = true
                       ∧ (l = body ∨ l = body +:+ String LF EmptyString))
         (readlines s).
Proof.
  induction s as [|c s IH]; simpl; [constructor|].
  destruct (Ascii.eqb_spec c LF) as [->|Hc].
  - constructor; [|done]. exists EmptyString. split; [done|by right].
  - apply Ascii.eqb_neq in Hc.
    destruct (readlines s) as [|l ls].
    + constructor; [|done]. exists (String c EmptyString).
      split; [|by left]. simpl. by rewrite Hc.
    + inversion_clear IH as [|? ? (body & Hb & Hl) Hls].
      constructor; [|done]. exists (String c body). split.
      * simpl. by rewrite Hc, Hb.
      * rewrite append_cons. destruct Hl as [->| ->]; auto.
Qed.

Lemma readlines_strip_no_newline s :
  all_chars not_cr s = true →
  Forall (λ l, no_newline (strip l)) (readlines s).
Proof.
  intros Hcr. pose proof (readlines_all_chars _ _ Hcr) as H1.
  pose proof (readlines_shape s) as H2.
  induction H1 as [|l ls Hl _ IH]; [constructor|].
  inversion_clear H2 as [|? ? (body & Hb & Hshape) Hls].
  constructor; [|auto].
  apply no_newline_split. split; [|by apply all_chars_strip].
  destruct Hshape as [->| ->]; [by apply all_chars_strip|].
  unfold strip. rewrite <- lstrip_rstrip.
  rewrite (rstrip_app_space body (String LF EmptyString)) by done.
  by apply all_chars_lstrip, all_chars_rstrip.
Qed.

Lemma foldl_read_line_clean ls config :
  Forall (λ l, no_newline (strip l)) ls →
  clean_config config → clean_config (foldl read_line config ls).
Proof.
  intros Hls. revert config.
  induction Hls as [|l ls Hl _ IH]; intros config Hc; simpl; [done|].
  by apply IH, read_line_clean.
Qed.

(** Whatever the file holds, the dictionary read from it is clean. *)
Lemma parse_config_clean content : clean_config (parse_config content).
Proof.
  apply foldl_read_line_clean; [|apply map_Forall_empty].
  apply readlines_strip_no_newline, universal_newlines_no_cr.
Qed.

Lemma config_of_clean fs path : clean_config (config_of fs path).
Proof.
  unfold config_of. destruct (fs !! path).
  - apply parse_config_clean.
  - apply map_Forall_empty.
Qed.

Lemma readlines_line body rest :
  all_chars not_lf body = true →
  readlines (body +:+ String LF rest)
  = (body +:+ String LF EmptyString) :: readlines rest.
Proof.
  induction body as [|c body IH]; [done|].
  rewrite !append_cons. cbn [all_chars readlines].
  intros [Hc Hb]%andb_true_iff. apply negb_true_iff in Hc.
  by rewrite Hc, (IH Hb).
Qed.

End file_facts.

(** ** Serialisation *)

Section serialize_facts.

Implicit Types config : gmap string string.

Lemma NoDup_viewport_order : NoDup viewport_order.
Proof. apply (bool_decide_unpack _). by vm_compute. Qed.

Lemma viewport_items_keys config :
  (viewport_items config).*1
  = filter (λ k, is_Some (config !! k)) viewport_order.
Proof.
  unfold viewport_items.
  induction viewport_order as [|k ks IH]; [done|].
  rewrite filter_cons. simpl. destruct (config !! k) as [v|] eqn:Hk; simpl.
  - f_equal. apply IH.
  - apply IH.
Qed.

Lemma elem_of_viewport_items config k v :
  (k, v) ∈ viewport_items config ↔
  k ∈ viewport_order ∧ config !! k = Some v.
Proof.
  unfold viewport_items. rewrite list_elem_of_omap. split.
  - intros (k' & Hin & Hf). destruct (config !! k') eqn:Hk; [|done].
    simpl in Hf. by simplify_eq.
  - intros [Hin Hk]. exists k. by rewrite Hk.
Qed.

Lemma NoDup_viewport_items config : NoDup (viewport_items config).
Proof.
  apply (NoDup_fmap_1 fst). rewrite viewport_items_keys.
  apply NoDup_filter, NoDup_viewport_order.
Qed.

Lemma elem_of_other_items config k v :
  (k, v) ∈ other_items config ↔
  config !! k = Some v ∧ k ∉ viewport_order.
Proof.
  unfold other_items, sorted_items.
  rewrite list_elem_of_filter, merge_sort_Permutation, elem_of_map_to_list.
  simpl. tauto.
Qed.

(** The written entries are the entries of the dictionary. *)
Lemma written_items_Permutation config :
  viewport_items config ++ other_items config ≡ₚ map_to_list config.
Proof.
  apply NoDup_Permutation.
  - apply NoDup_app. split; [apply NoDup_viewport_items|]. split.
    + intros [k v] [Hin _]%elem_of_viewport_items
             [_ Hout]%elem_of_other_items. done.
    + unfold other_items, sorted_items. apply NoDup_filter.
      rewrite merge_sort_Permutation. apply NoDup_map_to_list.
  - apply NoDup_map_to_list.
  - intros [k v].
    rewrite elem_of_app, elem_of_viewport_items, elem_of_other_items,
      elem_of_map_to_list.
    destruct (decide (k ∈ viewport_order)); tauto.
Qed.

Lemma viewport_lines_items config :
  viewport_lines config
  = (λ p, format_entry p.1 p.2) <$> viewport_items config.
Proof.
  unfold viewport_lines, viewport_items.
  induction viewport_order as [|k ks IH]; [done|]. simpl.
  destruct (config !! k); simpl; [f_equal|]; apply IH.
Qed.

Lemma other_lines_items config :
  other_lines config = (λ p, format_entry p.1 p.2) <$> other_items config.
Proof.
  unfold other_lines, other_items.
  induction (sorted_items config) as [|[k v] l IH]; [done|].
  rewrite filter_cons. cbn [omap list_omap fst snd].
  destruct (decide (k ∈ viewport_order)) as [Hin|Hout].
  - rewrite bool_decide_eq_true_2 by done.
    rewrite decide_False by auto. apply IH.
  - rewrite bool_decide_eq_false_2 by done.
    rewrite decide_True by done. simpl. f_equal. apply IH.
Qed.

Lemma serialize_items config :
  serialize config
  = join ((λ p, format_entry p.1 p.2)
            <$> (viewport_items config ++ other_items config)).
Proof.
  unfold serialize.
  by rewrite viewport_lines_items, other_lines_items, fmap_app.
Qed.

Lemma foldl_insert_list_to_map (items : list (string * string)) acc :
  NoDup items.*1 →
  foldl (λ config p, <[p.1 := p.2]> config) acc items
  = list_to_map items ∪ acc.
Proof.
  revert acc. induction items as [|[k v] items IH]; intros acc; simpl.
  - intros _. by rewrite (left_id_L ∅ (∪)).
  - intros [Hk Hnd]%NoDup_cons. rewrite (IH _ Hnd).
    rewrite <- insert_union_r, insert_union_l; [done|].
    by apply not_elem_of_list_to_map_1.
Qed.

Lemma format_entry_body k v :
  format_entry k v = (k +:+ " = " +:+ v) +:+ String LF EmptyString.
Proof. unfold format_entry. by rewrite !append_assoc. Qed.

Lemma join_cons l ls : join (l :: ls) = l +:+ join ls.
Proof. reflexivity. Qed.

Lemma foldl_read_line_items items acc :
  clean_items items →
  foldl read_line acc ((λ p, format_entry p.1 p.2) <$> items)
  = foldl (λ config p, <[p.1 := p.2]> config) acc items.
Proof.
  intros Hitems. revert acc.
  induction Hitems as [|[k v] l [Hk Hv] _ IH]; intros acc; [done|].
  simpl in *. by rewrite read_line_format_entry, IH.
Qed.

Lemma join_items_no_cr items :
  clean_items items →
  all_chars (λ c, negb (Ascii.eqb c CR))
            (join ((λ p, format_entry p.1 p.2) <$> items)) = true.
Proof.
  induction 1 as [|[k v] l [Hk Hv] _ IH]; [done|].
  destruct Hk as (_ & _ & _ & [_ Hk]%no_newline_split).
  destruct Hv as (_ & [_ Hv]%no_newline_split).
  rewrite fmap_cons, join_cons, all_chars_app, IH, andb_true_r.
  simpl in Hk, Hv. unfold format_entry. simpl fst. simpl snd.
  rewrite !all_chars_app, Hk, Hv. done.
Qed.

Lemma readlines_join_items items :
  clean_items items →
  readlines (join ((λ p, format_entry p.1 p.2) <$> items))
  = (λ p, format_entry p.1 p.2) <$> items.
Proof.
  induction 1 as [|[k v] l [Hk Hv] _ IH]; [done|].
  destruct Hk as (_ & _ & _ & [Hk _]%no_newline_split).
  destruct Hv as (_ & [Hv _]%no_newline_split).
  rewrite fmap_cons, join_cons. simpl fst. simpl snd. simpl in Hk, Hv.
  rewrite format_entry_body, append_assoc.
  rewrite (append_cons LF EmptyString), append_nil_l.
  rewrite readlines_line, IH; [done|].
  rewrite !all_chars_app, Hk, Hv. done.
Qed.

(** Writing a clean dictionary and reading the text back gives the
    dictionary. *)
Lemma parse_config_serialize config :
  clean_config config → parse_config (serialize config) = config.
Proof.
  intros Hc. unfold parse_config. rewrite serialize_items.
  pose proof (written_items_Permutation config) as Hperm.
  assert (Hitems : clean_items
                     (viewport_items config ++ other_items config)).
  { apply Forall_forall. intros [k v] Hin. rewrite Hperm in Hin.
    apply elem_of_map_to_list in Hin. by apply (Hc k v). }
  rewrite universal_newlines_id by by apply join_items_no_cr.
  rewrite readlines_join_items, foldl_read_line_items by done.
  assert (Hnd : NoDup (viewport_items config ++ other_items config).*1).
  { rewrite Hperm. apply NoDup_fst_map_to_list. }
  rewrite (foldl_insert_list_to_map _ _ Hnd), (right_id_L ∅ (∪)).
  rewrite (list_to_map_proper _ _ Hnd Hperm).
  apply list_to_map_to_list.
Qed.

End serialize_facts.

(** ** The operations on one target *)

Section target_facts.

Implicit Types (config : gmap string string) (w : world).

Lemma str_uint_no_newline d : no_newline (NilEmpty.string_of_uint d).
Proof. unfold no_newline. induction d; simpl; done. Qed.

Lemma str_int_no_newline n : no_newline (str_int n).
Proof.
  assert (Hu : ∀ d, no_newline (NilZero.string_of_uint d)).
  { intros []; first [done | apply str_uint_no_newline]. }
  unfold str_int. destruct (Z.to_int n) as [d|d]; apply Hu.
Qed.

Lemma quoted_clean s : no_newline s → clean_value (quoted s).
Proof.
  intros Hs. unfold quoted. split.
  - unfold strip. rewrite lstrip_nonspace by done.
    change (String DQUOTE (s +:+ String DQUOTE EmptyString))
      with (String DQUOTE s +:+ String DQUOTE EmptyString).
    by rewrite rstrip_app_nonspace.
  - unfold no_newline in *. simpl. rewrite all_chars_app, Hs. done.
Qed.

Lemma set_viewport_clean config width height x y :
  clean_config config → clean_config (set_viewport config width height x y).
Proof.
  intros Hc. unfold set_viewport.
  repeat (apply map_Forall_insert_2;
          [split; [by repeat split
                  |apply quoted_clean;
                   first [apply str_int_no_newline | done]]|]).
  done.
Qed.

Lemma set_viewport_idem config width height x y :
  set_viewport (set_viewport config width height x y) width height x y
  = set_viewport config width height x y.
Proof.
  apply map_eq. intros k. unfold set_viewport.
  rewrite !lookup_insert. repeat case_decide; done.
Qed.

Lemma set_viewport_other config width height x y k :
  k ∉ viewport_order →
  set_viewport config width height x y !! k = config !! k.
Proof.
  intros Hk. unfold set_viewport.
  rewrite !lookup_insert_ne; [done|intros <-; apply Hk; set_solver..].
Qed.

Lemma config_of_insert_serialize fs path config :
  clean_config config →
  config_of (<[path := serialize config]> fs) path = config.
Proof.
  intros Hc. unfold config_of.
  by rewrite lookup_insert_eq, parse_config_serialize.
Qed.

(** The folder after [update_rom_config]. *)
Lemma update_rom_config_files rom_name width height x y w :
  files (exec (update_rom_config rom_name width height x y) w)
  = <[config_path_of rom_name :=
        serialize (set_viewport
                     (config_of (files w) (config_path_of rom_name))
                     width height x y)]> (files w).
Proof. reflexivity. Qed.

Lemma update_rom_config_config_of rom_name width height x y w :
  config_of (files (exec (update_rom_config rom_name width height x y) w))
            (config_path_of rom_name)
  = set_viewport (config_of (files w) (config_path_of rom_name))
                 width height x y.
Proof.
  rewrite update_rom_config_files.
  apply config_of_insert_serialize, set_viewport_clean, config_of_clean.
Qed.

End target_facts.

Section removal_facts.

Implicit Types (config : gmap string string) (w : world).

Lemma remove_key_fst st key : (remove_key st key).1 = delete key st.1.
Proof.
  unfold remove_key. case_bool_decide as Hk; [done|]. simpl.
  symmetry. apply delete_id. by apply eq_None_not_Some.
Qed.

Lemma foldl_remove_key_lookup keys config b k :
  (foldl remove_key (config, b) keys).1 !! k
  = if decide (k ∈ keys) then None else config !! k.
Proof.
  revert config b. induction keys as [|key keys IH]; intros config b.
  - simpl. by destruct (decide (k ∈ [])) as [?%elem_of_nil|].
  - simpl. destruct (remove_key (config, b) key) as [config' b'] eqn:Hst.
    rewrite IH. pose proof (remove_key_fst (config, b) key) as Hfst.
    rewrite Hst in Hfst. simpl in Hfst. subst config'.
    destruct (decide (k = key)) as [->|Hne].
    + rewrite lookup_delete_eq, (decide_True (P := key ∈ key :: keys))
        by set_solver.
      by case_decide.
    + rewrite lookup_delete_ne by done.
      destruct (decide (k ∈ keys)).
      * by rewrite decide_True by set_solver.
      * by rewrite decide_False by set_solver.
Qed.

Lemma foldl_remove_key_flag keys config b :
  (foldl remove_key (config, b) keys).2
  = b || existsb (λ key, bool_decide (is_Some (config !! key))) keys.
Proof.
  revert config b. induction keys as [|key keys IH]; intros config b.
  - simpl. by rewrite orb_false_r.
  - simpl. unfold remove_key at 2. simpl.
    destruct (bool_decide (is_Some (config !! key))) eqn:Hk.
    + rewrite IH. simpl. by rewrite orb_true_r.
    + rewrite IH. done.
Qed.

Lemma remove_viewport_lookup config k :
  (remove_viewport config).1 !! k
  = if decide (k ∈ viewport_order) then None else config !! k.
Proof.
  unfold remove_viewport. rewrite foldl_remove_key_lookup.
  destruct (decide (k ∈ removed_keys)) as [Hin|Hout].
  - rewrite decide_True; [done|]. unfold removed_keys in Hin.
    unfold viewport_order. set_solver.
  - rewrite decide_False; [done|]. unfold removed_keys in Hout.
    unfold viewport_order. set_solver.
Qed.

Lemma remove_viewport_flag config :
  (remove_viewport config).2
  = existsb (λ key, bool_decide (is_Some (config !! key))) removed_keys.
Proof. unfold remove_viewport. by rewrite foldl_remove_key_flag. Qed.

Lemma remove_viewport_none config :
  (∀ k, k ∈ viewport_order → config !! k = None) →
  (remove_viewport config).2 = false.
Proof.
  intros Hnone. rewrite remove_viewport_flag.
  apply not_true_iff_false. intros (k & Hk & Hs)%existsb_exists.
  apply bool_decide_eq_true_1 in Hs. rewrite Hnone in Hs.
  - by destruct Hs.
  - apply list_elem_of_In in Hk. unfold removed_keys in Hk.
    unfold viewport_order. set_solver.
Qed.

Lemma remove_viewport_some config k :
  k ∈ viewport_order → is_Some (config !! k) →
  (remove_viewport config).2 = true.
Proof.
  intros Hin Hk. rewrite remove_viewport_flag.
  apply existsb_exists. exists k. split.
  - apply list_elem_of_In. unfold viewport_order in Hin.
    unfold removed_keys. set_solver.
  - by apply bool_decide_eq_true_2.
Qed.

Lemma remove_viewport_clean config :
  clean_config config → clean_config (remove_viewport config).1.
Proof.
  intros Hc k v. rewrite remove_viewport_lookup.
  case_decide; [done|]. apply Hc.
Qed.

Lemma serialize_empty : serialize ∅ = EmptyString.
Proof. reflexivity. Qed.

End removal_facts.

(** ** Applying and removing an override *)

Ltac run_monad :=
  unfold exec, eval, mbind, M_bind, mret, M_ret, log, path_exists, unlink,
    write_config_file, write_text, read_config_file;
  cbn [fst snd files logged].

Section remove_rom_config_facts.

Implicit Types (config : gmap string string) (w : world).

(** The folder after [remove_rom_config], case by case. *)
Lemma remove_rom_config_files rom_name delete_if_empty w :
  let path := config_path_of rom_name in
  let pruned := remove_viewport (config_of (files w) path) in
  files (exec (remove_rom_config rom_name delete_if_empty) w)
  = match files w !! path with
    | None => files w
    | Some _ =>
        if negb pruned.2 then files w
        else if is_empty_dict pruned.1 && delete_if_empty
             then delete path (files w)
             else <[path := serialize pruned.1]> (files w)
    end.
Proof.
  intros path pruned. unfold remove_rom_config. run_monad.
  fold path. destruct (files w !! path) as [content|] eqn:Hf.
  - rewrite bool_decide_eq_true_2 by eauto. cbn [negb].
    fold pruned. destruct pruned as [config removed_any].
    cbn [fst snd]. destruct removed_any; cbn [negb fst snd files]; [|done].
    destruct (is_empty_dict config), delete_if_empty; done.
  - rewrite bool_decide_eq_false_2 by (by intros [? ?]). done.
Qed.

End remove_rom_config_facts.

Section override_claims.

Implicit Types (config : gmap string string) (w : world).

(** C5. [update_rom_config] reads the record of the target (the empty
    record when the file is absent), sets the five viewport keys and
    writes the record back.  Afterwards the target file exists, and the
    record read back from it is the old record with the five keys set:
    width and height as given, x and y as given or 0 when [None], and
    [aspect_ratio_index] the constant 23, each between double quotes. *)
Theorem update_rom_config_read_back rom_name width height x y w :
  let path := config_path_of rom_name in
  let w' := exec (update_rom_config rom_name width height x y) w in
  let config' := config_of (files w') path in
  is_Some (files w' !! path)
  ∧ config_of (delete path (files w)) path = ∅
  ∧ config' = set_viewport (config_of (files w) path) width height x y
  ∧ config' !! "custom_viewport_width" = Some (quoted (str_int width))
  ∧ config' !! "custom_viewport_height" = Some (quoted (str_int height))
  ∧ config' !! "custom_viewport_x" = Some (quoted (str_int (default 0 x)))
  ∧ config' !! "custom_viewport_y" = Some (quoted (str_int (default 0 y)))
  ∧ config' !! "aspect_ratio_index" = Some (quoted "23").
Proof.
  intros path w' config'.
  assert (Hc : config'
               = set_viewport (config_of (files w) path) width height x y)
    by apply update_rom_config_config_of.
  split; [|split; [|split; [exact Hc|]]].
  - unfold w'. rewrite update_rom_config_files.
    fold path. rewrite lookup_insert_eq. eauto.
  - unfold config_of. by rewrite lookup_delete_eq.
  - rewrite Hc. unfold set_viewport, or_zero.
    repeat split; by simplify_map_eq.
Qed.

(** C2. Calling [update_rom_config] a second time with the same
    arguments leaves the folder, and so the text of the target file,
    exactly as the first call left it. *)
Theorem update_rom_config_idempotent rom_name width height x y w :
  let path := config_path_of rom_name in
  let once := exec (update_rom_config rom_name width height x y) w in
  let twice := exec (update_rom_config rom_name width height x y) once in
  is_Some (files once !! path)
  ∧ files twice !! path = files once !! path
  ∧ files twice = files once.
Proof.
  intros path once twice.
  assert (Hfiles : files twice = files once).
  { unfold twice. rewrite update_rom_config_files.
    unfold once at 1. rewrite update_rom_config_config_of.
    rewrite set_viewport_idem.
    unfold once. rewrite update_rom_config_files.
    apply insert_insert_eq. }
  split; [|by rewrite Hfiles].
  unfold once. rewrite update_rom_config_files.
  fold path. rewrite lookup_insert_eq. eauto.
Qed.

(** C3. A key that is not one of the five viewport keys keeps its value
    (or stays absent) through both operations: in the record that
    [update_rom_config] assigns to and in the record the removal loop of
    [remove_rom_config] prunes, and in the record read from the target
    file before and after either operation. *)
Theorem unrelated_keys_survive k :
  k ∉ viewport_order →
  (∀ config width height x y,
     set_viewport config width height x y !! k = config !! k)
  ∧ (∀ config, (remove_viewport config).1 !! k = config !! k)
  ∧ (∀ rom_name width height x y w,
       config_of (files (exec (update_rom_config rom_name width height x y)
                              w))
                 (config_path_of rom_name) !! k
       = config_of (files w) (config_path_of rom_name) !! k)
  ∧ (∀ rom_name delete_if_empty w,
       config_of (files (exec (remove_rom_config rom_name delete_if_empty)
                              w))
                 (config_path_of rom_name) !! k
       = config_of (files w) (config_path_of rom_name) !! k).
Proof.
  intros Hk.
  assert (Hrm : ∀ config, (remove_viewport config).1 !! k = config !! k).
  { intros config. rewrite remove_viewport_lookup. by rewrite decide_False. }
  split; [|split; [exact Hrm|split]].
  - intros. by apply set_viewport_other.
  - intros. rewrite update_rom_config_config_of.
    by apply set_viewport_other.
  - intros rom_name delete_if_empty w.
    rewrite remove_rom_config_files.
    set (path := config_path_of rom_name).
    destruct (files w !! path) as [content|] eqn:Hf; [|done].
    set (pruned := remove_viewport (config_of (files w) path)).
    destruct (negb pruned.2); [done|].
    destruct (is_empty_dict pruned.1 && delete_if_empty) eqn:He.
    + apply andb_true_iff in He as [He _].
      apply bool_decide_eq_true_1 in He.
      trans (pruned.1 !! k); [|apply Hrm]. rewrite He.
      unfold config_of. by rewrite lookup_delete_eq.
    + rewrite config_of_insert_serialize; [apply Hrm|].
      apply remove_viewport_clean, config_of_clean.
Qed.

End override_claims.

Section removal_claims.

Implicit Types (config : gmap string string) (w : world).

Lemma remove_viewport_only_viewport_keys config :
  config ≠ ∅ →
  (∀ k, is_Some (config !! k) → k ∈ viewport_order) →
  remove_viewport config = (∅, true).
Proof.
  intros Hne Honly.
  destruct (remove_viewport config) as [pruned removed_any] eqn:Hrm.
  f_equal.
  - apply map_eq. intros k.
    change pruned with (pruned, removed_any).1.
    rewrite <- Hrm, remove_viewport_lookup, lookup_empty.
    case_decide as Hk; [done|].
    destruct (config !! k) eqn:Hc; [|done].
    destruct Hk. apply Honly. by rewrite Hc.
  - change removed_any with (pruned, removed_any).2. rewrite <- Hrm.
    apply map_choose in Hne as (k & v & Hk).
    apply (remove_viewport_some config k); [|by rewrite Hk].
    apply Honly. by rewrite Hk.
Qed.

(** C7. When the record of the target holds viewport keys and nothing
    else, [remove_rom_config] with [delete_if_empty] set deletes the
    target file; without it the file is written with no line in it (it
    exists and is empty), and in both cases the caller receives
    [(True, True)]: settings were removed and the record is now empty. *)
Theorem remove_rom_config_only_viewport_keys rom_name w :
  config_of (files w) (config_path_of rom_name) ≠ ∅ →
  (∀ k, is_Some (config_of (files w) (config_path_of rom_name) !! k) →
        k ∈ viewport_order) →
  remove_rom_config rom_name true w
  = ((true, true),
     World (delete (config_path_of rom_name) (files w))
           (logged w ++ ["Removed config file for " +:+ rom_name
                         +:+ ".zip (was empty after removing overrides)"]))
  ∧ remove_rom_config rom_name false w
    = ((true, true),
       World (<[config_path_of rom_name := EmptyString]> (files w))
             (logged w ++ ["Config for " +:+ rom_name
                           +:+ ".zip is now empty after removing overrides"])).
Proof.
  intros Hne Honly.
  pose proof (remove_viewport_only_viewport_keys _ Hne Honly) as Hrm.
  assert (Hex : is_Some (files w !! config_path_of rom_name)).
  { unfold config_of in Hne.
    destruct (files w !! config_path_of rom_name); [eauto|done]. }
  split; unfold remove_rom_config; run_monad;
    rewrite (bool_decide_eq_true_2 _ Hex); cbn [negb]; rewrite Hrm;
    cbn [negb]; unfold is_empty_dict;
    rewrite (bool_decide_eq_true_2 (∅ = ∅)) by done; done.
Qed.

(** C8. When the record of the target holds none of the five viewport
    keys, which covers the target that does not exist,
    [remove_rom_config] returns [(False, False)] and leaves the folder as
    it was.  The line it logs tells the two cases apart: one text for the
    missing file, a different one for the file without viewport keys. *)
Theorem remove_rom_config_no_action rom_name delete_if_empty w :
  (∀ k, k ∈ viewport_order →
        config_of (files w) (config_path_of rom_name) !! k = None) →
  remove_rom_config rom_name delete_if_empty w
  = ((false, false),
     World (files w)
           (logged w ++
              [if bool_decide (is_Some (files w !! config_path_of rom_name))
               then "No viewport overrides found in config for "
                    +:+ rom_name +:+ ".zip"
               else "No config file found for " +:+ rom_name +:+ ".zip"]))
  ∧ "No config file found for " +:+ rom_name +:+ ".zip"
    ≠ "No viewport overrides found in config for " +:+ rom_name +:+ ".zip".
Proof.
  intros Hnone. split; [|by intros [=]].
  pose proof (remove_viewport_none _ Hnone) as Hflag.
  unfold remove_rom_config. run_monad.
  destruct (bool_decide (is_Some (files w !! config_path_of rom_name)));
    cbn [negb]; [|done].
  destruct (remove_viewport _) as [pruned removed_any].
  cbn [snd] in Hflag. subst removed_any. done.
Qed.

End removal_claims.

(** ** The layout of a written file *)

Section layout.

Implicit Types (config : gmap string string) (w : world).

Global Instance item_le_total : Total item_le.
Proof.
  intros [k1 v1] [k2 v2]. unfold item_le, item_leb. simpl.
  destruct (decide (k1 = k2)) as [->|Hne].
  - rewrite !bool_decide_eq_true_2 by done.
    apply (String.le_total v1 v2).
  - rewrite !bool_decide_eq_false_2 by done.
    apply (String.le_total k1 k2).
Qed.

Global Instance item_le_trans : Transitive item_le.
Proof.
  intros [k1 v1] [k2 v2] [k3 v3]. unfold item_le, item_leb. simpl.
  repeat case_bool_decide; subst; try done; intros H12 H23.
  - by trans v2.
  - destruct H. by apply (anti_symm String.le).
  - by trans k2.
Qed.

Lemma StronglySorted_filter {A} (R : relation A) (P : A → Prop)
    `{∀ x, Decision (P x)} (l : list A) :
  StronglySorted R l → StronglySorted R (filter P l).
Proof.
  induction 1 as [|x l Hl IH Hx]; [constructor|].
  rewrite filter_cons. case_decide; [|done].
  constructor; [done|].
  apply Forall_forall. intros y [_ Hy]%list_elem_of_filter.
  by apply (proj1 (Forall_forall _ _) Hx).
Qed.

Lemma StronglySorted_keys (l : list (string * string)) :
  StronglySorted item_le l → NoDup l.*1 → StronglySorted str_lt l.*1.
Proof.
  induction 1 as [|[k v] l Hl IH Hx]; [constructor|].
  rewrite fmap_cons. intros [Hk Hnd]%NoDup_cons.
  constructor; [auto|].
  apply Forall_fmap, Forall_forall. intros [k' v'] Hin.
  pose proof (proj1 (Forall_forall _ _) Hx _ Hin) as Hle.
  assert (Hne : k ≠ k').
  { intros ->. apply Hk. apply list_elem_of_fmap. by exists (k', v'). }
  unfold item_le, item_leb in Hle. simpl in *.
  rewrite bool_decide_eq_false_2 in Hle by done. by split.
Qed.

Lemma other_items_sorted config :
  StronglySorted str_lt (other_items config).*1.
Proof.
  apply StronglySorted_keys.
  - apply StronglySorted_filter, StronglySorted_merge_sort; apply _.
  - pose proof (written_items_Permutation config) as Hperm.
    assert (Hnd : NoDup (viewport_items config ++ other_items config).*1).
    { rewrite Hperm. apply NoDup_fst_map_to_list. }
    rewrite fmap_app in Hnd. by apply NoDup_app in Hnd as (_ & _ & ?).
Qed.

(** C6. The text [write_config_file] leaves in the file is a sequence of
    lines [key = value], LF-terminated, with one space on each side of
    the equals sign: first the viewport keys the record holds, in the
    order [aspect_ratio_index], [custom_viewport_x], [custom_viewport_y],
    [custom_viewport_width], [custom_viewport_height]; then every other
    key of the record, each once, in increasing order of the keys.  Every
    line carries the value the record gives its key. *)
Theorem write_config_file_layout config_path config w :
  ∃ first rest : list (string * string),
    files (exec (write_config_file config_path config) w) !! config_path
    = Some (join ((λ p, p.1 +:+ " = " +:+ p.2 +:+ String LF EmptyString)
                    <$> (first ++ rest)))
    ∧ first.*1 = filter (λ k, is_Some (config !! k)) viewport_order
    ∧ (∀ k v, (k, v) ∈ first ++ rest → config !! k = Some v)
    ∧ (∀ k, k ∈ rest.*1 ↔ is_Some (config !! k) ∧ k ∉ viewport_order)
    ∧ StronglySorted str_lt rest.*1.
Proof.
  exists (viewport_items config), (other_items config).
  split; [|split; [|split; [|split]]].
  - run_monad. rewrite lookup_insert_eq. f_equal. apply serialize_items.
  - apply viewport_items_keys.
  - intros k v [Hin|Hin]%elem_of_app.
    + by apply elem_of_viewport_items in Hin as [_ ?].
    + by apply elem_of_other_items in Hin as [? _].
  - intros k. rewrite list_elem_of_fmap. split.
    + intros ([k' v] & -> & [Hv Hout]%elem_of_other_items). simpl.
      by rewrite Hv.
    + intros [[v Hv] Hout]. exists (k, v). split; [done|].
      by apply elem_of_other_items.
  - apply other_items_sorted.
Qed.

End layout.

(** ** Processing a folder of ROMs *)

Section process_roms_facts.

Implicit Types (config : gmap string string) (w : world) (mgr : manager).

Lemma exec_bind {A B} (m : M A) (k : A → M B) w :
  exec (m ≫= k) w = exec (k (eval m w)) (exec m w).
Proof. unfold exec, eval, mbind, M_bind. by destruct (m w). Qed.

Lemma string_app_length s t :
  String.length (s +:+ t) = (String.length s + String.length t)%nat.
Proof.
  induction s as [|c s IH]; [done|]. rewrite append_cons. simpl.
  by rewrite IH.
Qed.

Lemma string_app_inj_r s1 s2 t : s1 +:+ t = s2 +:+ t → s1 = s2.
Proof.
  revert s2. induction s1 as [|c s1 IH]; intros [|d s2] Heq.
  - done.
  - apply (f_equal String.length) in Heq.
    rewrite append_nil_l, string_app_length in Heq. simpl in Heq. lia.
  - apply (f_equal String.length) in Heq.
    rewrite append_nil_l, string_app_length in Heq. simpl in Heq. lia.
  - rewrite !append_cons in Heq. injection Heq as -> Heq.
    f_equal. by apply IH.
Qed.

Lemma config_path_of_inj a b : config_path_of a = config_path_of b → a = b.
Proof. apply string_app_inj_r. Qed.

Lemma process_step_files mgr counts rom_file w :
  files (exec (process_step mgr counts rom_file) w)
  = match game_resolutions mgr !! stem rom_file with
    | Some dat =>
        <[config_path_of (stem rom_file) :=
            serialize
              (set_viewport
                 (config_of (files w) (config_path_of (stem rom_file)))
                 (effective mgr dat).1 (effective mgr dat).2
                 (override_x mgr) (override_y mgr))]> (files w)
    | None => files w
    end.
Proof.
  unfold process_step, effective.
  destruct (game_resolutions mgr !! stem rom_file) as [[dw dh]|]; [|done].
  destruct (override_width mgr), (override_height mgr); done.
Qed.

(** The record of one ROM after one turn of the loop. *)
Lemma process_step_config_of mgr counts rom_file w rom_name dat :
  game_resolutions mgr !! rom_name = Some dat →
  config_of (files (exec (process_step mgr counts rom_file) w))
            (config_path_of rom_name)
  = if decide (stem rom_file = rom_name)
    then set_viewport (config_of (files w) (config_path_of rom_name))
           (effective mgr dat).1 (effective mgr dat).2
           (override_x mgr) (override_y mgr)
    else config_of (files w) (config_path_of rom_name).
Proof.
  intros Hdat. rewrite process_step_files.
  destruct (decide (stem rom_file = rom_name)) as [->|Hne].
  - rewrite Hdat.
    apply config_of_insert_serialize, set_viewport_clean, config_of_clean.
  - destruct (game_resolutions mgr !! stem rom_file); [|done].
    unfold config_of. rewrite lookup_insert_ne; [done|].
    intros Heq. by apply config_path_of_inj in Heq.
Qed.

Lemma process_loop_config_of mgr rom_files counts w rom_name dat :
  game_resolutions mgr !! rom_name = Some dat →
  config_of (files (exec (for_each (process_step mgr) counts rom_files) w))
            (config_path_of rom_name)
  = if decide (rom_name ∈ stem <$> rom_files)
    then set_viewport (config_of (files w) (config_path_of rom_name))
           (effective mgr dat).1 (effective mgr dat).2
           (override_x mgr) (override_y mgr)
    else config_of (files w) (config_path_of rom_name).
Proof.
  intros Hdat. revert counts w.
  induction rom_files as [|rom_file rom_files IH]; intros counts w.
  - rewrite decide_False by (rewrite fmap_nil; apply not_elem_of_nil).
    done.
  - cbn [for_each]. rewrite exec_bind, IH.
    rewrite (process_step_config_of _ _ _ _ _ _ Hdat), fmap_cons.
    destruct (decide (stem rom_file = rom_name)) as [Heq|Hne].
    + rewrite (decide_True (P := rom_name ∈ _ :: _))
        by (rewrite Heq; apply list_elem_of_here).
      case_decide; [apply set_viewport_idem|done].
    + destruct (decide (rom_name ∈ stem <$> rom_files)) as [Hin|Hout].
      * by rewrite decide_True by by apply list_elem_of_further.
      * rewrite decide_False; [done|].
        by intros [?|?]%elem_of_cons.
Qed.

Lemma process_roms_files mgr folder names w :
  rom_folder mgr = Some folder →
  files (exec (process_roms mgr (Some names)) w)
  = files (exec (for_each (process_step mgr) (0, 0)
                   (filter (λ n, endswith ".zip" n) names))
                (World (files w)
                   (logged w ++
                      ["Found "
                       +:+ str_int (Z.of_nat (length
                             (filter (λ n, endswith ".zip" n) names)))
                       +:+ " ROM files in " +:+ folder]))).
Proof.
  intros Hfolder. unfold process_roms, get_rom_files. rewrite Hfolder.
  unfold exec, mbind, M_bind, mret, M_ret, log. cbn [fst snd files logged].
  by destruct (for_each _ _ _ _).
Qed.

End process_roms_facts.

Section process_roms_claims.

Implicit Types (w : world) (mgr : manager).

(** C4. For a ROM file of the folder whose name has an entry in the
    catalog, the record read from its target after [process_roms] has
    the override width where the manager has one and the catalog width
    otherwise, and the same, independently, for the height; x and y are
    the override values, 0 where the manager has none, whatever the
    catalog says; the aspect-ratio index is 23. *)
Theorem process_roms_precedence mgr folder names rom_file
    dat_width dat_height w :
  rom_folder mgr = Some folder →
  rom_file ∈ names →
  endswith ".zip" rom_file = true →
  game_resolutions mgr !! stem rom_file = Some (dat_width, dat_height) →
  let config' :=
    config_of (files (exec (process_roms mgr (Some names)) w))
              (config_path_of (stem rom_file)) in
  config' !! "custom_viewport_width"
  = Some (quoted (str_int (match override_width mgr with
                           | Some width => width
                           | None => dat_width
                           end)))
  ∧ config' !! "custom_viewport_height"
    = Some (quoted (str_int (match override_height mgr with
                             | Some height => height
                             | None => dat_height
                             end)))
  ∧ config' !! "custom_viewport_x"
    = Some (quoted (str_int (match override_x mgr with
                             | Some x => x
                             | None => 0
                             end)))
  ∧ config' !! "custom_viewport_y"
    = Some (quoted (str_int (match override_y mgr with
                             | Some y => y
                             | None => 0
                             end)))
  ∧ config' !! "aspect_ratio_index" = Some (quoted "23").
Proof.
  intros Hfolder Hin Hzip Hdat config'. unfold config'.
  rewrite (process_roms_files _ _ _ _ Hfolder).
  rewrite (process_loop_config_of _ _ _ _ _ _ Hdat).
  rewrite decide_True.
  - unfold set_viewport, effective, or_zero, default. cbn [fst snd].
    repeat split; by simplify_map_eq.
  - apply list_elem_of_fmap. exists rom_file. split; [done|].
    apply list_elem_of_filter. split; [|done]. by rewrite Hzip.
Qed.

End process_roms_claims.

(** ** The catalog parser *)

Section parse_dat_file_facts.

Implicit Types (w : world) (mgr : manager) (game : element).

Lemma eval_bind {A B} (m : M A) (k : A → M B) w :
  eval (m ≫= k) w = eval (k (eval m w)) (exec m w).
Proof. unfold exec, eval, mbind, M_bind. by destruct (m w). Qed.

(** An element without a name, or without both screen values, is passed
    over in silence. *)
Lemma scan_game_silent mgr game w :
  truthy (get game "name") = false ∨ has_resolution_text game = false →
  scan_game mgr game w = (mgr, w).
Proof.
  unfold scan_game, has_resolution_text.
  destruct (truthy (get game "name")); cbn [negb]; [|done].
  intros [?| ->]; done.
Qed.

(** An element with both screen values, one of which is not an integer,
    logs the warning and stores nothing. *)
Lemma scan_game_invalid mgr game game_name w :
  get game "name" = Some game_name →
  game_name ≠ EmptyString →
  has_resolution_text game = true →
  valid_resolution game = false →
  scan_game mgr game w
  = (mgr,
     World (files w)
       (logged w ++
          [invalid_resolution_warning game_name
             (scr_width (lookup_screen game))
             (scr_height (lookup_screen game))])).
Proof.
  intros Hname Hne Htext Hinvalid. unfold scan_game.
  unfold valid_resolution in Hinvalid. rewrite Htext in Hinvalid.
  unfold has_resolution_text in Htext.
  rewrite Hname, Htext. cbn [truthy default].
  rewrite bool_decide_eq_false_2 by done. cbn [negb].
  destruct (py_int (default EmptyString (scr_width (lookup_screen game))))
    as [wd|]; [|done].
  destruct (py_int (default EmptyString (scr_height (lookup_screen game))))
    as [ht|]; [|done].
  rewrite !bool_decide_eq_true_2 in Hinvalid by eauto. done.
Qed.

(** Only an element with a valid resolution changes the maps, and only
    under its own name; the folder is never touched and the log only
    grows. *)
Lemma scan_game_effect mgr game w :
  ∃ extra,
    exec (scan_game mgr game) w = World (files w) (logged w ++ extra)
    ∧ ∀ n, (get game "name" ≠ Some n ∨ valid_resolution game = false) →
           game_resolutions (eval (scan_game mgr game) w) !! n
           = game_resolutions mgr !! n
           ∧ game_info (eval (scan_game mgr game) w) !! n
             = game_info mgr !! n.
Proof.
  unfold scan_game, valid_resolution, has_resolution_text.
  destruct (truthy (get game "name")) eqn:Hn; cbn [negb].
  2:{ exists []. rewrite app_nil_r. by destruct w. }
  destruct (truthy (scr_width (lookup_screen game))
            && truthy (scr_height (lookup_screen game))); cbn [andb].
  2:{ exists []. rewrite app_nil_r. by destruct w. }
  destruct (py_int (default EmptyString (scr_width (lookup_screen game))))
    as [wd|].
  2:{ eexists [_]. by split. }
  destruct (py_int (default EmptyString (scr_height (lookup_screen game))))
    as [ht|].
  2:{ eexists [_]. by split. }
  exists []. rewrite app_nil_r. split; [by destruct w|].
  intros n [Hne|Hv].
  - destruct (get game "name") as [game_name|] eqn:Hg; [|done].
    unfold eval, mret, M_ret. cbn.
    rewrite !lookup_insert_ne; [done|congruence..].
  - rewrite !bool_decide_eq_true_2 in Hv by eauto. done.
Qed.

Lemma scan_loop_effect games mgr w :
  ∃ extra,
    exec (for_each scan_game mgr games) w
    = World (files w) (logged w ++ extra)
    ∧ ∀ n, (∀ g, g ∈ games → get g "name" = Some n →
                 valid_resolution g = false) →
           game_resolutions (eval (for_each scan_game mgr games) w) !! n
           = game_resolutions mgr !! n
           ∧ game_info (eval (for_each scan_game mgr games) w) !! n
             = game_info mgr !! n.
Proof.
  revert mgr w. induction games as [|g games IH]; intros mgr w.
  - exists []. rewrite app_nil_r. split; [by destruct w|done].
  - cbn [for_each]. rewrite exec_bind, eval_bind.
    destruct (scan_game_effect mgr g w) as (extra1 & Hw1 & Hmaps1).
    destruct (IH (eval (scan_game mgr g) w) (exec (scan_game mgr g) w))
      as (extra2 & Hw2 & Hmaps2).
    exists (extra1 ++ extra2). split.
    + rewrite Hw2, Hw1. cbn. by rewrite app_assoc.
    + intros n Hn.
      destruct (Hmaps2 n) as [-> ->].
      { intros g' Hg'. apply Hn. by apply list_elem_of_further. }
      apply Hmaps1. destruct (decide (get g "name" = Some n)) as [Hg|Hg].
      * right. apply Hn; [apply list_elem_of_here|done].
      * by left.
Qed.

Lemma scan_loop_warning games mgr w game game_name :
  game ∈ games →
  get game "name" = Some game_name →
  game_name ≠ EmptyString →
  has_resolution_text game = true →
  valid_resolution game = false →
  invalid_resolution_warning game_name
    (scr_width (lookup_screen game)) (scr_height (lookup_screen game))
  ∈ logged (exec (for_each scan_game mgr games) w).
Proof.
  intros Hin Hname Hne Htext Hinvalid. revert mgr w.
  induction Hin as [game games|game g games Hin IH]; intros mgr w.
  - cbn [for_each]. rewrite exec_bind.
    destruct (scan_loop_effect games (eval (scan_game mgr game) w)
                (exec (scan_game mgr game) w)) as (extra & -> & _).
    cbn [logged]. apply elem_of_app. left. unfold exec.
    rewrite (scan_game_invalid _ _ _ _ Hname Hne Htext Hinvalid).
    cbn [logged snd]. apply elem_of_app. right. apply list_elem_of_here.
  - cbn [for_each]. rewrite exec_bind. by apply IH.
Qed.

End parse_dat_file_facts.

Section parse_dat_file_claims.

Implicit Types (w : world) (mgr : manager) (game : element).

Lemma parse_dat_file_tree mgr path root w :
  dat_file mgr = Some path →
  let w1 := World (files w) (logged w ++ ["Parsing DAT file: " +:+ path]) in
  let games := findall_desc "game" root in
  eval (parse_dat_file mgr (ET_Tree root)) w
  = inr (eval (for_each scan_game mgr games) w1)
  ∧ ∃ extra,
      logged (exec (parse_dat_file mgr (ET_Tree root)) w)
      = logged (exec (for_each scan_game mgr games) w1) ++ extra.
Proof.
  intros Hdat w1 games. unfold parse_dat_file. rewrite Hdat.
  unfold exec, eval, mbind, M_bind, mret, M_ret, log.
  cbn [fst snd files logged]. fold w1. fold games.
  destruct (for_each scan_game mgr games w1) as [mgr' w2].
  cbn [fst snd].
  destruct (bool_decide _); [destruct (bool_decide _)|];
    cbn [fst snd files logged]; (split; [done|]);
    eexists; rewrite <- ?app_assoc; reflexivity.
Qed.

(** C9 (amended). Take a [game] element with a non-empty name for which
    the lookup finds a width and a height, both non-empty, one of which
    is not an integer.  Its turn of the loop logs one warning that
    names the game and shows the two values, and leaves both maps as
    they were.  The parse of the whole catalog returns normally, its log
    holds that warning, and when no element of that name has a valid
    resolution the maps are, at that name, as before the parse: no
    partial and no zero entry. *)
Theorem parse_dat_file_invalid_resolution
    mgr path root game game_name width_text height_text w :
  dat_file mgr = Some path →
  game ∈ findall_desc "game" root →
  get game "name" = Some game_name →
  game_name ≠ EmptyString →
  scr_width (lookup_screen game) = Some width_text →
  scr_height (lookup_screen game) = Some height_text →
  width_text ≠ EmptyString →
  height_text ≠ EmptyString →
  py_int width_text = None ∨ py_int height_text = None →
  let warning :=
    "Warning: Invalid resolution for " +:+ game_name +:+ ": "
    +:+ width_text +:+ "x" +:+ height_text in
  (∀ mgr1 w1,
     scan_game mgr1 game w1
     = (mgr1, World (files w1) (logged w1 ++ [warning])))
  ∧ warning ∈ logged (exec (parse_dat_file mgr (ET_Tree root)) w)
  ∧ ∃ mgr',
      eval (parse_dat_file mgr (ET_Tree root)) w = inr mgr'
      ∧ ((∀ g, g ∈ findall_desc "game" root →
               get g "name" = Some game_name →
               valid_resolution g = false) →
         game_resolutions mgr' !! game_name
         = game_resolutions mgr !! game_name
         ∧ game_info mgr' !! game_name = game_info mgr !! game_name).
Proof.
  intros Hdat Hin Hname Hne Hw Hh Hwne Hhne Hbad warning.
  assert (Htext : has_resolution_text game = true).
  { unfold has_resolution_text. rewrite Hw, Hh. cbn [truthy].
    by rewrite !bool_decide_eq_false_2. }
  assert (Hinvalid : valid_resolution game = false).
  { unfold valid_resolution. rewrite Htext, Hw, Hh.
    cbn [default from_option id andb].
    destruct Hbad as [-> | ->].
    - rewrite (bool_decide_eq_false_2 (is_Some None)); [done|].
      by intros [? ?].
    - rewrite (bool_decide_eq_false_2 (is_Some None)); [|by intros [? ?]].
      apply andb_false_r. }
  assert (Hwarn : invalid_resolution_warning game_name
                    (scr_width (lookup_screen game))
                    (scr_height (lookup_screen game)) = warning).
  { by rewrite Hw, Hh. }
  destruct (parse_dat_file_tree mgr path root w Hdat) as (Heval & extra & Hlog).
  split; [|split].
  - intros mgr1 w1. rewrite <- Hwarn. by apply scan_game_invalid.
  - rewrite Hlog, <- Hwarn. apply elem_of_app. left.
    by apply scan_loop_warning.
  - eexists. split; [exact Heval|]. intros Hall.
    edestruct scan_loop_effect as (? & _ & Hmaps). by apply Hmaps.
Qed.

End parse_dat_file_claims.

(** ** The claims on sample inputs *)

Section samples.

Import Sample.

Lemma set_viewport_empty_keys k width height x y :
  is_Some (set_viewport ∅ width height x y !! k) → k ∈ viewport_order.
Proof.
  unfold set_viewport, viewport_order. rewrite !lookup_insert.
  repeat case_decide; subst; rewrite ?lookup_empty;
    first [by intros [? ?] | intros _; set_solver].
Qed.

Lemma applied_world_config :
  config_of (files applied_world) (config_path_of "pacman")
  = set_viewport ∅ 320 240 None None.
Proof. unfold applied_world. by rewrite update_rom_config_config_of. Qed.

Lemma unrelated_keys_survive_witness :
  ("video_driver" ∉ viewport_order)
  ∧ (config_of
       (files (exec (update_rom_config "pacman" 320 240 None None)
                    plain_world))
       (config_path_of "pacman")) !! "video_driver"
    = Some "gl".
Proof.
  assert (Hk : "video_driver" ∉ viewport_order).
  { apply (bool_decide_unpack _). exact I. }
  split; [exact Hk|].
  etrans; [apply (unrelated_keys_survive "video_driver" Hk)|].
  reflexivity.
Defined.

Lemma process_roms_precedence_witness :
  let catalog_entry : gmap string (Z * Z) := {[ "pacman" := (320, 240) ]} in
  let target mgr :=
    config_of (files (exec (process_roms mgr (Some ["pacman.zip"]))
                           empty_world))
              (config_path_of (stem "pacman.zip")) in
  let overridden :=
    target (mgr (Some 1920) (Some 1080) None None catalog_entry) in
  let catalog_only := target (mgr None None None None catalog_entry) in
  overridden !! "custom_viewport_width" = Some (quoted "1920")
  ∧ overridden !! "custom_viewport_height" = Some (quoted "1080")
  ∧ overridden !! "custom_viewport_x" = Some (quoted "0")
  ∧ overridden !! "custom_viewport_y" = Some (quoted "0")
  ∧ catalog_only !! "custom_viewport_width" = Some (quoted "320")
  ∧ catalog_only !! "custom_viewport_height" = Some (quoted "240").
Proof.
  intros catalog_entry target overridden catalog_only.
  pose proof (process_roms_precedence
                (mgr (Some 1920) (Some 1080) None None catalog_entry)
                "roms" ["pacman.zip"] "pacman.zip" 320 240 empty_world
                eq_refl (list_elem_of_here _ _) eq_refl eq_refl)
    as (Hw & Hh & Hx & Hy & _).
  pose proof (process_roms_precedence
                (mgr None None None None catalog_entry)
                "roms" ["pacman.zip"] "pacman.zip" 320 240 empty_world
                eq_refl (list_elem_of_here _ _) eq_refl eq_refl)
    as (Hw' & Hh' & _).
  repeat split; assumption.
Defined.

Lemma applied_world_nonempty :
  config_of (files applied_world) (config_path_of "pacman") ≠ ∅.
Proof.
  rewrite applied_world_config. intros Hempty.
  apply (f_equal (lookup "aspect_ratio_index")) in Hempty.
  unfold set_viewport in Hempty.
  rewrite lookup_insert_eq, lookup_empty in Hempty. discriminate.
Qed.

Lemma applied_world_only_viewport_keys k :
  is_Some (config_of (files applied_world) (config_path_of "pacman") !! k) →
  k ∈ viewport_order.
Proof. rewrite applied_world_config. apply set_viewport_empty_keys. Qed.

Lemma remove_rom_config_only_viewport_keys_witness :
  remove_rom_config "pacman" true applied_world
  = ((true, true),
     World (delete (config_path_of "pacman") (files applied_world))
           (logged applied_world
            ++ ["Removed config file for " +:+ "pacman"
                +:+ ".zip (was empty after removing overrides)"]))
  ∧ remove_rom_config "pacman" false applied_world
    = ((true, true),
       World (<[config_path_of "pacman" := EmptyString]>
                (files applied_world))
             (logged applied_world
              ++ ["Config for " +:+ "pacman"
                  +:+ ".zip is now empty after removing overrides"])).
Proof.
  exact (remove_rom_config_only_viewport_keys "pacman" applied_world
           applied_world_nonempty applied_world_only_viewport_keys).
Defined.

Lemma remove_rom_config_no_action_witness :
  remove_rom_config "pacman" true plain_world
  = ((false, false),
     World (files plain_world)
           ["No viewport overrides found in config for pacman.zip"])
  ∧ remove_rom_config "galaga" true plain_world
    = ((false, false),
       World (files plain_world) ["No config file found for galaga.zip"]).
Proof.
  split.
  - refine (proj1 (remove_rom_config_no_action "pacman" true plain_world _)).
    intros k Hk.
    repeat (apply elem_of_cons in Hk as [->|Hk]; [reflexivity|]).
    by apply elem_of_nil in Hk.
  - refine (proj1 (remove_rom_config_no_action "galaga" true plain_world _)).
    intros k _. reflexivity.
Defined.

Lemma parse_dat_file_invalid_resolution_witness :
  "Warning: Invalid resolution for badgame: abcx240"
  ∈ logged (exec (parse_dat_file (mgr None None None None ∅)
                    (ET_Tree (catalog [pacman; bad_width])))
                 empty_world).
Proof.
  refine (proj1 (proj2 (parse_dat_file_invalid_resolution
                          (mgr None None None None ∅) "fbneo.dat"
                          (catalog [pacman; bad_width]) bad_width
                          "badgame" "abc" "240" empty_world
                          eq_refl _ eq_refl _ eq_refl eq_refl _ _ _)));
    try discriminate.
  - apply list_elem_of_further, list_elem_of_here.
  - left. reflexivity.
Defined.

(** C9, as stated, fails.  The element [halfgame] has a width attribute
    that is no integer and no height attribute: [parse_dat_file] stores
    nothing for it, and logs nothing about it either. *)
Lemma parse_dat_file_no_warning_without_height :
  let root := catalog [pacman; no_height] in
  let w := exec (parse_dat_file (mgr None None None None ∅) (ET_Tree root))
                empty_world in
  findall_desc "game" root = [pacman; no_height]
  ∧ get no_height "name" = Some "halfgame"
  ∧ scr_width (lookup_screen no_height) = Some "abc"
  ∧ py_int "abc" = None
  ∧ logged w = ["Parsing DAT file: fbneo.dat";
                "Found 1 games with resolution data"]
  ∧ ¬ ∃ line, line ∈ logged w ∧ String.prefix "Warning" line = true.
Proof.
  intros root w. repeat split.
  intros (line & Hin & Hwarn).
  change (logged w) with ["Parsing DAT file: fbneo.dat";
                          "Found 1 games with resolution data"] in Hin.
  repeat (apply elem_of_cons in Hin as [->|Hin]; [discriminate|]).
  by apply elem_of_nil in Hin.
Qed.

(** C1 on the code: a target written by [update_rom_config] holds the
    five viewport keys; [remove_all_overrides] counts it as removed but
    rewrites it with [custom_viewport_x] and [custom_viewport_y] still in
    it.  A target that holds only [custom_viewport_x] is counted as
    skipped. *)
Lemma remove_all_overrides_keeps_position :
  let after := remove_all_overrides (mgr None None None None ∅)
                                    applied_world in
  let only_x :=
    World {[ "pacman.zip.cfg" :=
               format_entry "custom_viewport_x" (quoted "5") ]} [] in
  config_of (files applied_world) "pacman.zip.cfg"
  = set_viewport ∅ 320 240 None None
  ∧ after.1 = (1, 0)
  ∧ files after.2 !! "pacman.zip.cfg"
    = Some (format_entry "custom_viewport_x" (quoted "0")
            +:+ format_entry "custom_viewport_y" (quoted "0"))
  ∧ (remove_all_overrides (mgr None None None None ∅) only_x).1 = (0, 1)
  ∧ files (remove_all_overrides (mgr None None None None ∅) only_x).2
    = files only_x.
Proof. intros after only_x. repeat split; by vm_compute. Qed.

End samples.

(** ** Writing, then reading *)

Section round_trip_claims.

Import Sample.

(** C10. Take a record whose keys are stripped, hold no equals sign and
    no line terminator and do not start with [#], and whose values are
    stripped and hold no line terminator (a line terminator being what
    text-mode reading ends a line at: LF or CR).  Then
    [read_config_file] on the file [write_config_file] has just written
    returns that record. *)
Theorem write_then_read_identity config_path config w :
  (∀ k v, config !! k = Some v →
     (strip k = k ∧ contains EQUALS k = false ∧ startswith HASH k = false
      ∧ all_chars (λ c, negb (is_newline c)) k = true)
     ∧ (strip v = v ∧ all_chars (λ c, negb (is_newline c)) v = true)) →
  eval (read_config_file config_path)
       (exec (write_config_file config_path config) w)
  = config.
Proof.
  intros Hclean. run_monad.
  by apply config_of_insert_serialize.
Qed.

Lemma write_then_read_identity_witness :
  eval (read_config_file "pacman.zip.cfg")
       (exec (write_config_file "pacman.zip.cfg"
                {[ "video_driver" := "gl" ]}) empty_world)
  = {[ "video_driver" := "gl" ]}.
Proof.
  apply write_then_read_identity.
  intros k v [<- <-]%lookup_singleton_Some. by repeat split.
Defined.

(** Where the hypothesis on line terminators bites: a carriage return
    inside a value is written as it is and read back as the end of the
    line. *)
Lemma carriage_return_ends_the_value :
  let value := "a" +:+ String CR "b" in
  strip value = value
  ∧ all_chars (λ c, negb (Ascii.eqb c LF)) value = true
  ∧ parse_config (serialize {[ "k" := value ]}) = {[ "k" := "a" ]}.
Proof. by vm_compute. Qed.

(** C10, as stated, fails.  The claim keeps the newline out of keys and
    values, and nothing else.  A value with a carriage return in it meets
    every condition of the claim, and the file written for it is read
    back with the value cut at the carriage return. *)
Lemma write_then_read_loses_carriage_return :
  let value := "a" +:+ String CR "b" in
  let config : gmap string string := {[ "k" := value ]} in
  let read_back :=
    eval (read_config_file "pacman.zip.cfg")
         (exec (write_config_file "pacman.zip.cfg" config) empty_world) in
  (∀ k v, config !! k = Some v →
     (strip k = k ∧ contains EQUALS k = false ∧ startswith HASH k = false
      ∧ all_chars (λ c, negb (Ascii.eqb c LF)) k = true)
     ∧ (strip v = v ∧ all_chars (λ c, negb (Ascii.eqb c LF)) v = true))
  ∧ read_back = {[ "k" := "a" ]}
  ∧ read_back ≠ config.
Proof.
  intros value config read_back.
  assert (Hread : read_back = {[ "k" := "a" ]}) by (by vm_compute).
  split; [|split; [exact Hread|]].
  - intros k v [<- <-]%lookup_singleton_Some. by vm_compute.
  - rewrite Hread. intros Heq.
    apply (f_equal (lookup "k")) in Heq. unfold config in Heq.
    rewrite !lookup_singleton_eq in Heq. discriminate Heq.
Qed.

End round_trip_claims.

(** * Further properties *)

(** ** Removing an override, continued *)

Section remove_more.

Implicit Types (config : gmap string string) (w : world).

(** The value [remove_rom_config] returns, case by case. *)
Lemma remove_rom_config_eval rom_name delete_if_empty w :
  let path := config_path_of rom_name in
  let pruned := remove_viewport (config_of (files w) path) in
  eval (remove_rom_config rom_name delete_if_empty) w
  = match files w !! path with
    | None => (false, false)
    | Some _ =>
        if negb pruned.2 then (false, false)
        else (true, is_empty_dict pruned.1)
    end.
Proof.
  intros path pruned. unfold remove_rom_config. run_monad.
  fold path. destruct (files w !! path) as [content|] eqn:Hf.
  - rewrite bool_decide_eq_true_2 by eauto. cbn [negb].
    fold pruned. destruct pruned as [config removed_any].
    cbn [fst snd]. destruct removed_any; cbn [negb fst snd]; [|done].
    destruct (is_empty_dict config), delete_if_empty; done.
  - rewrite bool_decide_eq_false_2 by (by intros [? ?]). done.
Qed.

Lemma remove_rom_config_other_files rom_name delete_if_empty w p :
  p ≠ config_path_of rom_name →
  files (exec (remove_rom_config rom_name delete_if_empty) w) !! p
  = files w !! p.
Proof.
  intros Hp. rewrite remove_rom_config_files.
  destruct (files w !! config_path_of rom_name); [|done].
  destruct (negb _); [done|].
  destruct (_ && _).
  - by rewrite lookup_delete_ne.
  - by rewrite lookup_insert_ne.
Qed.

(** The record of the target after [remove_rom_config]. *)
Lemma remove_rom_config_config_of rom_name delete_if_empty w :
  config_of (files (exec (remove_rom_config rom_name delete_if_empty) w))
            (config_path_of rom_name)
  = (remove_viewport (config_of (files w) (config_path_of rom_name))).1.
Proof.
  rewrite remove_rom_config_files.
  set (path := config_path_of rom_name).
  set (pruned := remove_viewport (config_of (files w) path)).
  assert (Hsame : pruned.2 = false → pruned.1 = config_of (files w) path).
  { intros Hflag. apply map_eq. intros k. unfold pruned.
    rewrite remove_viewport_lookup. case_decide as Hk; [|done].
    unfold pruned in Hflag. rewrite remove_viewport_flag in Hflag.
    destruct (config_of (files w) path !! k) eqn:Hc; [|done].
    assert (existsb (λ key, bool_decide (is_Some (config_of (files w) path
                                                   !! key)))
                    removed_keys = true) as Hex; [|congruence].
    apply existsb_exists. exists k. split.
    - apply list_elem_of_In. unfold viewport_order in Hk.
      unfold removed_keys. set_solver.
    - apply bool_decide_eq_true_2. by rewrite Hc. }
  destruct (files w !! path) as [content|] eqn:Hf.
  - destruct pruned.2 eqn:Hflag; cbn [negb].
    + destruct (is_empty_dict pruned.1 && delete_if_empty) eqn:He.
      * apply andb_true_iff in He as [He _].
        apply bool_decide_eq_true_1 in He. rewrite He.
        unfold config_of. by rewrite lookup_delete_eq.
      * apply config_of_insert_serialize, remove_viewport_clean,
          config_of_clean.
    + symmetry. by apply Hsame.
  - symmetry. apply Hsame. unfold pruned, config_of. by rewrite Hf.
Qed.

(** X1. Whatever the case, the record of the target has none of the five
    viewport keys after [remove_rom_config], and no other file of the
    folder has changed. *)
Theorem remove_rom_config_clears_viewport_keys rom_name delete_if_empty w :
  let w' := exec (remove_rom_config rom_name delete_if_empty) w in
  Forall (λ k, config_of (files w') (config_path_of rom_name) !! k = None)
         viewport_order
  ∧ ∀ p, p ≠ config_path_of rom_name → files w' !! p = files w !! p.
Proof.
  intros w'. split.
  - apply Forall_forall. intros k Hk. unfold w'.
    rewrite remove_rom_config_config_of, remove_viewport_lookup.
    by rewrite decide_True.
  - intros p Hp. by apply remove_rom_config_other_files.
Qed.

(** X2. A second [remove_rom_config] finds nothing to do: it returns
    [(False, False)] and leaves the folder as the first call left it. *)
Theorem remove_rom_config_twice rom_name first second w :
  let w1 := exec (remove_rom_config rom_name first) w in
  eval (remove_rom_config rom_name second) w1 = (false, false)
  ∧ files (exec (remove_rom_config rom_name second) w1) = files w1.
Proof.
  intros w1.
  assert (Hflag : (remove_viewport
                     (config_of (files w1) (config_path_of rom_name))).2
                  = false).
  { apply remove_viewport_none. intros k Hk. unfold w1.
    rewrite remove_rom_config_config_of, remove_viewport_lookup.
    by rewrite decide_True. }
  rewrite remove_rom_config_eval, remove_rom_config_files, Hflag.
  by destruct (files w1 !! config_path_of rom_name).
Qed.

End remove_more.

Section apply_then_remove.

Implicit Types (config : gmap string string) (w : world).

Lemma remove_viewport_set_viewport config width height x y :
  (remove_viewport (set_viewport config width height x y)).1
  = (remove_viewport config).1
  ∧ (remove_viewport (set_viewport config width height x y)).2 = true.
Proof.
  split.
  - apply map_eq. intros k. rewrite !remove_viewport_lookup.
    case_decide; [done|]. by apply set_viewport_other.
  - apply (remove_viewport_some _ "aspect_ratio_index").
    + unfold viewport_order. set_solver.
    + unfold set_viewport. by rewrite lookup_insert_eq.
Qed.

(** X3. [update_rom_config] followed by [remove_rom_config] (deleting empty
    files) leaves of the target exactly the settings that are not viewport
    settings: the file holds them, in the writer's layout, or is gone when
    there are none.  A target that did not exist before the two calls does
    not exist after them, and the folder is as it was. *)
Theorem update_then_remove rom_name width height x y w :
  let path := config_path_of rom_name in
  let kept := (remove_viewport (config_of (files w) path)).1 in
  let w1 := exec (update_rom_config rom_name width height x y) w in
  let w2 := exec (remove_rom_config rom_name true) w1 in
  eval (remove_rom_config rom_name true) w1 = (true, bool_decide (kept = ∅))
  ∧ files w2 = (if bool_decide (kept = ∅) then delete path (files w)
                else <[path := serialize kept]> (files w))
  ∧ (files w !! path = None → files w2 = files w).
Proof.
  intros path kept w1 w2.
  assert (Hc1 : config_of (files w1) path
                = set_viewport (config_of (files w) path) width height x y)
    by apply update_rom_config_config_of.
  assert (Hf1 : files w1
                = <[path := serialize (set_viewport (config_of (files w) path)
                                         width height x y)]> (files w))
    by apply update_rom_config_files.
  destruct (remove_viewport_set_viewport (config_of (files w) path)
              width height x y) as [Hkept Hflag].
  assert (Hfiles : files w2 = (if bool_decide (kept = ∅)
                               then delete path (files w)
                               else <[path := serialize kept]> (files w))).
  { unfold w2. rewrite remove_rom_config_files. fold path.
    rewrite Hc1, Hkept, Hflag. fold kept. cbn [negb].
    rewrite Hf1, lookup_insert_eq. unfold is_empty_dict.
    rewrite andb_true_r. case_bool_decide.
    - apply delete_insert_eq.
    - apply insert_insert_eq. }
  split; [|split; [exact Hfiles|]].
  - rewrite remove_rom_config_eval. fold path.
    rewrite Hc1, Hkept, Hflag. fold kept.
    by rewrite Hf1, lookup_insert_eq.
  - intros Habsent. rewrite Hfiles.
    assert (kept = ∅) as ->.
    { unfold kept, config_of. rewrite Habsent. apply map_eq. intros k.
      rewrite remove_viewport_lookup.
      destruct (decide (k ∈ viewport_order)); by rewrite ?lookup_empty. }
    rewrite bool_decide_eq_true_2 by done. by apply delete_id.
Qed.

Lemma exec_ret {A} (a : A) w : exec (mret a) w = w.
Proof. reflexivity. Qed.

Lemma delete_empty_config_run rom_name w :
  let path := config_path_of rom_name in
  let empty := bool_decide (is_Some (files w !! path))
               && is_empty_dict (config_of (files w) path) in
  eval (delete_empty_config rom_name) w = empty
  ∧ files (exec (delete_empty_config rom_name) w)
    = (if empty then delete path (files w) else files w).
Proof.
  intros path empty. unfold empty, delete_empty_config. run_monad.
  fold path. destruct (bool_decide (is_Some (files w !! path))); [|done].
  cbn [negb andb]. by destruct (is_empty_dict (config_of (files w) path)).
Qed.

(** X4. [delete_empty_config] loses no setting: whatever it does, every file
    name of the folder reads to the same record before and after.  It
    answers [True] exactly when the target exists with an empty record,
    and then the file is gone. *)
Theorem delete_empty_config_keeps_records rom_name w :
  let path := config_path_of rom_name in
  let w' := exec (delete_empty_config rom_name) w in
  (∀ p, config_of (files w') p = config_of (files w) p)
  ∧ eval (delete_empty_config rom_name) w
    = bool_decide (is_Some (files w !! path)
                   ∧ config_of (files w) path = ∅)
  ∧ (if eval (delete_empty_config rom_name) w
     then files w' = delete path (files w)
     else files w' = files w).
Proof.
  intros path w'. destruct (delete_empty_config_run rom_name w) as [He Hf].
  fold path in He, Hf. fold w' in Hf. rewrite He.
  destruct (bool_decide (is_Some (files w !! path))) eqn:Hex;
    [apply bool_decide_eq_true_1 in Hex|apply bool_decide_eq_false_1 in Hex];
    cbn [andb] in *.
  - unfold is_empty_dict in *.
    destruct (bool_decide (config_of (files w) path = ∅)) eqn:Hem;
      [apply bool_decide_eq_true_1 in Hem|apply bool_decide_eq_false_1 in Hem].
    + split; [|split; [|done]].
      * intros p. rewrite Hf. destruct (decide (p = path)) as [->|Hp].
        -- rewrite Hem. unfold config_of. by rewrite lookup_delete_eq.
        -- unfold config_of. by rewrite lookup_delete_ne.
      * symmetry. by apply bool_decide_eq_true_2.
    + split; [by rewrite Hf|split; [|done]].
      symmetry. apply bool_decide_eq_false_2. by intros [_ ?].
  - split; [by rewrite Hf|split; [|done]].
    symmetry. apply bool_decide_eq_false_2. by intros [? _].
Qed.

(** X5. The interface's two steps, [remove_rom_config] without deletion and
    then [delete_empty_config] when the record came out empty, return what
    [remove_rom_config] with deletion returns and leave the same folder. *)
Theorem remove_then_delete_as_remove rom_name w :
  eval (remove_then_delete rom_name) w
  = eval (remove_rom_config rom_name true) w
  ∧ files (exec (remove_then_delete rom_name) w)
    = files (exec (remove_rom_config rom_name true) w).
Proof.
  unfold remove_then_delete.
  rewrite eval_bind, exec_bind, !eval_bind, !exec_bind.
  set (w1 := exec (remove_rom_config rom_name false) w).
  set (r := eval (remove_rom_config rom_name false) w).
  assert (Hr : r = eval (remove_rom_config rom_name true) w).
  { unfold r. by rewrite !remove_rom_config_eval. }
  split; [exact Hr|].
  assert (Hw1 : files w1 = files (exec (remove_rom_config rom_name false) w))
    by done.
  rewrite remove_rom_config_files in Hw1.
  rewrite remove_rom_config_files.
  unfold r in *. rewrite remove_rom_config_eval in *.
  set (path := config_path_of rom_name) in *.
  set (pruned := remove_viewport (config_of (files w) path)) in *.
  destruct (files w !! path) as [content|] eqn:Hf; [|by rewrite <- Hw1].
  destruct (pruned.2); cbn [negb fst snd andb] in *; [|by rewrite <- Hw1].
  rewrite andb_false_r in Hw1. rewrite andb_true_r.
  destruct (is_empty_dict pruned.1) eqn:He; [|by rewrite <- Hw1].
  apply bool_decide_eq_true_1 in He.
  destruct (delete_empty_config_run rom_name w1) as [_ Hdel].
  fold path in Hdel.
  rewrite (exec_ret (true, true)), exec_bind, (exec_ret ()).
  fold path in Hdel.
  rewrite Hdel, Hw1, He, lookup_insert_eq.
  rewrite (bool_decide_eq_true_2 (is_Some (Some _))) by eauto.
  unfold config_of. rewrite lookup_insert_eq.
  change (parse_config (serialize ∅)) with (∅ : gmap string string).
  unfold is_empty_dict. rewrite bool_decide_eq_true_2 by done. cbn [andb].
  apply delete_insert_eq.
Qed.

End apply_then_remove.

(** ** Processing a folder of ROMs, continued *)

Section process_roms_more.

Implicit Types (config : gmap string string) (w : world) (mgr : manager).

Lemma get_rom_files_run mgr listing w :
  eval (get_rom_files mgr listing) w = listed_roms mgr listing
  ∧ files (exec (get_rom_files mgr listing) w) = files w.
Proof.
  unfold get_rom_files, listed_roms.
  destruct (rom_folder mgr), listing; done.
Qed.

Lemma process_roms_run mgr listing w :
  let w1 := exec (get_rom_files mgr listing) w in
  eval (process_roms mgr listing) w
  = eval (for_each (process_step mgr) (0, 0) (listed_roms mgr listing)) w1
  ∧ files (exec (process_roms mgr listing) w)
    = files (exec (for_each (process_step mgr) (0, 0)
                     (listed_roms mgr listing)) w1).
Proof.
  intros w1. unfold process_roms.
  rewrite eval_bind, exec_bind.
  destruct (get_rom_files_run mgr listing w) as [-> _]. fold w1.
  unfold exec, eval, mbind, M_bind, mret, M_ret, log.
  by destruct (for_each _ _ _ _).
Qed.

Lemma process_step_eval mgr counts rom_file w :
  eval (process_step mgr counts rom_file) w
  = if in_catalog mgr rom_file then (counts.1 + 1, counts.2)
    else (counts.1, counts.2 + 1).
Proof.
  unfold process_step, in_catalog.
  destruct (game_resolutions mgr !! stem rom_file) as [[dw dh]|].
  - by rewrite bool_decide_eq_true_2 by eauto.
  - by rewrite bool_decide_eq_false_2 by (by intros [? ?]).
Qed.

Lemma process_loop_eval mgr rom_files counts w :
  eval (for_each (process_step mgr) counts rom_files) w
  = (counts.1 + Z.of_nat (length (filter (λ f, in_catalog mgr f) rom_files)),
     counts.2 + Z.of_nat (length (filter (λ f, ¬ in_catalog mgr f)
                                         rom_files))).
Proof.
  revert counts w. induction rom_files as [|f l IH]; intros [p s] w.
  - cbn. f_equal; lia.
  - cbn [for_each]. rewrite eval_bind, IH, process_step_eval, !filter_cons.
    destruct (in_catalog mgr f) eqn:Hf.
    + rewrite decide_True, decide_False by (rewrite ?Hf; naive_solver).
      cbn [fst snd length]. f_equal; lia.
    + rewrite decide_False, decide_True by (rewrite ?Hf; naive_solver).
      cbn [fst snd length]. f_equal; lia.
Qed.

(** X6. [process_roms] returns the number of ROM files the catalog knows and
    the number it does not know; together they are all the [.zip] files of
    the ROM folder, and [(0, 0)] when that folder is unset or missing. *)
Theorem process_roms_counts mgr listing w :
  let rom_files := listed_roms mgr listing in
  let counts := eval (process_roms mgr listing) w in
  counts.1 = Z.of_nat (length (filter (λ f, in_catalog mgr f) rom_files))
  ∧ counts.2 = Z.of_nat (length (filter (λ f, ¬ in_catalog mgr f) rom_files))
  ∧ counts.1 + counts.2 = Z.of_nat (length rom_files)
  ∧ (listing = None → counts = (0, 0)).
Proof.
  intros rom_files counts. unfold counts.
  destruct (process_roms_run mgr listing w) as [-> _].
  rewrite process_loop_eval. fold rom_files. cbn [fst snd].
  split; [lia|split; [lia|split]].
  - rewrite !Z.add_0_l, <- Nat2Z.inj_add. f_equal.
    rewrite <- (Permutation_length
                  (filter_app_complement (λ f, in_catalog mgr f) rom_files)).
    by rewrite length_app.
  - intros ->. unfold rom_files, listed_roms. by destruct (rom_folder mgr).
Qed.

End process_roms_more.

Section process_roms_folder.

Implicit Types (config : gmap string string) (w : world) (mgr : manager).

Lemma processed_entry_cons mgr rom_file rom_files p :
  processed_entry mgr (rom_file :: rom_files) p
  = if bool_decide (config_path_of (stem rom_file) = p)
    then match game_resolutions mgr !! stem rom_file with
         | Some dat => Some dat
         | None => processed_entry mgr rom_files p
         end
    else processed_entry mgr rom_files p.
Proof.
  unfold processed_entry. cbn [omap list_omap].
  destruct (bool_decide (config_path_of (stem rom_file) = p)); [|done].
  by destruct (game_resolutions mgr !! stem rom_file).
Qed.

Lemma processed_entry_Some mgr rom_files p dat :
  processed_entry mgr rom_files p = Some dat →
  ∃ rom_file, rom_file ∈ rom_files
              ∧ config_path_of (stem rom_file) = p
              ∧ game_resolutions mgr !! stem rom_file = Some dat.
Proof.
  induction rom_files as [|f l IH]; [done|].
  rewrite processed_entry_cons. case_bool_decide as Hp.
  - destruct (game_resolutions mgr !! stem f) as [dat'|] eqn:Hf.
    + intros [= ->]. exists f. split; [apply list_elem_of_here|done].
    + intros (f' & ? & ?)%IH. exists f'.
      split; [by apply list_elem_of_further|done].
  - intros (f' & ? & ?)%IH. exists f'.
    split; [by apply list_elem_of_further|done].
Qed.

Lemma processed_entry_None mgr rom_files p :
  (∀ rom_file, rom_file ∈ rom_files → in_catalog mgr rom_file →
               config_path_of (stem rom_file) ≠ p) →
  processed_entry mgr rom_files p = None.
Proof.
  intros Hno. destruct (processed_entry mgr rom_files p) as [dat|] eqn:He;
    [|done].
  apply processed_entry_Some in He as (f & Hin & Hp & Hdat).
  destruct (Hno f Hin); [|done].
  unfold in_catalog. apply bool_decide_pack. by rewrite Hdat.
Qed.

(** The text of each file after the loop of [process_roms]. *)
Lemma process_loop_lookup mgr rom_files counts w p :
  files (exec (for_each (process_step mgr) counts rom_files) w) !! p
  = match processed_entry mgr rom_files p with
    | Some dat =>
        Some (serialize (set_viewport (config_of (files w) p)
                           (effective mgr dat).1 (effective mgr dat).2
                           (override_x mgr) (override_y mgr)))
    | None => files w !! p
    end.
Proof.
  revert counts w. induction rom_files as [|f l IH]; intros counts w; [done|].
  cbn [for_each]. rewrite exec_bind, IH, processed_entry_cons.
  rewrite process_step_files.
  case_bool_decide as Hp.
  - destruct (game_resolutions mgr !! stem f) as [dat|] eqn:Hf; [|done].
    rewrite Hp, config_of_insert_serialize
      by apply set_viewport_clean, config_of_clean.
    destruct (processed_entry mgr l p) as [dat'|] eqn:He.
    + apply processed_entry_Some in He as (f' & _ & Hp' & Hdat').
      rewrite <- Hp in Hp'. apply config_path_of_inj in Hp'.
      rewrite Hp' in Hdat'. simplify_eq. by rewrite set_viewport_idem.
    + by rewrite lookup_insert_eq.
  - assert (Hsame : ∀ fs', (match game_resolutions mgr !! stem f with
                            | Some dat =>
                                <[config_path_of (stem f) := fs' dat]> (files w)
                            | None => files w
                            end) !! p = files w !! p).
    { intros fs'. destruct (game_resolutions mgr !! stem f); [|done].
      by rewrite lookup_insert_ne. }
    unfold config_of. rewrite !Hsame. done.
Qed.

Lemma process_roms_lookup mgr listing w p :
  files (exec (process_roms mgr listing) w) !! p
  = match processed_entry mgr (listed_roms mgr listing) p with
    | Some dat =>
        Some (serialize (set_viewport (config_of (files w) p)
                           (effective mgr dat).1 (effective mgr dat).2
                           (override_x mgr) (override_y mgr)))
    | None => files w !! p
    end.
Proof.
  destruct (process_roms_run mgr listing w) as [_ ->].
  rewrite process_loop_lookup.
  by destruct (get_rom_files_run mgr listing w) as [_ ->].
Qed.

Lemma process_roms_config_of mgr listing w p :
  config_of (files (exec (process_roms mgr listing) w)) p
  = match processed_entry mgr (listed_roms mgr listing) p with
    | Some dat =>
        set_viewport (config_of (files w) p)
          (effective mgr dat).1 (effective mgr dat).2
          (override_x mgr) (override_y mgr)
    | None => config_of (files w) p
    end.
Proof.
  unfold config_of at 1. rewrite process_roms_lookup.
  destruct (processed_entry mgr (listed_roms mgr listing) p); [|done].
  apply parse_config_serialize, set_viewport_clean, config_of_clean.
Qed.

(** X7. [process_roms] writes only the targets of the ROM files the catalog
    knows: every other file of the folder is left as it is.  In
    particular a ROM without a catalog entry costs nothing but a log
    line. *)
Theorem process_roms_other_files mgr listing w p :
  (∀ rom_file, rom_file ∈ listed_roms mgr listing →
               in_catalog mgr rom_file →
               config_path_of (stem rom_file) ≠ p) →
  files (exec (process_roms mgr listing) w) !! p = files w !! p.
Proof.
  intros Hno. rewrite process_roms_lookup.
  by rewrite processed_entry_None.
Qed.

(** X8. Running [process_roms] again, on the folder it has just processed,
    changes no file. *)
Theorem process_roms_idempotent mgr listing w :
  let once := exec (process_roms mgr listing) w in
  files (exec (process_roms mgr listing) once) = files once.
Proof.
  intros once. apply map_eq. intros p.
  rewrite process_roms_lookup. unfold once at 1.
  rewrite process_roms_config_of. unfold once. rewrite process_roms_lookup.
  destruct (processed_entry mgr (listed_roms mgr listing) p); [|done].
  by rewrite set_viewport_idem.
Qed.

(** X9. In every file of the folder, [process_roms] leaves each key that is
    not a viewport key with the value it had. *)
Theorem process_roms_keeps_unrelated_keys mgr listing w p k :
  k ∉ viewport_order →
  config_of (files (exec (process_roms mgr listing) w)) p !! k
  = config_of (files w) p !! k.
Proof.
  intros Hk. rewrite process_roms_config_of.
  destruct (processed_entry mgr (listed_roms mgr listing) p); [|done].
  by apply set_viewport_other.
Qed.

End process_roms_folder.

(** ** Removing the overrides of a whole folder *)

Section remove_all_more.

Implicit Types (config : gmap string string) (w : world) (mgr : manager).

Lemma pop_keys_lookup config k :
  pop_keys config !! k = if decide (k ∈ popped_keys) then None else config !! k.
Proof.
  unfold pop_keys, popped_keys. rewrite !lookup_delete.
  repeat case_decide; subst; try done; set_solver.
Qed.

Lemma has_popped_key_false config :
  has_popped_key config = false ↔ ∀ k, k ∈ popped_keys → config !! k = None.
Proof.
  unfold has_popped_key. split.
  - intros Hno k Hk. destruct (config !! k) eqn:Hc; [|done].
    assert (existsb (λ key, bool_decide (is_Some (config !! key)))
                    popped_keys = true) as Hex; [|congruence].
    apply existsb_exists. exists k. split; [by apply list_elem_of_In|].
    apply bool_decide_eq_true_2. by rewrite Hc.
  - intros Hno. apply not_true_iff_false.
    intros (k & Hk%list_elem_of_In & Hs)%existsb_exists.
    apply bool_decide_eq_true_1 in Hs. rewrite (Hno k Hk) in Hs.
    by destruct Hs.
Qed.

Lemma pop_keys_clean config : clean_config config → clean_config (pop_keys config).
Proof.
  intros Hc k v. rewrite pop_keys_lookup. case_decide; [done|]. apply Hc.
Qed.

Lemma filter_ext_elem {A} (P Q : A → Prop)
    `{!∀ x, Decision (P x), !∀ x, Decision (Q x)} (l : list A) :
  (∀ x, x ∈ l → P x ↔ Q x) → filter P l = filter Q l.
Proof.
  induction l as [|a l IH]; intros Hiff; [done|].
  rewrite !filter_cons, IH
    by (intros x Hx; apply Hiff; by apply list_elem_of_further).
  pose proof (Hiff a (list_elem_of_here _ _)).
  destruct (decide (P a)), (decide (Q a)); naive_solver.
Qed.

Lemma remove_all_step_run counts config_file w :
  let config := config_of (files w) config_file in
  eval (remove_all_step counts config_file) w
  = (if has_popped_key config then (counts.1 + 1, counts.2)
     else (counts.1, counts.2 + 1))
  ∧ files (exec (remove_all_step counts config_file) w)
    = match after_pop (files w) config_file with
      | Some content => <[config_file := content]> (files w)
      | None => delete config_file (files w)
      end.
Proof.
  intros config. unfold remove_all_step, after_pop. run_monad.
  fold config. change (existsb _ popped_keys) with (has_popped_key config).
  change (delete "aspect_ratio_index" _) with (pop_keys config).
  destruct (has_popped_key config) eqn:Hhas.
  - destruct (is_empty_dict (pop_keys config)); done.
  - split; [done|]. cbn [snd files].
    destruct (files w !! config_file) as [content|] eqn:Hf.
    + by rewrite insert_id.
    + by rewrite delete_id.
Qed.

(** The loop over distinct file names: every file it visits ends as one
    turn on the original folder leaves it, the others stay. *)
Lemma remove_all_loop_run config_files counts w :
  NoDup config_files →
  let visited p := bool_decide (p ∈ config_files) in
  eval (for_each remove_all_step counts config_files) w
  = (counts.1 + Z.of_nat (length (filter
         (λ p, has_popped_key (config_of (files w) p)) config_files)),
     counts.2 + Z.of_nat (length (filter
         (λ p, ¬ has_popped_key (config_of (files w) p)) config_files)))
  ∧ ∀ p, files (exec (for_each remove_all_step counts config_files) w) !! p
         = if visited p then after_pop (files w) p else files w !! p.
Proof.
  intros Hnd. revert counts w.
  induction Hnd as [|f l Hf Hnd IH]; intros counts w visited.
  - split; [destruct counts; cbn; f_equal; lia|done].
  - cbn [for_each]. rewrite eval_bind, exec_bind.
    destruct (remove_all_step_run counts f w) as [Hev Hfs].
    set (w1 := exec (remove_all_step counts f) w) in *.
    assert (Hother : ∀ p, p ≠ f → files w1 !! p = files w !! p).
    { intros p Hp. rewrite Hfs. destruct (after_pop (files w) f).
      - by rewrite lookup_insert_ne.
      - by rewrite lookup_delete_ne. }
    assert (Hcfg : ∀ p, p ∈ l →
              config_of (files w1) p = config_of (files w) p).
    { intros p Hp. unfold config_of. rewrite Hother; [done|].
      by intros ->. }
    destruct (IH (eval (remove_all_step counts f) w) w1) as [Hev' Hfs'].
    split.
    + rewrite Hev', Hev, !filter_cons.
      rewrite (filter_ext_elem
                 (λ p, has_popped_key (config_of (files w1) p))
                 (λ p, has_popped_key (config_of (files w) p)) l)
        by (intros p Hp; by rewrite (Hcfg p Hp)).
      rewrite (filter_ext_elem
                 (λ p, ¬ has_popped_key (config_of (files w1) p))
                 (λ p, ¬ has_popped_key (config_of (files w) p)) l)
        by (intros p Hp; by rewrite (Hcfg p Hp)).
      destruct (has_popped_key (config_of (files w) f)) eqn:Hhas.
      * rewrite decide_True, decide_False by (rewrite ?Hhas; naive_solver).
        cbn [fst snd length]. f_equal; lia.
      * rewrite decide_False, decide_True by (rewrite ?Hhas; naive_solver).
        cbn [fst snd length]. f_equal; lia.
    + intros p. rewrite Hfs'. unfold visited.
      destruct (decide (p = f)) as [->|Hp].
      * rewrite (bool_decide_eq_false_2 (f ∈ l)) by done.
        rewrite (bool_decide_eq_true_2 (f ∈ f :: l))
          by apply list_elem_of_here.
        rewrite Hfs. destruct (after_pop (files w) f).
        -- by rewrite lookup_insert_eq.
        -- by rewrite lookup_delete_eq.
      * destruct (decide (p ∈ l)) as [Hin|Hout].
        -- rewrite !bool_decide_eq_true_2
             by (done || by apply list_elem_of_further).
           unfold after_pop. rewrite (Hcfg p Hin). by rewrite Hother.
        -- rewrite !bool_decide_eq_false_2; [by apply Hother|..|done].
           by intros [?|?]%elem_of_cons.
Qed.

End remove_all_more.

Section remove_all_claims.

Implicit Types (config : gmap string string) (w : world) (mgr : manager).

Lemma elem_of_glob_configs w p :
  p ∈ eval glob_configs w
  ↔ endswith ".zip.cfg" p = true ∧ is_Some (files w !! p).
Proof.
  unfold eval, glob_configs. cbn [fst].
  rewrite list_elem_of_filter, list_elem_of_fmap. split.
  - intros [Hend ([p' c] & -> & Hin%elem_of_map_to_list)]. cbn in *.
    split; [by destruct (endswith _ _)|eauto].
  - intros [Hend [c Hc]]. split; [by rewrite Hend|].
    exists (p, c). split; [done|]. by apply elem_of_map_to_list.
Qed.

Lemma NoDup_glob_configs w : NoDup (eval glob_configs w).
Proof.
  unfold eval, glob_configs. cbn [fst].
  apply NoDup_filter, NoDup_fst_map_to_list.
Qed.

Lemma NoDup_listed_configs mgr w : NoDup (listed_configs mgr w).
Proof.
  unfold listed_configs. destruct (output_folder mgr).
  - apply NoDup_glob_configs.
  - constructor.
Qed.

Lemma remove_all_overrides_run mgr w :
  ∃ w1, files w1 = files w
        ∧ eval (remove_all_overrides mgr) w
          = eval (for_each remove_all_step (0, 0) (listed_configs mgr w)) w1
        ∧ files (exec (remove_all_overrides mgr) w)
          = files (exec (for_each remove_all_step (0, 0)
                           (listed_configs mgr w)) w1).
Proof.
  unfold remove_all_overrides, listed_configs.
  destruct (output_folder mgr) as [folder|].
  - exists (World (files w)
              (logged w ++
                 ["Found "
                  +:+ str_int (Z.of_nat (length (eval glob_configs w)))
                  +:+ " config files in " +:+ folder])).
    split; [done|].
    unfold exec, eval, mbind, M_bind, mret, M_ret, log, glob_configs.
    cbn [fst snd files logged]. by destruct (for_each _ _ _ _).
  - exists w. done.
Qed.

(** The folder after [remove_all_overrides], file by file. *)
Lemma remove_all_overrides_lookup mgr w p :
  files (exec (remove_all_overrides mgr) w) !! p
  = if bool_decide (p ∈ listed_configs mgr w) then after_pop (files w) p
    else files w !! p.
Proof.
  destruct (remove_all_overrides_run mgr w) as (w1 & Hw1 & _ & ->).
  destruct (remove_all_loop_run (listed_configs mgr w) (0, 0) w1
              (NoDup_listed_configs mgr w)) as [_ ->].
  by rewrite Hw1.
Qed.

Lemma remove_all_overrides_config_of mgr w p :
  config_of (files (exec (remove_all_overrides mgr) w)) p
  = if bool_decide (p ∈ listed_configs mgr w)
       && has_popped_key (config_of (files w) p)
    then pop_keys (config_of (files w) p)
    else config_of (files w) p.
Proof.
  unfold config_of at 1. rewrite remove_all_overrides_lookup.
  destruct (bool_decide (p ∈ listed_configs mgr w)); [|done].
  unfold after_pop. cbn [andb].
  destruct (has_popped_key (config_of (files w) p)); [|done].
  unfold is_empty_dict. case_bool_decide as He; [by rewrite He|].
  apply parse_config_serialize, pop_keys_clean, config_of_clean.
Qed.

Lemma remove_all_overrides_eval mgr w :
  eval (remove_all_overrides mgr) w
  = (Z.of_nat (length (filter
        (λ p, has_popped_key (config_of (files w) p)) (listed_configs mgr w))),
     Z.of_nat (length (filter
        (λ p, ¬ has_popped_key (config_of (files w) p))
        (listed_configs mgr w)))).
Proof.
  destruct (remove_all_overrides_run mgr w) as (w1 & Hw1 & -> & _).
  destruct (remove_all_loop_run (listed_configs mgr w) (0, 0) w1
              (NoDup_listed_configs mgr w)) as [-> _].
  by rewrite Hw1.
Qed.

(** X10. [remove_all_overrides] returns how many config files held one of the
    keys it pops and how many held none; together they are all the
    [*.zip.cfg] files of the output folder, and [(0, 0)] when no output
    folder is set. *)
Theorem remove_all_overrides_counts mgr w :
  let counts := eval (remove_all_overrides mgr) w in
  let targets := listed_configs mgr w in
  counts.1 = Z.of_nat (length (filter
               (λ p, has_popped_key (config_of (files w) p)) targets))
  ∧ counts.2 = Z.of_nat (length (filter
                 (λ p, ¬ has_popped_key (config_of (files w) p)) targets))
  ∧ counts.1 + counts.2 = Z.of_nat (length targets).
Proof.
  intros counts targets. unfold counts, targets.
  rewrite remove_all_overrides_eval. cbn [fst snd].
  split; [done|split; [done|]].
  rewrite <- Nat2Z.inj_add. f_equal.
  rewrite <- (Permutation_length
                (filter_app_complement
                   (λ p, has_popped_key (config_of (files w) p))
                   (listed_configs mgr w))).
  by rewrite length_app.
Qed.

(** X11. What [remove_all_overrides] does to the folder.  A file it does not
    visit is not touched.  A file it visits reads afterwards to a record
    without [custom_viewport_width], [custom_viewport_height] and
    [aspect_ratio_index].  And in every file every other key, the two
    position keys among them, keeps its value. *)
Theorem remove_all_overrides_effect mgr w p :
  let w' := exec (remove_all_overrides mgr) w in
  (p ∉ listed_configs mgr w → files w' !! p = files w !! p)
  ∧ (p ∈ listed_configs mgr w →
     Forall (λ k, config_of (files w') p !! k = None) popped_keys)
  ∧ (∀ k, k ∉ popped_keys →
          config_of (files w') p !! k = config_of (files w) p !! k).
Proof.
  intros w'. unfold w'. split; [|split].
  - intros Hout. rewrite remove_all_overrides_lookup.
    by rewrite bool_decide_eq_false_2.
  - intros Hin. apply Forall_forall. intros k Hk.
    rewrite remove_all_overrides_config_of.
    rewrite bool_decide_eq_true_2 by done. cbn [andb].
    destruct (has_popped_key (config_of (files w) p)) eqn:Hhas.
    + rewrite pop_keys_lookup. by rewrite decide_True.
    + by apply has_popped_key_false.
  - intros k Hk. rewrite remove_all_overrides_config_of.
    destruct (_ && _); [|done].
    rewrite pop_keys_lookup. by rewrite decide_False.
Qed.

(** X12. A second [remove_all_overrides] removes nothing and changes no file. *)
Theorem remove_all_overrides_twice mgr w :
  let once := exec (remove_all_overrides mgr) w in
  (eval (remove_all_overrides mgr) once).1 = 0
  ∧ files (exec (remove_all_overrides mgr) once) = files once.
Proof.
  intros once.
  assert (Hclean : ∀ p, p ∈ listed_configs mgr once →
            has_popped_key (config_of (files once) p) = false).
  { intros p Hp. apply has_popped_key_false. intros k Hk.
    assert (Hin : p ∈ listed_configs mgr w).
    { destruct (decide (p ∈ listed_configs mgr w)) as [|Hout]; [done|].
      exfalso. apply Hout. unfold listed_configs in Hp |- *.
      destruct (output_folder mgr) as [folder|] eqn:Ho;
        [|by apply elem_of_nil in Hp].
      apply elem_of_glob_configs in Hp as [Hend Hex].
      apply elem_of_glob_configs. split; [done|].
      unfold once in Hex. rewrite remove_all_overrides_lookup in Hex.
      by rewrite bool_decide_eq_false_2 in Hex. }
    unfold once. rewrite remove_all_overrides_config_of.
    rewrite bool_decide_eq_true_2 by done. cbn [andb].
    destruct (has_popped_key (config_of (files w) p)) eqn:Hhas.
    - rewrite pop_keys_lookup. by rewrite decide_True.
    - by apply has_popped_key_false. }
  split.
  - rewrite remove_all_overrides_eval. cbn [fst].
    rewrite (filter_ext_elem _ (λ _, False)).
    + assert (∀ l : list string, filter (λ _, False) l = []) as ->; [|done].
      induction l as [|a l IH]; [done|].
      by rewrite filter_cons_False by tauto.
    + intros p Hp. rewrite (Hclean p Hp). naive_solver.
  - apply map_eq. intros p. rewrite remove_all_overrides_lookup.
    case_bool_decide as Hp; [|done].
    unfold after_pop. by rewrite (Hclean p Hp).
Qed.

End remove_all_claims.

(** ** The catalog parser, continued *)

Section parse_more.

Implicit Types (w : world) (mgr : manager) (game : element).

Lemma for_each_app {A B} (f : B → A → M B) (b : B) (l1 l2 : list A) w :
  for_each f b (l1 ++ l2) w
  = for_each f (eval (for_each f b l1) w) l2 (exec (for_each f b l1) w).
Proof.
  revert b w. induction l1 as [|x l1 IH]; intros b w; [done|].
  cbn [app for_each]. unfold mbind, M_bind at 1 3.
  unfold eval, exec. cbn [mbind M_bind].
  destruct (f b x w) as [b' w'] eqn:Hf. rewrite IH.
  unfold eval, exec, mbind, M_bind. rewrite Hf. done.
Qed.

Lemma py_int_empty : py_int EmptyString = None.
Proof. reflexivity. Qed.

Lemma py_int_truthy s n : py_int s = Some n → truthy (Some s) = true.
Proof.
  intros Hs. cbn. rewrite bool_decide_eq_false_2; [done|].
  intros ->. by rewrite py_int_empty in Hs.
Qed.

(** The turn of an element that stores an entry. *)
Lemma scan_game_valid mgr game game_name width_text height_text wd ht w :
  get game "name" = Some game_name →
  game_name ≠ EmptyString →
  scr_width (lookup_screen game) = Some width_text →
  scr_height (lookup_screen game) = Some height_text →
  py_int width_text = Some wd →
  py_int height_text = Some ht →
  exec (scan_game mgr game) w = w
  ∧ same_settings mgr (eval (scan_game mgr game) w)
  ∧ game_resolutions (eval (scan_game mgr game) w)
    = <[game_name := (wd, ht)]> (game_resolutions mgr)
  ∧ game_info (eval (scan_game mgr game) w)
    = <[game_name := info_of game game_name wd ht]> (game_info mgr).
Proof.
  intros Hname Hne Hw Hh Hwd Hht. unfold scan_game.
  rewrite Hname, Hw, Hh. cbn [truthy default from_option id].
  rewrite (bool_decide_eq_false_2 (game_name = EmptyString)) by done.
  pose proof (py_int_truthy _ _ Hwd) as Htw.
  pose proof (py_int_truthy _ _ Hht) as Hth.
  cbn [truthy] in Htw, Hth. rewrite Htw, Hth, Hwd, Hht. cbn [negb andb].
  unfold same_settings. by destruct w.
Qed.

(** The turn of an element that stores nothing leaves the manager as it
    is. *)
Lemma scan_game_not_storing mgr game w :
  stores_entry game = false → eval (scan_game mgr game) w = mgr.
Proof.
  unfold stores_entry, valid_resolution, has_resolution_text, scan_game.
  destruct (truthy (get game "name")); cbn [negb andb]; [|done].
  destruct (truthy (scr_width (lookup_screen game))
            && truthy (scr_height (lookup_screen game))); cbn [andb]; [|done].
  destruct (py_int (default EmptyString (scr_width (lookup_screen game))));
    [|done].
  destruct (py_int (default EmptyString (scr_height (lookup_screen game))));
    [|done].
  by rewrite !bool_decide_eq_true_2 by eauto.
Qed.

Lemma scan_loop_not_storing games mgr w :
  (∀ g, g ∈ games → stores_entry g = false) →
  eval (for_each scan_game mgr games) w = mgr.
Proof.
  revert mgr w. induction games as [|g games IH]; intros mgr w Hno; [done|].
  cbn [for_each]. rewrite eval_bind.
  rewrite (scan_game_not_storing mgr g w) by apply Hno, list_elem_of_here.
  apply IH. intros g' Hg'. by apply Hno, list_elem_of_further.
Qed.

(** One turn keeps the settings of the manager and the agreement of its
    two maps. *)
Lemma scan_game_invariant mgr game w :
  same_settings mgr (eval (scan_game mgr game) w)
  ∧ (maps_agree mgr → maps_agree (eval (scan_game mgr game) w)).
Proof.
  destruct (stores_entry game) eqn:Hs.
  2:{ rewrite scan_game_not_storing by done. by unfold same_settings. }
  unfold stores_entry, valid_resolution, has_resolution_text in Hs.
  apply andb_true_iff in Hs as [Hnm Hs].
  apply andb_true_iff in Hs as [Hs Hbh].
  apply andb_true_iff in Hs as [Hs Hbw].
  apply andb_true_iff in Hs as [Htw Hth].
  destruct (get game "name") as [game_name|] eqn:Hname; [|done].
  destruct (scr_width (lookup_screen game)) as [wt|] eqn:Hw; [|done].
  destruct (scr_height (lookup_screen game)) as [ht|] eqn:Hh; [|done].
  cbn [default from_option id] in Hbw, Hbh.
  apply bool_decide_eq_true_1 in Hbw as [wd Hwd].
  apply bool_decide_eq_true_1 in Hbh as [hd Hhd].
  assert (Hne : game_name ≠ EmptyString).
  { intros ->. cbn in Hnm. by rewrite bool_decide_eq_true_2 in Hnm. }
  destruct (scan_game_valid mgr game game_name wt ht wd hd w
              Hname Hne Hw Hh Hwd Hhd) as (_ & Hsame & Hres & Hinfo).
  split; [done|]. intros Hagree n. rewrite Hres, Hinfo.
  destruct (decide (game_name = n)) as [->|Hn].
  - rewrite !lookup_insert_eq. split; [done|]. by intros info [= <-].
  - rewrite !lookup_insert_ne by done. apply Hagree.
Qed.

Lemma scan_loop_invariant games mgr w :
  same_settings mgr (eval (for_each scan_game mgr games) w)
  ∧ (maps_agree mgr → maps_agree (eval (for_each scan_game mgr games) w)).
Proof.
  revert mgr w. induction games as [|g games IH]; intros mgr w.
  - by unfold same_settings.
  - cbn [for_each]. rewrite eval_bind.
    destruct (scan_game_invariant mgr g w) as [Hs1 Ha1].
    destruct (IH (eval (scan_game mgr g) w) (exec (scan_game mgr g) w))
      as [Hs2 Ha2].
    split; [|auto]. unfold same_settings in *.
    destruct Hs1 as (<- & <- & <- & <- & <- & <- & <-).
    exact Hs2.
Qed.

End parse_more.

Section parse_more_claims.

Implicit Types (w : world) (mgr : manager) (game : element).

Lemma eval_for_each_app {A B} (f : B → A → M B) (b : B) (l1 l2 : list A) w :
  eval (for_each f b (l1 ++ l2)) w
  = eval (for_each f (eval (for_each f b l1) w) l2)
         (exec (for_each f b l1) w).
Proof. unfold eval at 1. by rewrite for_each_app. Qed.

(** X13. A [game] element with a name and two screen values that are integers
    puts them under its name in [game_resolutions], and its whole
    [GameInfo] in [game_info]; when several elements share the name, the
    last one with a valid resolution is the one that stays. *)
Theorem parse_dat_file_stores_resolution
    mgr path root before game after game_name width_text height_text wd ht w :
  dat_file mgr = Some path →
  findall_desc "game" root = before ++ game :: after →
  get game "name" = Some game_name →
  game_name ≠ EmptyString →
  scr_width (lookup_screen game) = Some width_text →
  scr_height (lookup_screen game) = Some height_text →
  py_int width_text = Some wd →
  py_int height_text = Some ht →
  (∀ g, g ∈ after → get g "name" = Some game_name →
        valid_resolution g = false) →
  ∃ mgr',
    eval (parse_dat_file mgr (ET_Tree root)) w = inr mgr'
    ∧ game_resolutions mgr' !! game_name = Some (wd, ht)
    ∧ game_info mgr' !! game_name
      = Some {| name := game_name; width := wd; height := ht;
                description := text_or_empty (find_child "description" game);
                year := text_or_empty (find_child "year" game);
                manufacturer :=
                  text_or_empty (find_child "manufacturer" game);
                cloneof := get_or_empty game "cloneof";
                rotate := scr_rotate (lookup_screen game);
                screen_type := scr_type (lookup_screen game) |}.
Proof.
  intros Hdat Hgames Hname Hne Hw Hh Hwd Hht Hlast.
  destruct (parse_dat_file_tree mgr path root w Hdat) as [Heval _].
  eexists. split; [exact Heval|].
  rewrite Hgames, eval_for_each_app. cbn [for_each].
  rewrite eval_bind.
  set (mgr1 := eval (for_each scan_game mgr before) _).
  set (w1 := exec (for_each scan_game mgr before) _).
  destruct (scan_game_valid mgr1 game game_name width_text height_text wd ht
              w1 Hname Hne Hw Hh Hwd Hht) as (_ & _ & Hres & Hinfo).
  edestruct scan_loop_effect as (? & _ & Hmaps).
  destruct (Hmaps game_name Hlast) as [-> ->].
  rewrite Hres, Hinfo, !lookup_insert_eq. done.
Qed.

(** X14. [parse_dat_file] keeps the two maps of the manager in agreement, and
    sets nothing but them: the paths and the overrides of the manager it
    returns are those it was given. *)
Theorem parse_dat_file_keeps_agreement mgr parsed w mgr' :
  maps_agree mgr →
  eval (parse_dat_file mgr parsed) w = inr mgr' →
  maps_agree mgr'
  ∧ dat_file mgr' = dat_file mgr ∧ rom_folder mgr' = rom_folder mgr
  ∧ export_folder mgr' = export_folder mgr
  ∧ override_width mgr' = override_width mgr
  ∧ override_height mgr' = override_height mgr
  ∧ override_x mgr' = override_x mgr ∧ override_y mgr' = override_y mgr.
Proof.
  intros Hagree Heval.
  destruct (dat_file mgr) as [path|] eqn:Hdat.
  2:{ unfold parse_dat_file in Heval. by rewrite Hdat in Heval. }
  destruct parsed as [e| |root].
  - unfold parse_dat_file in Heval. by rewrite Hdat in Heval.
  - unfold parse_dat_file in Heval. by rewrite Hdat in Heval.
  - destruct (parse_dat_file_tree mgr path root w Hdat) as [Heq _].
    rewrite Heq in Heval. injection Heval as <-.
    edestruct scan_loop_invariant as [Hsame Hkeep].
    split; [by apply Hkeep|]. rewrite <- Hdat. exact Hsame.
Qed.

(** X15. A catalog none of whose [game] elements stores an entry, parsed by a
    manager that knows no game yet: the parse returns normally with no
    game known, and when the catalog holds a [game] or [machine] element
    at all its last four log lines are the count of zero and the three
    lines of the diagnostic. *)
Theorem parse_dat_file_without_resolution_data mgr path root w :
  dat_file mgr = Some path →
  game_resolutions mgr = ∅ →
  (∀ g, g ∈ findall_desc "game" root → stores_entry g = false) →
  let total := (length (findall_desc "game" root)
                + length (findall_desc "machine" root))%nat in
  let w' := exec (parse_dat_file mgr (ET_Tree root)) w in
  eval (parse_dat_file mgr (ET_Tree root)) w = inr mgr
  ∧ ∃ earlier,
      logged w'
      = earlier ++ "Found 0 games with resolution data"
          :: (if bool_decide (0 < total)%nat
              then ["Warning: Found " +:+ str_int (Z.of_nat total)
                    +:+ " game entries but none have resolution data.";
                    "This DAT file may not contain display/video information.";
                    "Please use a DAT file that includes resolution data (e.g., MAME XML, FinalBurn Neo DAT with display tags)."]
              else []).
Proof.
  intros Hdat Hempty Hnone total w'.
  destruct (parse_dat_file_tree mgr path root w Hdat) as [Heval _].
  rewrite scan_loop_not_storing in Heval by done.
  split; [exact Heval|].
  unfold w', parse_dat_file. rewrite Hdat.
  unfold exec, eval, mbind, M_bind, mret, M_ret, log.
  cbn [fst snd files logged].
  set (w1 := World (files w) (logged w ++ ["Parsing DAT file: " +:+ path])).
  pose proof (scan_loop_not_storing (findall_desc "game" root) mgr w1 Hnone)
    as Hmgr. unfold eval in Hmgr.
  destruct (for_each scan_game mgr (findall_desc "game" root) w1)
    as [mgr2 w2]. cbn [fst] in Hmgr. subst mgr2. cbn [fst snd].
  rewrite Hempty, map_size_empty.
  rewrite (bool_decide_eq_true_2 (Z.of_nat 0 = 0)) by done.
  rewrite <- Nat2Z.inj_add. fold total.
  exists (logged w2). destruct (decide (0 < total)%nat) as [Hpos|Hzero].
  - rewrite (bool_decide_eq_true_2 (0 < Z.of_nat total)) by lia.
    rewrite (bool_decide_eq_true_2 (0 < total)%nat) by done.
    cbn [fst snd files logged]. by rewrite <- !app_assoc.
  - rewrite (bool_decide_eq_false_2 (0 < Z.of_nat total)) by lia.
    rewrite (bool_decide_eq_false_2 (0 < total)%nat) by done.
    done.
Qed.

(** X16. Whatever the catalog and however the parse ends, [parse_dat_file]
    leaves every file of the folder alone and only adds lines to the
    log. *)
Theorem parse_dat_file_leaves_folder mgr parsed w :
  let w' := exec (parse_dat_file mgr parsed) w in
  files w' = files w ∧ ∃ added, logged w' = logged w ++ added.
Proof.
  intros w'. unfold w', parse_dat_file.
  destruct (dat_file mgr) as [path|].
  2:{ split; [done|]. exists []. by rewrite app_nil_r. }
  destruct parsed as [e| |root].
  - run_monad. split; [done|]. eexists. rewrite <- app_assoc. reflexivity.
  - run_monad. split; [done|]. eexists. rewrite <- app_assoc. reflexivity.
  - unfold exec, eval, mbind, M_bind, mret, M_ret, log.
    cbn [fst snd files logged].
    set (w1 := World (files w) (logged w ++ ["Parsing DAT file: " +:+ path])).
    destruct (scan_loop_effect (findall_desc "game" root) mgr w1)
      as (extra & Hw2 & _). unfold exec in Hw2.
    destruct (for_each scan_game mgr (findall_desc "game" root) w1)
      as [mgr2 w2]. cbn [snd] in Hw2. subst w2.
    destruct (bool_decide _); [destruct (bool_decide _)|];
      cbn [fst snd files logged]; (split; [done|]);
      eexists; unfold w1; cbn [files logged];
      rewrite <- ?app_assoc; reflexivity.
Qed.

End parse_more_claims.

(** ** From the catalog to the config files *)

Section parse_then_process.

Implicit Types (w : world) (mgr : manager) (game : element).

Lemma rfind_dot_zip n : rfind "."%char (n +:+ ".zip") = Some (String.length n).
Proof.
  induction n as [|c n IH]; [done|].
  rewrite append_cons. cbn [rfind String.length]. by rewrite IH.
Qed.

Lemma substring_app_prefix n s :
  String.substring 0 (String.length n) (n +:+ s) = n.
Proof.
  induction n as [|c n IH].
  - rewrite append_nil_l. by destruct s.
  - rewrite append_cons. cbn [String.length String.substring]. by rewrite IH.
Qed.

Lemma substring_app_suffix n m s :
  String.substring (String.length n) m (n +:+ s) = String.substring 0 m s.
Proof.
  induction n as [|c n IH]; [done|].
  rewrite append_cons. cbn [String.length String.substring]. exact IH.
Qed.

(** [Path.stem] takes the [.zip] off a ROM file name. *)
Lemma stem_zip n : n ≠ EmptyString → stem (n +:+ ".zip") = n.
Proof.
  intros Hn. unfold stem. rewrite rfind_dot_zip, string_app_length.
  rewrite bool_decide_eq_true_2.
  - apply substring_app_prefix.
  - destruct n; [done|]. cbn [String.length]. lia.
Qed.

Lemma endswith_app n suffix : endswith suffix (n +:+ suffix) = true.
Proof.
  unfold endswith. rewrite string_app_length.
  rewrite bool_decide_eq_true_2 by lia. cbn [andb].
  replace (String.length n + String.length suffix - String.length suffix)%nat
    with (String.length n) by lia.
  rewrite substring_app_suffix.
  pose proof (substring_app_prefix suffix EmptyString) as Hs.
  rewrite append_nil_r in Hs. rewrite Hs. apply String.eqb_refl.
Qed.

Lemma processed_entry_intro mgr rom_files rom_file dat :
  rom_file ∈ rom_files →
  game_resolutions mgr !! stem rom_file = Some dat →
  processed_entry mgr rom_files (config_path_of (stem rom_file)) = Some dat.
Proof.
  intros Hin Hdat.
  destruct (processed_entry mgr rom_files (config_path_of (stem rom_file)))
    as [dat'|] eqn:He.
  - apply processed_entry_Some in He as (f & _ & Hp & Hf).
    apply config_path_of_inj in Hp. rewrite Hp in Hf. congruence.
  - exfalso. revert He. induction Hin as [f l|f f' l Hin IH];
      rewrite processed_entry_cons.
    + rewrite bool_decide_eq_true_2 by done. by rewrite Hdat.
    + case_bool_decide; [|exact (IH Hdat)].
      destruct (game_resolutions mgr !! stem f'); [done|exact (IH Hdat)].
Qed.

(** The manager [parse_dat_file] returns for a catalog in which [game] is
    the last element of its name with a valid resolution. *)
Lemma parse_dat_file_stored
    mgr path root before game after game_name width_text height_text wd ht w :
  dat_file mgr = Some path →
  findall_desc "game" root = before ++ game :: after →
  get game "name" = Some game_name →
  game_name ≠ EmptyString →
  scr_width (lookup_screen game) = Some width_text →
  scr_height (lookup_screen game) = Some height_text →
  py_int width_text = Some wd →
  py_int height_text = Some ht →
  (∀ g, g ∈ after → get g "name" = Some game_name →
        valid_resolution g = false) →
  ∃ mgr',
    eval (parse_dat_file mgr (ET_Tree root)) w = inr mgr'
    ∧ same_settings mgr mgr'
    ∧ game_resolutions mgr' !! game_name = Some (wd, ht).
Proof.
  intros Hdat Hgames Hname Hne Hw Hh Hwd Hht Hlast.
  destruct (parse_dat_file_tree mgr path root w Hdat) as [Heval _].
  eexists. split; [exact Heval|]. split.
  - edestruct scan_loop_invariant as [Hsame _]. exact Hsame.
  - rewrite Hgames, eval_for_each_app. cbn [for_each]. rewrite eval_bind.
    set (mgr1 := eval (for_each scan_game mgr before) _).
    set (w1 := exec (for_each scan_game mgr before) _).
    destruct (scan_game_valid mgr1 game game_name width_text height_text
                wd ht w1 Hname Hne Hw Hh Hwd Hht) as (_ & _ & Hres & _).
    edestruct scan_loop_effect as (? & _ & Hmaps).
    destruct (Hmaps game_name Hlast) as [-> _].
    by rewrite Hres, lookup_insert_eq.
Qed.

(** X17. The batch run, [parse_dat_file] and then [process_roms] on the manager
    it returns: for a game of the catalog with a valid resolution whose
    ROM file [name.zip] is in the ROM folder, the target [name.zip.cfg]
    ends with the override width and height where the manager has them
    and the catalog's otherwise, the override position or 0, and the
    aspect-ratio index 23. *)
Theorem parse_then_process_roms
    mgr path root before game after game_name width_text height_text wd ht
    folder names w :
  dat_file mgr = Some path →
  findall_desc "game" root = before ++ game :: after →
  get game "name" = Some game_name →
  game_name ≠ EmptyString →
  scr_width (lookup_screen game) = Some width_text →
  scr_height (lookup_screen game) = Some height_text →
  py_int width_text = Some wd →
  py_int height_text = Some ht →
  (∀ g, g ∈ after → get g "name" = Some game_name →
        valid_resolution g = false) →
  rom_folder mgr = Some folder →
  game_name +:+ ".zip" ∈ names →
  ∃ mgr',
    eval (parse_dat_file mgr (ET_Tree root)) w = inr mgr'
    ∧ let w1 := exec (parse_dat_file mgr (ET_Tree root)) w in
      let config' :=
        config_of (files (exec (process_roms mgr' (Some names)) w1))
                  (game_name +:+ ".zip.cfg") in
      config' !! "custom_viewport_width"
      = Some (quoted (str_int (default wd (override_width mgr))))
      ∧ config' !! "custom_viewport_height"
        = Some (quoted (str_int (default ht (override_height mgr))))
      ∧ config' !! "custom_viewport_x"
        = Some (quoted (str_int (default 0 (override_x mgr))))
      ∧ config' !! "custom_viewport_y"
        = Some (quoted (str_int (default 0 (override_y mgr))))
      ∧ config' !! "aspect_ratio_index" = Some (quoted "23").
Proof.
  intros Hdat Hgames Hname Hne Hw Hh Hwd Hht Hlast Hfolder Hrom.
  destruct (parse_dat_file_stored mgr path root before game after game_name
              width_text height_text wd ht w
              Hdat Hgames Hname Hne Hw Hh Hwd Hht Hlast)
    as (mgr' & Heval & Hsame & Hres).
  exists mgr'. split; [exact Heval|]. intros w1 config'.
  destruct Hsame as (_ & Hrf & _ & How & Hoh & Hox & Hoy).
  assert (Hentry : processed_entry mgr' (listed_roms mgr' (Some names))
                     (config_path_of game_name) = Some (wd, ht)).
  { replace (config_path_of game_name)
      with (config_path_of (stem (game_name +:+ ".zip")))
      by (by rewrite stem_zip).
    apply processed_entry_intro; [|by rewrite stem_zip].
    unfold listed_roms. rewrite Hrf, Hfolder.
    apply list_elem_of_filter. split; [|done].
    by rewrite endswith_app. }
  unfold config'. change (game_name +:+ ".zip.cfg")
    with (config_path_of game_name).
  rewrite process_roms_config_of, Hentry.
  unfold set_viewport, effective, or_zero. cbn [fst snd].
  rewrite How, Hoh, Hox, Hoy.
  repeat split; by simplify_map_eq.
Qed.

End parse_then_process.

(** ** Reading a config file, continued *)

Section read_more.

Implicit Types (config : gmap string string).

(** X18. The record read from any file survives being written and read again:
    rewriting a file, whatever was in it, loses no setting and changes
    none. *)
Theorem rewrite_keeps_record content :
  parse_config (serialize (parse_config content)) = parse_config content.
Proof. apply parse_config_serialize, parse_config_clean. Qed.

Lemma strip_line_end body :
  strip (body +:+ String LF EmptyString) = strip body.
Proof.
  unfold strip. rewrite <- !lstrip_rstrip.
  by rewrite (rstrip_app_space _ (String LF EmptyString)).
Qed.

Lemma read_line_end config body :
  read_line config (body +:+ String LF EmptyString) = read_line config body.
Proof. unfold read_line. by rewrite strip_line_end. Qed.

Lemma read_line_ignored config body :
  ignored_line body = true → read_line config body = config.
Proof.
  unfold ignored_line, read_line.
  destruct (contains EQUALS (strip body)); [|done].
  cbn [negb orb andb]. by intros ->.
Qed.

Lemma parse_config_lines bodies :
  Forall no_newline bodies →
  parse_config (text_of_lines bodies) = foldl read_line ∅ bodies.
Proof.
  intros Hb. unfold parse_config, text_of_lines.
  assert (Hcr : all_chars (λ c, negb (Ascii.eqb c CR))
                  (join ((λ body, body +:+ String LF EmptyString)
                           <$> bodies)) = true).
  { induction Hb as [|b l [_ Hb]%no_newline_split _ IH]; [done|].
    rewrite fmap_cons, join_cons, !all_chars_app, Hb, IH. done. }
  rewrite universal_newlines_id by done.
  assert (Hlines : readlines (join ((λ body, body +:+ String LF EmptyString)
                                      <$> bodies))
                   = (λ body, body +:+ String LF EmptyString) <$> bodies).
  { clear Hcr. induction Hb as [|b l [Hb _]%no_newline_split _ IH]; [done|].
    rewrite fmap_cons, join_cons, append_assoc.
    rewrite (append_cons LF EmptyString), append_nil_l.
    by rewrite readlines_line, IH. }
  rewrite Hlines. generalize (∅ : gmap string string).
  clear. induction bodies as [|b l IH]; intros acc; [done|].
  rewrite fmap_cons. cbn [foldl]. by rewrite read_line_end, IH.
Qed.

(** X19. Comment lines, blank lines and lines without an equals sign count for
    nothing: the record read from a file is the record read from the same
    file without them. *)
Theorem read_config_file_ignores_comments bodies :
  Forall no_newline bodies →
  parse_config (text_of_lines bodies)
  = parse_config (text_of_lines (filter (λ b, ¬ ignored_line b) bodies)).
Proof.
  intros Hb.
  assert (Hf : Forall no_newline (filter (λ b, ¬ ignored_line b) bodies)).
  { apply Forall_forall. intros b [_ Hin]%list_elem_of_filter.
    by apply (proj1 (Forall_forall _ _) Hb). }
  rewrite (parse_config_lines bodies Hb), (parse_config_lines _ Hf).
  generalize (∅ : gmap string string). clear.
  induction bodies as [|b l IH]; intros acc; [done|].
  rewrite filter_cons. destruct (ignored_line b) eqn:Hi.
  - rewrite decide_False by naive_solver.
    cbn [foldl]. by rewrite read_line_ignored.
  - rewrite decide_True by naive_solver. cbn [foldl]. apply IH.
Qed.

(** X20. A key given twice takes its last value: a line [key=value] at the end
    of a file decides what the file gives the key, whatever the lines
    before it. *)
Theorem read_config_file_last_line_wins bodies key value :
  Forall no_newline bodies →
  no_newline key → no_newline value →
  contains EQUALS key = false →
  startswith HASH (lstrip key) = false →
  parse_config (text_of_lines (bodies ++ [key +:+ String EQUALS value]))
    !! strip key
  = Some (strip value).
Proof.
  intros Hb Hk Hv Heq Hhash. rewrite parse_config_lines.
  - rewrite foldl_app. cbn [foldl]. rewrite read_line_split.
    + apply lookup_insert_eq.
    + done.
    + destruct (lstrip key); [done|]. by rewrite append_cons.
  - apply Forall_app. split; [done|]. constructor; [|done].
    apply no_newline_split in Hk as [Hk1 Hk2].
    apply no_newline_split in Hv as [Hv1 Hv2].
    apply no_newline_split. rewrite !all_chars_app. cbn [all_chars].
    by rewrite Hk1, Hk2, Hv1, Hv2.
Qed.

End read_more.

(** ** Backup and restore *)

Section archive_facts.

Implicit Types (w : world) (mgr : manager) (d : disk) (lib : zip_library)
  (members : list (string * member_data)).

Lemma elem_of_glob_cfg w p :
  p ∈ eval glob_cfg w ↔ endswith ".cfg" p = true ∧ is_Some (files w !! p).
Proof.
  unfold eval, glob_cfg. cbn [fst].
  rewrite list_elem_of_filter, list_elem_of_fmap. split.
  - intros [Hend ([p' c] & -> & Hin%elem_of_map_to_list)]. cbn in *.
    split; [by destruct (endswith _ _)|eauto].
  - intros [Hend [c Hc]]. split; [by rewrite Hend|].
    exists (p, c). split; [done|]. by apply elem_of_map_to_list.
Qed.

Lemma NoDup_glob_cfg w : NoDup (eval glob_cfg w).
Proof.
  unfold eval, glob_cfg. cbn [fst].
  apply NoDup_filter, NoDup_fst_map_to_list.
Qed.

Lemma elem_of_members_of fs names n c :
  (n, c) ∈ members_of fs names ↔ n ∈ names ∧ fs !! n = Some c.
Proof.
  unfold members_of. rewrite list_elem_of_omap. split.
  - intros (n' & Hin & Hf). destruct (fs !! n') eqn:Hn; [|done].
    cbn in Hf. by simplify_eq.
  - intros [Hin Hn]. exists n. by rewrite Hn.
Qed.

Lemma members_of_names fs names :
  (members_of fs names).*1 = filter (λ n, is_Some (fs !! n)) names.
Proof.
  unfold members_of. induction names as [|n l IH]; [done|].
  rewrite filter_cons. cbn [omap list_omap].
  destruct (fs !! n) eqn:Hn; cbn.
  - f_equal. apply IH.
  - apply IH.
Qed.


(** With distinct member names, extraction finds the member of that
    name. *)
Lemma zip_read_NoDup members n c :
  NoDup members.*1 → (n, c) ∈ members → zip_read members n = Some c.
Proof.
  unfold zip_read. induction members as [|[n' c'] l IH]; intros Hnd Hin.
  - by apply elem_of_nil in Hin.
  - rewrite fmap_cons in Hnd. apply NoDup_cons in Hnd as [Hn' Hnd].
    rewrite filter_cons. cbn [fst].
    apply elem_of_cons in Hin as [[= -> ->]|Hin].
    + rewrite decide_True by done.
      assert (filter (λ m, m.1 = n') l = []) as ->; [|done].
      apply elem_of_nil_inv. intros [n c] [Hn Hm]%list_elem_of_filter.
      cbn in Hn. subst. apply Hn'. apply list_elem_of_fmap.
      by exists (n', c).
    + rewrite decide_False.
      * by apply IH.
      * intros ->. apply Hn'. apply list_elem_of_fmap. by exists (n, c).
Qed.

Lemma zip_read_is_Some members n :
  n ∈ members.*1 → is_Some (zip_read members n).
Proof.
  intros ([n' c] & -> & Hin)%list_elem_of_fmap. unfold zip_read. cbn.
  assert (Hf : (n', c) ∈ filter (λ m, m.1 = n') members)
    by (by apply list_elem_of_filter).
  destruct (filter (λ m, m.1 = n') members) as [|m l] eqn:He using rev_ind.
  - by apply elem_of_nil in Hf.
  - rewrite last_snoc. by eexists.
Qed.

Lemma elem_of_cfg_members members f :
  f ∈ cfg_members members ↔ f ∈ members.*1 ∧ endswith ".cfg" f = true.
Proof.
  unfold cfg_members. rewrite list_elem_of_filter.
  destruct (endswith ".cfg" f); naive_solver.
Qed.

(** One turn of the loop of [restore_configs], case by case. *)
Lemma restore_step_run backup_path members overwrite counts f d :
  let skip := bool_decide (is_Some (folder d !! f)) && negb overwrite in
  match restore_step backup_path members overwrite counts f d with
  | None =>
      plain_name f = false
      ∨ skip = false
        ∧ (path_name backup_path = Some f ∨ zip_read members f = None)
  | Some (outcome, d') =>
      plain_name f = true
      ∧ folder_present d' = folder_present d ∧ elsewhere d' = elsewhere d
      ∧ if skip
        then outcome = inr (counts.1, counts.2 + 1) ∧ folder d' = folder d
        else path_name backup_path ≠ Some f
             ∧ match zip_read members f with
               | Some (Stored content) =>
                   outcome = inr (counts.1 + 1, counts.2)
                   ∧ folder d' = <[f := content]> (folder d)
               | Some (Damaged bad_zip message remains) =>
                   outcome = inl (if bad_zip then BadZipFile
                                  else OtherError message)
                   ∧ folder d' = match remains with
                                 | Some part => <[f := part]> (folder d)
                                 | None => folder d
                                 end
               | None => False
               end
  end.
Proof.
  intros skip. unfold skip, restore_step, folder.
  destruct (plain_name f); cbn [negb]; [|by left].
  unfold mbind, MD_bind, mret, MD_ret, on_world, unmodelled, path_exists,
    write_text, log.
  cbn [fst snd disk_world folder_present elsewhere files logged].
  destruct (bool_decide (is_Some (files (disk_world d) !! f)) && negb overwrite);
    [done|].
  case_bool_decide as Hself; [right; by eauto|].
  destruct (zip_read members f) as [[content|bad_zip message [part|]]|];
    cbn [fst snd disk_world folder_present elsewhere files logged];
    [done..|right; by eauto].
Qed.

End archive_facts.

Section archive_loop.

Implicit Types (w : world) (mgr : manager) (d : disk) (lib : zip_library)
  (members : list (string * member_data)).

(** What the loop of [restore_configs] leaves alone, however it ends:
    the files outside the folder, the files it is not told to restore
    and, without [overwrite], every file that was there. *)
Lemma restore_loop_frame backup_path members overwrite names counts d
    outcome d' :
  restore_loop backup_path members overwrite counts names d
  = Some (outcome, d') →
  folder_present d' = folder_present d ∧ elsewhere d' = elsewhere d
  ∧ (∀ p, p ∉ names → folder d' !! p = folder d !! p)
  ∧ (overwrite = false → folder d ⊆ folder d')
  ∧ (∀ e, outcome = inl e → names ≠ []).
Proof.
  revert counts d. induction names as [|f l IH]; intros counts d Hrun.
  - cbn in Hrun. injection Hrun as <- <-. by repeat split.
  - cbn [restore_loop] in Hrun. unfold mbind, MD_bind in Hrun.
    pose proof (restore_step_run backup_path members overwrite counts f d)
      as Hstep. cbv zeta in Hstep.
    destruct (restore_step backup_path members overwrite counts f d)
      as [[out d1]|]; [|done].
    destruct Hstep as (_ & Hp & He & Hstep).
    assert (Hother : ∀ p, p ≠ f → folder d1 !! p = folder d !! p).
    { intros p Hpf. destruct (_ && _); [by destruct Hstep as [_ ->]|].
      destruct Hstep as [_ Hstep].
      destruct (zip_read members f) as [[content|bz msg [part|]]|];
        [destruct Hstep as [_ ->]..|done];
        by rewrite ?lookup_insert_ne. }
    assert (Hkeep : overwrite = false → folder d ⊆ folder d1).
    { intros ->. rewrite andb_true_r in Hstep.
      case_bool_decide as Hf; [by destruct Hstep as [_ ->]|].
      assert (folder d !! f = None) as Hnone.
      { destruct (folder d !! f) eqn:E; [|done]. destruct Hf. by eauto. }
      destruct Hstep as [_ Hstep].
      destruct (zip_read members f) as [[content|bz msg [part|]]|];
        [destruct Hstep as [_ ->]..|done];
        try by apply insert_subseteq. done. }
    destruct out as [e|counts'].
    + cbn in Hrun. injection Hrun as <- <-.
      split; [done|]. split; [done|]. split.
      * intros p Hpn. apply Hother. intros ->. apply Hpn, list_elem_of_here.
      * split; [done|]. by intros.
    + destruct (IH _ _ Hrun) as (Hp' & He' & Hfr & Hk & _).
      split; [congruence|]. split; [congruence|]. split.
      * intros p Hpn. rewrite Hfr, Hother; [done|..].
        -- intros ->. apply Hpn, list_elem_of_here.
        -- intros ?. by apply Hpn, list_elem_of_further.
      * split; [|done]. intros Ho. etrans; [by apply Hkeep|by apply Hk].
Qed.

(** The loop is within the model when the names are plain names of
    members, none of them the archive's own where files are
    overwritten. *)
Lemma restore_loop_defined backup_path members overwrite names counts d :
  (∀ f, f ∈ names → plain_name f ∧ f ∈ members.*1) →
  (overwrite = true → ∀ f, f ∈ names → path_name backup_path ≠ Some f) →
  (overwrite = false →
   ∀ f, path_name backup_path = Some f → is_Some (folder d !! f)) →
  is_Some (restore_loop backup_path members overwrite counts names d).
Proof.
  revert counts d. induction names as [|f l IH];
    intros counts d Hnames Hover Hkeep; [by eexists|].
  cbn [restore_loop]. unfold mbind, MD_bind.
  pose proof (restore_step_run backup_path members overwrite counts f d)
    as Hstep. cbv zeta in Hstep.
  pose proof (restore_loop_frame backup_path members overwrite [f] counts d)
    as Hframe. cbn [restore_loop] in Hframe. unfold mbind, MD_bind in Hframe.
  destruct (Hnames f (list_elem_of_here _ _)) as [Hplain Hin].
  destruct (restore_step backup_path members overwrite counts f d)
    as [[out d1]|].
  - destruct out as [e|counts']; [by eexists|].
    apply IH.
    + intros f' Hf'. by apply Hnames, list_elem_of_further.
    + intros Ho f' Hf'. by apply Hover, list_elem_of_further.
    + intros Ho f' Hf'. destruct (Hkeep Ho f' Hf') as [c Hc].
      destruct (Hframe (inr counts') d1 eq_refl) as (_ & _ & _ & Hsub & _).
      exists c. eapply lookup_weaken; [exact Hc|by apply Hsub].
  - exfalso. destruct Hstep as [Hbad|[Hskip [Hself|Hread]]].
    + rewrite Hbad in Hplain. done.
    + destruct overwrite.
      * by apply (Hover eq_refl f (list_elem_of_here _ _)).
      * rewrite andb_true_r in Hskip.
        apply bool_decide_eq_false in Hskip. by apply Hskip, Hkeep.
    + destruct (zip_read_is_Some members f Hin) as [c Hc]. congruence.
Qed.

(** The loop on an intact archive: no exception, the files, and the
    counters. *)
Lemma restore_loop_intact backup_path members overwrite names counts d :
  (∀ f, f ∈ names →
        plain_name f ∧ ∃ content, zip_read members f = Some (Stored content)) →
  (overwrite = true → ∀ f, f ∈ names → path_name backup_path ≠ Some f) →
  (overwrite = false →
   ∀ f, path_name backup_path = Some f → is_Some (folder d !! f)) →
  ∃ r d',
    restore_loop backup_path members overwrite counts names d
    = Some (inr r, d')
    ∧ (∀ p, folder d' !! p
            = if bool_decide (p ∈ names)
                 && (overwrite || bool_decide (folder d !! p = None))
              then match zip_read members p with
                   | Some (Stored content) => Some content
                   | _ => None
                   end
              else folder d !! p)
    ∧ r.1 + r.2 = counts.1 + counts.2 + Z.of_nat (length names)
    ∧ counts.1 ≤ r.1 ∧ counts.2 ≤ r.2
    ∧ (overwrite = true →
       r = (counts.1 + Z.of_nat (length names), counts.2))
    ∧ (overwrite = false → (∀ f, f ∈ names → is_Some (folder d !! f)) →
       r = (counts.1, counts.2 + Z.of_nat (length names)))
    ∧ (NoDup names → (∀ f, f ∈ names → folder d !! f = None) →
       r = (counts.1 + Z.of_nat (length names), counts.2)).
Proof.
  revert counts d. induction names as [|f l IH];
    intros [c1 c2] d Hnames Hover Hkeep.
  - exists (c1, c2), d. split; [done|]. cbn [fst snd length].
    split.
    { intros p. by rewrite bool_decide_eq_false_2 by apply not_elem_of_nil. }
    repeat split; intros; (lia || f_equal; lia).
  - cbn [restore_loop]. unfold mbind, MD_bind.
    pose proof (restore_step_run backup_path members overwrite (c1, c2) f d)
      as Hstep. cbv zeta in Hstep.
    destruct (Hnames f (list_elem_of_here _ _)) as [Hplain [content Hread]].
    destruct (restore_step backup_path members overwrite (c1, c2) f d)
      as [[out d1]|].
    2:{ exfalso. destruct Hstep as [Hbad|[Hskip [Hself|Hnone]]].
        - by rewrite Hbad in Hplain.
        - destruct overwrite.
          + by apply (Hover eq_refl f (list_elem_of_here _ _)).
          + rewrite andb_true_r in Hskip.
            apply bool_decide_eq_false in Hskip. by apply Hskip, Hkeep.
        - congruence. }
    destruct Hstep as (_ & _ & _ & Hstep). rewrite Hread in Hstep.
    set (skip := bool_decide (is_Some (folder d !! f)) && negb overwrite)
      in *.
    assert (Hout : out = inr (if skip then (c1, c2 + 1) else (c1 + 1, c2))
                   ∧ folder d1 = if skip then folder d
                                 else <[f := content]> (folder d)).
    { destruct skip; [done|]. by destruct Hstep as [_ ?]. }
    destruct Hout as [-> Hfs]. clear Hstep.
    assert (Hsub : overwrite = false → folder d ⊆ folder d1).
    { intros ->. rewrite Hfs. unfold skip. rewrite andb_true_r.
      case_bool_decide as Hf; [done|]. apply insert_subseteq.
      destruct (folder d !! f) eqn:E; [|done]. destruct Hf. by eauto. }
    destruct (IH (if skip then (c1, c2 + 1) else (c1 + 1, c2)) d1)
      as (r & d' & Hrun & Hfiles & Hsum & H1 & H2 & Hall & Hnone & Hfresh).
    { intros f' Hf'. by apply Hnames, list_elem_of_further. }
    { intros Ho f' Hf'. by apply Hover, list_elem_of_further. }
    { intros Ho f' Hf'. destruct (Hkeep Ho f' Hf') as [c Hc].
      exists c. eapply lookup_weaken; [exact Hc|by apply Hsub]. }
    exists r, d'. split; [exact Hrun|]. cbn [fst snd length] in *. split.
    { intros p. rewrite Hfiles.
      destruct (decide (p = f)) as [->|Hp].
      - rewrite (bool_decide_eq_true_2 (f ∈ f :: l))
          by apply list_elem_of_here.
        cbn [andb]. rewrite Hfs, Hread. unfold skip.
        destruct (folder d !! f) as [old|] eqn:Hold.
        + rewrite (bool_decide_eq_true_2 (is_Some (Some old))) by eauto.
          rewrite (bool_decide_eq_false_2 (Some old = None)) by done.
          destruct overwrite; cbn [negb andb orb].
          * rewrite lookup_insert_eq. by destruct (bool_decide (f ∈ l)).
          * rewrite Hold.
            rewrite (bool_decide_eq_false_2 (Some old = None)) by done.
            by rewrite andb_false_r.
        + rewrite (bool_decide_eq_false_2 (is_Some None))
            by (by intros [? ?]).
          cbn [andb]. rewrite lookup_insert_eq.
          rewrite (bool_decide_eq_true_2 (None = None)) by done.
          rewrite orb_true_r.
          by destruct (bool_decide (f ∈ l) && _).
      - assert (Hsame : folder d1 !! p = folder d !! p).
        { rewrite Hfs. destruct skip; [done|]. by rewrite lookup_insert_ne. }
        rewrite Hsame.
        rewrite (bool_decide_ext (p ∈ f :: l) (p ∈ l)); [done|].
        rewrite elem_of_cons. naive_solver. }
    destruct skip eqn:Hskip; cbn [fst snd] in *.
    + split; [lia|]. split; [lia|]. split; [lia|]. split; [|split].
      * intros ->. unfold skip in Hskip. by rewrite andb_false_r in Hskip.
      * intros Ho Hpresent. rewrite Hnone; [f_equal; lia|done|].
        intros f' Hf'. rewrite Hfs. by apply Hpresent, list_elem_of_further.
      * intros Hnd Habsent. unfold skip in Hskip.
        rewrite (Habsent f (list_elem_of_here _ _)) in Hskip.
        rewrite (bool_decide_eq_false_2 (is_Some None)) in Hskip; [done|].
        by intros [? ?].
    + split; [lia|]. split; [lia|]. split; [lia|]. split; [|split].
      * intros Ho. rewrite (Hall Ho). f_equal; lia.
      * intros -> Hpresent. unfold skip in Hskip.
        rewrite bool_decide_eq_true_2 in Hskip; [done|].
        apply Hpresent, list_elem_of_here.
      * intros Hnd Habsent. apply NoDup_cons in Hnd as [Hfl Hnd].
        rewrite Hfresh; [f_equal; lia|done|].
        intros f' Hf'. rewrite Hfs, lookup_insert_ne by (by intros ->).
        by apply Habsent, list_elem_of_further.
Qed.

End archive_loop.

Section archive_claims.

Implicit Types (w : world) (mgr : manager) (d : disk) (lib : zip_library)
  (members : list (string * member_data)).

Lemma filter_all {A} (P : A → Prop) `{!∀ x, Decision (P x)} (l : list A) :
  (∀ x, x ∈ l → P x) → filter P l = l.
Proof.
  induction l as [|a l IH]; intros Hall; [done|].
  rewrite filter_cons, decide_True by apply Hall, list_elem_of_here.
  f_equal. apply IH. intros x Hx. by apply Hall, list_elem_of_further.
Qed.

Lemma nonempty_elem {A} (l : list A) : l ≠ [] → ∃ x, x ∈ l.
Proof. destruct l as [|x l]; [done|]. exists x. apply list_elem_of_here. Qed.


Lemma on_world_glob_cfg d :
  on_world glob_cfg d = Some (eval glob_cfg (disk_world d), d).
Proof. by destruct d. Qed.

(** [backup_configs], on its paths. *)
Lemma backup_configs_run lib mgr backup_path timestamp d :
  let cfgs := eval glob_cfg (disk_world d) in
  match output_folder mgr with
  | None =>
      ∃ message d',
        backup_configs lib mgr backup_path timestamp d
        = Some ((false, None, Some message), d')
        ∧ folder d' = folder d ∧ folder_present d' = folder_present d
        ∧ elsewhere d' = elsewhere d
  | Some config_folder =>
      let path := default (default_backup_path config_folder timestamp)
                          backup_path in
      if negb (folder_present d) || bool_decide (cfgs = [])
      then ∃ message d',
             backup_configs lib mgr backup_path timestamp d
             = Some ((false, None, Some message), d')
             ∧ folder d' = folder d ∧ folder_present d' = folder_present d
             ∧ elsewhere d' = elsewhere d
      else
        backup_configs lib mgr backup_path timestamp d
        = match write_zip lib path cfgs d with
          | None => None
          | Some (Some message, d1) =>
              Some ((false, None, Some ("Backup failed: " +:+ message)),
                    Disk (World (folder d1)
                                (logged (disk_world d1)
                                 ++ ["Backup failed: " +:+ message]))
                         (folder_present d1) (elsewhere d1))
          | Some (None, d1) =>
              Some ((true, Some path, None),
                    Disk (World (folder d1)
                                (logged (disk_world d1)
                                 ++ ["Backup created: " +:+ path_text path]
                                 ++ ["Backed up "
                                     +:+ str_int (Z.of_nat (length cfgs))
                                     +:+ " config files"]))
                         (folder_present d1) (elsewhere d1))
          end
  end.
Proof.
  intros cfgs. unfold cfgs, backup_configs.
  destruct (output_folder mgr) as [config_folder|].
  2:{ eexists _, _. split; [reflexivity|done]. }
  cbv zeta. unfold mbind, MD_bind, folder_exists. cbv beta iota.
  destruct (folder_present d) eqn:Hpresent; cbn [negb orb].
  2:{ eexists _, _. split; [reflexivity|]. cbn. by rewrite Hpresent. }
  rewrite on_world_glob_cfg. cbv beta iota.
  destruct (eval glob_cfg (disk_world d)) as [|c l] eqn:Hc.
  - rewrite bool_decide_eq_true_2 by done.
    eexists _, _. split; [reflexivity|]. cbn. by rewrite Hpresent.
  - rewrite bool_decide_eq_false_2 by done.
    destruct (write_zip lib _ (c :: l) d) as [[[message|] d1]|]; [..|done].
    + reflexivity.
    + unfold mret, MD_ret, on_world, log. cbn. by rewrite <- app_assoc.
Qed.

End archive_claims.

Section backup_claims.

Implicit Types (w : world) (mgr : manager) (d : disk) (lib : zip_library)
  (members : list (string * member_data)).


End backup_claims.

Section restore_claims.

Implicit Types (w : world) (mgr : manager) (d : disk) (lib : zip_library)
  (members : list (string * member_data)).

Lemma restore_error_run error_msg d :
  ∃ d', restore_error error_msg d = Some ((0, 0, Some error_msg), d')
        ∧ folder d' = folder d ∧ folder_present d' = folder_present d
        ∧ elsewhere d' = elsewhere d.
Proof. by eexists. Qed.

Ltac restore_error_case :=
  lazymatch goal with
  | |- ∃ message d', restore_error ?m ?d = _ ∧ _ =>
      let d' := fresh "d'" in
      let Hrun := fresh in let Hf := fresh in
      let Hp := fresh in let He := fresh in
      destruct (restore_error_run m d) as (d' & Hrun & Hf & Hp & He);
      exists m, d'; split; [exact Hrun|]; split; [exact Hf|];
      split; [congruence|exact He]
  end.

(** [restore_configs] when it stops before the loop. *)
Lemma restore_configs_fails lib mgr backup_path overwrite d :
  (output_folder mgr = None ∨ folder_present d = false
   ∨ ∀ members, archive_at lib d backup_path = Some (Zip members) →
                cfg_members members = []) →
  ∃ message d',
    restore_configs lib mgr backup_path overwrite d
    = Some ((0, 0, Some message), d')
    ∧ folder d' = folder d ∧ folder_present d' = folder_present d
    ∧ elsewhere d' = elsewhere d.
Proof.
  intros Hcases. unfold restore_configs.
  destruct (output_folder mgr) as [config_folder|]; [|restore_error_case].
  unfold mbind, MD_bind, folder_exists, read_bytes. cbv beta iota.
  destruct (folder_present d) eqn:Hpresent; cbn [negb];
    [|restore_error_case].
  destruct Hcases as [?|[?|Hnone]]; [done..|].
  unfold archive_at in Hnone.
  destruct (bytes_at d backup_path) as [bytes|]; [|restore_error_case].
  cbn [fmap option_fmap option_map] in Hnone.
  destruct (unzip lib bytes) as [|message|members];
    [restore_error_case..|].
  fold (cfg_members members). rewrite (Hnone members eq_refl).
  restore_error_case.
Qed.

(** [restore_configs] when it reaches the loop. *)
Lemma restore_configs_run lib mgr backup_path overwrite d config_folder
    members :
  output_folder mgr = Some config_folder →
  folder_present d = true →
  archive_at lib d backup_path = Some (Zip members) →
  cfg_members members ≠ [] →
  match restore_loop backup_path members overwrite (0, 0)
                     (cfg_members members) d with
  | None => restore_configs lib mgr backup_path overwrite d = None
  | Some (outcome, d1) =>
      ∃ d',
        restore_configs lib mgr backup_path overwrite d
        = Some (match outcome with
                | inr counts => (counts.1, counts.2, None)
                | inl BadZipFile =>
                    (0, 0,
                     Some "Invalid backup file (not a valid zip archive)")
                | inl (OtherError message) =>
                    (0, 0, Some ("Restore failed: " +:+ message))
                end, d')
        ∧ folder d' = folder d1 ∧ folder_present d' = folder_present d1
        ∧ elsewhere d' = elsewhere d1
  end.
Proof.
  intros Hfolder Hpresent Harch Hcfgs.
  remember (restore_configs lib mgr backup_path overwrite d) as result
    eqn:Hres.
  unfold restore_configs in Hres. rewrite Hfolder in Hres.
  unfold mbind, MD_bind, folder_exists, read_bytes in Hres.
  cbv beta iota in Hres. rewrite Hpresent in Hres. cbn [negb] in Hres.
  unfold archive_at in Harch.
  destruct (bytes_at d backup_path) as [bytes|]; [|done].
  cbn [fmap option_fmap option_map] in Harch. injection Harch as Harch.
  rewrite Harch in Hres. fold (cfg_members members) in Hres.
  revert Hcfgs Hres.
  destruct (cfg_members members) as [|f l]; [done|]. intros _.
  destruct (restore_loop backup_path members overwrite (0, 0) (f :: l) d)
    as [[[[|message]|counts] d1]|]; intros ->; [..|done].
  - apply restore_error_run.
  - apply restore_error_run.
  - by eexists.
Qed.

End restore_claims.

Section restore_results.

Implicit Types (w : world) (mgr : manager) (d : disk) (lib : zip_library)
  (members : list (string * member_data)).

(** The two ways of [restore_configs]: it stops before the loop, or the
    loop runs. *)
Lemma restore_configs_cases lib mgr backup_path overwrite d :
  can_restore lib d backup_path overwrite →
  (∃ message d',
     restore_configs lib mgr backup_path overwrite d
     = Some ((0, 0, Some message), d')
     ∧ folder d' = folder d ∧ folder_present d' = folder_present d
     ∧ elsewhere d' = elsewhere d
     ∧ (output_folder mgr = None ∨ folder_present d = false
        ∨ ∀ members, archive_at lib d backup_path = Some (Zip members) →
                     cfg_members members = []))
  ∨ (∃ members outcome d1 d',
       is_Some (output_folder mgr) ∧ folder_present d = true
       ∧ archive_at lib d backup_path = Some (Zip members)
       ∧ cfg_members members ≠ []
       ∧ restore_loop backup_path members overwrite (0, 0)
                      (cfg_members members) d = Some (outcome, d1)
       ∧ restore_configs lib mgr backup_path overwrite d
         = Some (match outcome with
                 | inr counts => (counts.1, counts.2, None)
                 | inl BadZipFile =>
                     (0, 0,
                      Some "Invalid backup file (not a valid zip archive)")
                 | inl (OtherError message) =>
                     (0, 0, Some ("Restore failed: " +:+ message))
                 end, d')
       ∧ folder d' = folder d1 ∧ folder_present d' = folder_present d1
       ∧ elsewhere d' = elsewhere d1).
Proof.
  intros Hcan.
  assert (Hfail :
    (output_folder mgr = None ∨ folder_present d = false
     ∨ ∀ members, archive_at lib d backup_path = Some (Zip members) →
                  cfg_members members = []) →
    ∃ message d',
      restore_configs lib mgr backup_path overwrite d
      = Some ((0, 0, Some message), d')
      ∧ folder d' = folder d ∧ folder_present d' = folder_present d
      ∧ elsewhere d' = elsewhere d
      ∧ (output_folder mgr = None ∨ folder_present d = false
         ∨ ∀ members, archive_at lib d backup_path = Some (Zip members) →
                      cfg_members members = [])).
  { intros Hcases.
    destruct (restore_configs_fails lib mgr backup_path overwrite d Hcases)
      as (message & d' & ? & ? & ? & ?). by exists message, d'. }
  destruct (output_folder mgr) as [config_folder|] eqn:Hfolder;
    [|left; apply Hfail; by left].
  destruct (folder_present d) eqn:Hpresent;
    [|left; apply Hfail; by right; left].
  destruct (archive_at lib d backup_path) as [[|message|members]|] eqn:Harch;
    [left; apply Hfail; by right; right..| |left; apply Hfail; by right; right].
  destruct (decide (cfg_members members = [])) as [Hnil|Hcfgs].
  { left. apply Hfail. right; right. by intros ? [= <-]. }
  right.
  pose proof (restore_configs_run lib mgr backup_path overwrite d
                config_folder members Hfolder Hpresent Harch Hcfgs) as Hrun.
  destruct (Hcan members Harch) as [Hplain Hapart].
  destruct (restore_loop_defined backup_path members overwrite
              (cfg_members members) (0, 0) d) as [[outcome d1] Hloop].
  { intros f Hf. split; [by apply Hplain|].
    by apply elem_of_cfg_members in Hf as [? _]. }
  { intros Ho f Hf. by apply Hapart. }
  { intros _ f Hf. unfold archive_at, bytes_at in Harch.
    rewrite Hf in Harch. destruct (folder d !! f); [by eauto|done]. }
  rewrite Hloop in Hrun. destruct Hrun as (d' & Hrun & Hf & Hp & He).
  exists members, outcome, d1, d'. by eauto 10.
Qed.

(** X22. The errors of [restore_configs], on an archive this model
    restores.  When it returns a message it reports no file restored and
    none skipped.  It returns none only if an output folder is set and
    exists and the path holds a zip archive with a [.cfg] member; without
    these it returns one and the folder is as it was.  Whatever it
    returns, it changes no file outside the folder and, in the folder, no
    file but those named by a [.cfg] member of the archive. *)
Theorem restore_configs_errors lib mgr backup_path overwrite d :
  can_restore lib d backup_path overwrite →
  ∃ r d',
    restore_configs lib mgr backup_path overwrite d = Some (r, d')
    ∧ (is_Some r.2 → r.1 = (0, 0))
    ∧ (r.2 = None →
       is_Some (output_folder mgr) ∧ folder_present d = true
       ∧ ∃ members f, archive_at lib d backup_path = Some (Zip members)
                      ∧ f ∈ members.*1 ∧ endswith ".cfg" f = true)
    ∧ (output_folder mgr = None ∨ folder_present d = false
       ∨ (∀ members, archive_at lib d backup_path = Some (Zip members) →
                     cfg_members members = []) →
       is_Some r.2 ∧ folder d' = folder d)
    ∧ folder_present d' = folder_present d ∧ elsewhere d' = elsewhere d
    ∧ ∀ p, (∀ members, archive_at lib d backup_path = Some (Zip members) →
                       p ∉ cfg_members members) →
           folder d' !! p = folder d !! p.
Proof.
  intros Hcan.
  destruct (restore_configs_cases lib mgr backup_path overwrite d Hcan)
    as [(message & d' & Hrun & Hf & Hp & He & Hwhy)
       |(members & outcome & d1 & d' & Hfolder & Hpresent & Harch & Hcfgs
         & Hloop & Hrun & Hf & Hp & He)].
  - exists (0, 0, Some message), d'. split; [exact Hrun|]. cbn [fst snd].
    split; [done|]. split; [done|]. split; [by eauto|].
    split; [done|]. split; [done|]. intros p _. by rewrite Hf.
  - eexists _, d'. split; [exact Hrun|].
    destruct (restore_loop_frame _ _ _ _ _ _ _ _ Hloop)
      as (Hp1 & He1 & Hother & _ & _).
    split.
    { by destruct outcome as [[|message]|counts]; cbn; [..|intros [? ?]]. }
    split.
    { intros _. split; [done|]. split; [done|].
      destruct (nonempty_elem _ Hcfgs) as [f [Hin Hend]%elem_of_cfg_members].
      by exists members, f. }
    split.
    { intros [Hnone|[Habsent|Hnil]]; [by destruct Hfolder as [? ?];
                                         congruence|congruence|].
      by destruct Hcfgs, (Hnil members Harch). }
    split; [congruence|]. split; [congruence|].
    intros p Hnot. rewrite Hf. apply Hother. by apply Hnot.
Qed.

(** X23. Without [overwrite], [restore_configs] only adds files: every
    file of the folder is still there afterwards, with the text it had. *)
Theorem restore_configs_keeps_existing lib mgr backup_path d :
  can_restore lib d backup_path false →
  ∃ r d',
    restore_configs lib mgr backup_path false d = Some (r, d')
    ∧ folder d ⊆ folder d'.
Proof.
  intros Hcan.
  destruct (restore_configs_cases lib mgr backup_path false d Hcan)
    as [(message & d' & Hrun & Hf & _)
       |(members & outcome & d1 & d' & _ & _ & _ & _
         & Hloop & Hrun & Hf & _)].
  - eexists _, d'. split; [exact Hrun|]. by rewrite Hf.
  - eexists _, d'. split; [exact Hrun|]. rewrite Hf.
    destruct (restore_loop_frame _ _ _ _ _ _ _ _ Hloop)
      as (_ & _ & _ & Hkeep & _).
    by apply Hkeep.
Qed.

End restore_results.

Section restore_counts.

Implicit Types (w : world) (mgr : manager) (d : disk) (lib : zip_library)
  (members : list (string * member_data)).

(** X24. A restore that goes through: an output folder that exists, and
    at the path an archive this model restores, with [.cfg] members, each
    of them intact.  No error is returned.  The two counts are together
    the number of [.cfg] members of the archive; with [overwrite] every
    member is restored; without it, when every member is already in the
    folder, every member is skipped.  A member that is overwritten, or
    was not in the folder, is there with the bytes of the archive; a
    member that was in the folder and is not overwritten keeps its
    own. *)
Theorem restore_configs_counts
    lib mgr backup_path overwrite d config_folder members :
  output_folder mgr = Some config_folder →
  folder_present d = true →
  archive_at lib d backup_path = Some (Zip members) →
  cfg_members members ≠ [] →
  plain_members members →
  (overwrite = true → apart backup_path members) →
  intact members →
  let total := Z.of_nat (length (cfg_members members)) in
  ∃ r d',
    restore_configs lib mgr backup_path overwrite d = Some (r, d')
    ∧ r.2 = None
    ∧ r.1.1 + r.1.2 = total ∧ 0 ≤ r.1.1 ∧ 0 ≤ r.1.2
    ∧ (overwrite = true → r.1 = (total, 0))
    ∧ (overwrite = false →
       (∀ f, f ∈ cfg_members members → is_Some (folder d !! f)) →
       r.1 = (0, total))
    ∧ (∀ f content,
         f ∈ cfg_members members →
         zip_read members f = Some (Stored content) →
         overwrite = true ∨ folder d !! f = None →
         folder d' !! f = Some content)
    ∧ (∀ f, f ∈ cfg_members members → overwrite = false →
            is_Some (folder d !! f) → folder d' !! f = folder d !! f).
Proof.
  intros Hfolder Hpresent Harch Hcfgs Hplain Hapart Hintact total.
  pose proof (restore_configs_run lib mgr backup_path overwrite d
                config_folder members Hfolder Hpresent Harch Hcfgs) as Hrun.
  destruct (restore_loop_intact backup_path members overwrite
              (cfg_members members) (0, 0) d)
    as (counts & d1 & Hloop & Hfiles & Hsum & H1 & H2 & Hall & Hnone & _).
  { intros f Hf. split; [by apply Hplain|by apply Hintact]. }
  { intros Ho f Hf. by apply Hapart. }
  { intros _ f Hf. unfold archive_at, bytes_at in Harch.
    rewrite Hf in Harch. destruct (folder d !! f); [by eauto|done]. }
  rewrite Hloop in Hrun. destruct Hrun as (d' & Hrun & Hf & _).
  eexists _, d'. split; [exact Hrun|]. cbn [fst snd] in *.
  fold total in Hsum, Hall, Hnone.
  split; [done|]. split; [lia|]. split; [lia|]. split; [lia|].
  split; [|split; [|split]].
  - intros Ho. by rewrite (Hall Ho).
  - intros Ho Hthere. by rewrite (Hnone Ho Hthere).
  - intros f content Hin Hread Hwhy. rewrite Hf, Hfiles, Hread.
    rewrite bool_decide_eq_true_2 by done. cbn [andb].
    destruct Hwhy as [->|Hnew]; [done|].
    rewrite (bool_decide_eq_true_2 (folder d !! f = None)) by done.
    by rewrite orb_true_r.
  - intros f Hin -> [old Hold]. rewrite Hf, Hfiles, Hold.
    rewrite (bool_decide_eq_false_2 (Some old = None)) by done.
    by rewrite andb_false_r.
Qed.

End restore_counts.

Section round_trip_archive.

Implicit Types (w : world) (mgr : manager) (d : disk) (lib : zip_library)
  (members : list (string * member_data)).

(** What a [write_zip] that raised nothing has checked and done. *)
Lemma write_zip_done lib backup_path config_files d d1 :
  write_zip lib backup_path config_files d = Some (None, d1) →
  Forall (λ n, plain_name n) config_files
  ∧ (∀ name, path_name backup_path = Some name → name ∉ config_files)
  ∧ bytes_at d1 backup_path
    = Some (zip_bytes lib (members_of (folder d) config_files)).
Proof.
  unfold write_zip, bytes_at, folder.
  destruct (forallb plain_name config_files) eqn:Hplain; [|done].
  cbn [negb]. intros Hrun.
  split; [by apply forallb_True, Is_true_true|].
  destruct (path_name backup_path) as [name|].
  - destruct (plain_name name); [|done]. cbn [negb orb] in Hrun.
    case_bool_decide as Hin; [done|]. injection Hrun as <-.
    split; [by intros ? [= <-]|]. cbn. by rewrite lookup_insert_eq.
  - split; [done|].
    destruct (elsewhere d !! path_text backup_path) as [[content|message]|];
      [|done|]; injection Hrun as <-; cbn; by rewrite lookup_insert_eq.
Qed.

Lemma stored_names (written : list (string * string)) :
  (prod_map id Stored <$> written).*1 = written.*1.
Proof. rewrite <- list_fmap_compose. by apply list_fmap_ext. Qed.

Lemma zip_read_stored (written : list (string * string)) n c :
  NoDup written.*1 → (n, c) ∈ written →
  zip_read (prod_map id Stored <$> written) n = Some (Stored c).
Proof.
  intros Hnd Hin. apply zip_read_NoDup; [by rewrite stored_names|].
  apply list_elem_of_fmap. by exists (n, c).
Qed.

(** X25. A backup restored.  Take the archive a successful
    [backup_configs] wrote, with a library that reads back what it
    writes, and restore it into a folder that exists, in whatever state
    that folder then is, with [overwrite] or into a folder that holds
    none of the backed-up names.  Every [.cfg] file of the folder as it
    was at the backup is there again with the bytes it had; every other
    file of the folder is as the restore found it; and the count restored
    is the number of files backed up, with none skipped. *)
Theorem backup_then_restore
    lib mgr backup_path timestamp d d1 path d2 overwrite :
  reads_back lib →
  backup_configs lib mgr backup_path timestamp d
  = Some ((true, Some path, None), d1) →
  folder_present d2 = true →
  bytes_at d2 path = bytes_at d1 path →
  overwrite = true
  ∨ (∀ n c, is_cfg_file (folder d) n c → folder d2 !! n = None) →
  ∃ d3,
    restore_configs lib mgr path overwrite d2
    = Some ((Z.of_nat (length (eval glob_cfg (disk_world d))), 0, None), d3)
    ∧ (∀ n c, is_cfg_file (folder d) n c → folder d3 !! n = Some c)
    ∧ (∀ p, ¬ (∃ c, is_cfg_file (folder d) p c) →
            folder d3 !! p = folder d2 !! p).
Proof.
  intros Hlib Hok Hpresent2 Hbytes Hmode.
  pose proof (backup_configs_run lib mgr backup_path timestamp d) as Hrun.
  cbv zeta in Hrun.
  pose proof (elem_of_glob_cfg (disk_world d)) as Hglob.
  pose proof (NoDup_glob_cfg (disk_world d)) as Hnd.
  set (cfgs := eval glob_cfg (disk_world d)) in *.
  destruct (output_folder mgr) as [config_folder|] eqn:Hfolder.
  2:{ destruct Hrun as (? & ? & Hrun & _). congruence. }
  destruct (negb (folder_present d) || bool_decide (cfgs = [])) eqn:Hpre.
  { destruct Hrun as (? & ? & Hrun & _). congruence. }
  apply orb_false_iff in Hpre as [_ Hcfgs%bool_decide_eq_false].
  rewrite Hok in Hrun.
  set (chosen := default (default_backup_path config_folder timestamp)
                         backup_path) in *.
  destruct (write_zip lib chosen cfgs d) as [[[message|] d0]|] eqn:Hzip;
    [done| |done].
  injection Hrun as -> Hd1.
  destruct (write_zip_done _ _ _ _ _ Hzip) as (Hplain & Hself & Hwritten).
  set (written := members_of (folder d) cfgs) in *.
  assert (Hsame : bytes_at d1 chosen = bytes_at d0 chosen).
  { rewrite Hd1. unfold bytes_at, folder. by destruct (path_name chosen). }
  rewrite Hsame, Hwritten in Hbytes. clear Hsame Hd1 d1 Hok.
  assert (Hnames : written.*1 = cfgs).
  { unfold written. rewrite members_of_names. apply filter_all.
    intros n Hn. by apply Hglob in Hn as [_ ?]. }
  assert (Hmem : ∀ n c, (n, c) ∈ written ↔ is_cfg_file (folder d) n c).
  { intros n c. unfold written. rewrite elem_of_members_of, Hglob.
    unfold is_cfg_file, folder. split.
    - by intros [[? _] ?].
    - intros [? Hn]. split; [|done]. split; [done|]. by rewrite Hn. }
  set (members := prod_map id Stored <$> written).
  assert (Harch : archive_at lib d2 chosen = Some (Zip members)).
  { unfold archive_at. rewrite Hbytes. cbn. f_equal. apply Hlib.
    apply Forall_forall. intros [n c] Hin. cbn [fst].
    apply (proj1 (Forall_forall _ _) Hplain). rewrite <- Hnames.
    apply list_elem_of_fmap. by exists (n, c). }
  assert (Hcm : cfg_members members = cfgs).
  { unfold cfg_members, members. rewrite stored_names, Hnames.
    apply filter_all. intros n Hn. apply Hglob in Hn as [Hend _].
    by rewrite Hend. }
  assert (Hread : ∀ n c, (n, c) ∈ written →
                         zip_read members n = Some (Stored c)).
  { intros n c Hin. apply zip_read_stored; [by rewrite Hnames|done]. }
  assert (Hin_written : ∀ f, f ∈ cfgs → ∃ c, (f, c) ∈ written).
  { intros f Hf. rewrite <- Hnames in Hf.
    apply list_elem_of_fmap in Hf as ([n c] & -> & Hin). by exists c. }
  pose proof (restore_configs_run lib mgr chosen overwrite d2 config_folder
                members Hfolder Hpresent2 Harch) as Hrestore.
  rewrite Hcm in Hrestore. specialize (Hrestore Hcfgs).
  destruct (restore_loop_intact chosen members overwrite cfgs (0, 0) d2)
    as (counts & d3' & Hloop & Hfiles & _ & _ & _ & Hall & _ & Hfresh).
  { intros f Hf. split; [by apply (proj1 (Forall_forall _ _) Hplain)|].
    destruct (Hin_written f Hf) as [c Hc]. exists c. by apply Hread. }
  { intros _ f Hf Hname. by apply (Hself f Hname). }
  { intros _ f Hname. unfold bytes_at in Hbytes. rewrite Hname in Hbytes.
    by rewrite Hbytes. }
  rewrite Hloop in Hrestore. destruct Hrestore as (d3 & Hrun & Hf & _).
  assert (Hcounts : counts = (Z.of_nat (length cfgs), 0)).
  { destruct Hmode as [->|Hnone].
    - by rewrite (Hall eq_refl).
    - rewrite Hfresh; [done|done|]. intros f Hin.
      destruct (Hin_written f Hin) as [c Hc]. apply (Hnone f c).
      by apply Hmem. }
  rewrite Hcounts in Hrun. exists d3. split; [exact Hrun|]. split.
  - intros n c Hn. rewrite Hf, Hfiles.
    assert (Hin : (n, c) ∈ written) by (by apply Hmem).
    assert (n ∈ cfgs) by (rewrite <- Hnames; apply list_elem_of_fmap;
                          by exists (n, c)).
    rewrite bool_decide_eq_true_2 by done. cbn [andb].
    rewrite (Hread n c Hin).
    destruct Hmode as [->|Hnone]; [done|].
    rewrite (Hnone n c Hn).
    rewrite (bool_decide_eq_true_2 (None = None)) by done.
    by rewrite orb_true_r.
  - intros p Hp. rewrite Hf, Hfiles.
    rewrite bool_decide_eq_false_2; [done|].
    intros Hin. destruct (Hin_written p Hin) as [c Hc].
    apply Hp. exists c. by apply Hmem.
Qed.

End round_trip_archive.

(** ** The further properties on sample data *)

Section further_samples.

Import Sample.

(** The catalog knows [galaga] only; the ROM folder holds both games. *)
Lemma sample_roms_spare_pacman rom_file :
  rom_file ∈ listed_roms (mgr None None None None {[ "galaga" := (224, 288) ]})
                         (Some ["galaga.zip"; "pacman.zip"]) →
  in_catalog (mgr None None None None {[ "galaga" := (224, 288) ]}) rom_file →
  config_path_of (stem rom_file) ≠ "pacman.zip.cfg".
Proof.
  intros Hin Hcat.
  change (listed_roms _ _) with ["galaga.zip"; "pacman.zip"] in Hin.
  repeat (apply elem_of_cons in Hin as [->|Hin]);
    [discriminate|exact (False_ind _ Hcat)|by apply elem_of_nil in Hin].
Qed.

Lemma process_roms_other_files_witness :
  files (exec (process_roms
                 (mgr None None None None {[ "galaga" := (224, 288) ]})
                 (Some ["galaga.zip"; "pacman.zip"]))
              plain_world) !! "pacman.zip.cfg"
  = files plain_world !! "pacman.zip.cfg".
Proof.
  exact (process_roms_other_files
           (mgr None None None None {[ "galaga" := (224, 288) ]})
           (Some ["galaga.zip"; "pacman.zip"]) plain_world "pacman.zip.cfg"
           sample_roms_spare_pacman).
Defined.

Lemma video_driver_no_viewport_key : "video_driver" ∉ viewport_order.
Proof. apply (bool_decide_unpack _). exact I. Qed.

Lemma process_roms_keeps_unrelated_keys_witness :
  config_of
    (files (exec (process_roms
                    (mgr None None None None {[ "pacman" := (320, 240) ]})
                    (Some ["pacman.zip"]))
                 plain_world))
    "pacman.zip.cfg" !! "video_driver"
  = config_of (files plain_world) "pacman.zip.cfg" !! "video_driver".
Proof.
  exact (process_roms_keeps_unrelated_keys
           (mgr None None None None {[ "pacman" := (320, 240) ]})
           (Some ["pacman.zip"]) plain_world "pacman.zip.cfg" "video_driver"
           video_driver_no_viewport_key).
Defined.

(** A second element named [pacman], after the first, whose width is no
    integer: it does not replace the entry of the first. *)
Lemma sample_later_pacman_invalid g :
  g ∈ [game "pacman" [display [("width", "abc"); ("height", "240")]];
       bad_width] →
  get g "name" = Some "pacman" → valid_resolution g = false.
Proof.
  intros Hin _.
  repeat (apply elem_of_cons in Hin as [->|Hin]); [reflexivity..|].
  by apply elem_of_nil in Hin.
Qed.

Lemma sample_name_nonempty : "pacman" ≠ EmptyString.
Proof. discriminate. Qed.

Lemma parse_dat_file_stores_resolution_witness :
  ∃ mgr',
    eval (parse_dat_file
            (mgr None None None None ∅)
            (ET_Tree (catalog
                        [pacman;
                         game "pacman"
                           [display [("width", "abc"); ("height", "240")]];
                         bad_width])))
         empty_world = inr mgr'
    ∧ game_resolutions mgr' !! "pacman" = Some (224, 288)
    ∧ game_info mgr' !! "pacman"
      = Some {| name := "pacman"; width := 224; height := 288;
                description := text_or_empty (find_child "description" pacman);
                year := text_or_empty (find_child "year" pacman);
                manufacturer :=
                  text_or_empty (find_child "manufacturer" pacman);
                cloneof := get_or_empty pacman "cloneof";
                rotate := scr_rotate (lookup_screen pacman);
                screen_type := scr_type (lookup_screen pacman) |}.
Proof.
  exact (parse_dat_file_stores_resolution
           (mgr None None None None ∅) "fbneo.dat"
           (catalog [pacman;
                     game "pacman"
                       [display [("width", "abc"); ("height", "240")]];
                     bad_width])
           [] pacman
           [game "pacman" [display [("width", "abc"); ("height", "240")]];
            bad_width]
           "pacman" "224" "288" 224 288 empty_world
           eq_refl eq_refl eq_refl sample_name_nonempty
           eq_refl eq_refl eq_refl eq_refl sample_later_pacman_invalid).
Defined.

Lemma maps_agree_empty ow oh ox oy : maps_agree (mgr ow oh ox oy ∅).
Proof. intros n. cbn. rewrite !lookup_empty. by split. Qed.

Lemma parse_dat_file_keeps_agreement_witness :
  ∃ mgr',
    eval (parse_dat_file (mgr (Some 1920) None None None ∅)
                         (ET_Tree (catalog [pacman; bad_width])))
         empty_world = inr mgr'
    ∧ maps_agree mgr'
    ∧ rom_folder mgr' = Some "roms"
    ∧ override_width mgr' = Some 1920.
Proof.
  refine (ex_intro _ _ (conj eq_refl _)).
  refine (match parse_dat_file_keeps_agreement
                  (mgr (Some 1920) None None None ∅)
                  (ET_Tree (catalog [pacman; bad_width])) empty_world _
                  (maps_agree_empty _ _ _ _) eq_refl
          with
          | conj Hagree (conj _ (conj Hroms (conj _ (conj Hwidth _)))) =>
              conj Hagree (conj Hroms Hwidth)
          end).
Defined.

Lemma sample_games_store_nothing g :
  g ∈ findall_desc "game" (catalog [no_height; bad_width]) →
  stores_entry g = false.
Proof.
  intros Hin.
  change (findall_desc _ _) with [no_height; bad_width] in Hin.
  repeat (apply elem_of_cons in Hin as [->|Hin]); [reflexivity..|].
  by apply elem_of_nil in Hin.
Qed.

Lemma parse_dat_file_without_resolution_data_witness :
  let m := mgr None None None None ∅ in
  let root := catalog [no_height; bad_width] in
  eval (parse_dat_file m (ET_Tree root)) empty_world = inr m
  ∧ ∃ earlier,
      logged (exec (parse_dat_file m (ET_Tree root)) empty_world)
      = earlier
        ++ ["Found 0 games with resolution data";
            "Warning: Found 2 game entries but none have resolution data.";
            "This DAT file may not contain display/video information.";
            "Please use a DAT file that includes resolution data (e.g., MAME XML, FinalBurn Neo DAT with display tags)."].
Proof.
  exact (parse_dat_file_without_resolution_data
           (mgr None None None None ∅) "fbneo.dat"
           (catalog [no_height; bad_width]) empty_world
           eq_refl eq_refl sample_games_store_nothing).
Defined.

Lemma sample_bad_width_invalid g :
  g ∈ [bad_width] → get g "name" = Some "pacman" →
  valid_resolution g = false.
Proof.
  intros Hin _.
  repeat (apply elem_of_cons in Hin as [->|Hin]); [reflexivity..|].
  by apply elem_of_nil in Hin.
Qed.

Lemma sample_rom_listed : "pacman" +:+ ".zip" ∈ ["readme.txt"; "pacman.zip"].
Proof. apply list_elem_of_further, list_elem_of_here. Qed.

Lemma parse_then_process_roms_witness :
  let m := mgr (Some 1920) None None (Some 8) ∅ in
  let root := catalog [pacman; bad_width] in
  ∃ mgr',
    eval (parse_dat_file m (ET_Tree root)) plain_world = inr mgr'
    ∧ let w1 := exec (parse_dat_file m (ET_Tree root)) plain_world in
      let config' :=
        config_of (files (exec (process_roms mgr'
                                  (Some ["readme.txt"; "pacman.zip"])) w1))
                  ("pacman" +:+ ".zip.cfg") in
      config' !! "custom_viewport_width" = Some (quoted "1920")
      ∧ config' !! "custom_viewport_height" = Some (quoted "288")
      ∧ config' !! "custom_viewport_x" = Some (quoted "0")
      ∧ config' !! "custom_viewport_y" = Some (quoted "8")
      ∧ config' !! "aspect_ratio_index" = Some (quoted "23").
Proof.
  exact (parse_then_process_roms
           (mgr (Some 1920) None None (Some 8) ∅) "fbneo.dat"
           (catalog [pacman; bad_width]) [] pacman [bad_width]
           "pacman" "224" "288" 224 288 "roms" ["readme.txt"; "pacman.zip"]
           plain_world
           eq_refl eq_refl eq_refl sample_name_nonempty
           eq_refl eq_refl eq_refl eq_refl sample_bad_width_invalid
           eq_refl sample_rom_listed).
Defined.

Lemma sample_lines_no_newline :
  Forall no_newline
    ["# RetroArch override"; EmptyString; "video_driver = gl";
     "not a setting"; "custom_viewport_x = 0"].
Proof. repeat constructor. Qed.

Lemma read_config_file_ignores_comments_witness :
  parse_config
    (text_of_lines ["# RetroArch override"; EmptyString; "video_driver = gl";
                    "not a setting"; "custom_viewport_x = 0"])
  = parse_config
      (text_of_lines
         (filter (λ b, ¬ ignored_line b)
                 ["# RetroArch override"; EmptyString; "video_driver = gl";
                  "not a setting"; "custom_viewport_x = 0"])).
Proof.
  exact (read_config_file_ignores_comments _ sample_lines_no_newline).
Defined.

Lemma sample_earlier_lines :
  Forall no_newline ["video_driver = gl"; "custom_viewport_x = 0"].
Proof. repeat constructor. Qed.

Lemma read_config_file_last_line_wins_witness :
  parse_config
    (text_of_lines (["video_driver = gl"; "custom_viewport_x = 0"]
                    ++ ["  video_driver " +:+ String EQUALS " vulkan = fast "]))
    !! strip "  video_driver "
  = Some (strip " vulkan = fast ").
Proof.
  exact (read_config_file_last_line_wins
           ["video_driver = gl"; "custom_viewport_x = 0"]
           "  video_driver " " vulkan = fast "
           sample_earlier_lines eq_refl eq_refl eq_refl eq_refl).
Defined.

End further_samples.

(** ** The stand-in for the library *)

Section sample_zip_facts.

Lemma parse_tagged_name n s :
  Sample_zip.parse (Sample_zip.tagged "n" n +:+ s)
  = match Sample_zip.parse s with
    | Some (n', c, l) => Some (n +:+ n', c, l)
    | None => None
    end.
Proof.
  induction n as [|x n IH].
  - rewrite append_nil_l. by destruct (Sample_zip.parse s) as [[[? ?] ?]|].
  - cbn [Sample_zip.tagged]. rewrite !append_cons. cbn [Sample_zip.parse].
    rewrite IH.
    destruct (Sample_zip.parse s) as [[[? ?] ?]|]; [|done]. by rewrite append_cons.
Qed.

Lemma parse_tagged_content c s :
  Sample_zip.parse (Sample_zip.tagged "c" c +:+ s)
  = match Sample_zip.parse s with
    | Some (n, c', l) => Some (n, c +:+ c', l)
    | None => None
    end.
Proof.
  induction c as [|x c IH].
  - rewrite append_nil_l. by destruct (Sample_zip.parse s) as [[[? ?] ?]|].
  - cbn [Sample_zip.tagged]. rewrite !append_cons. cbn [Sample_zip.parse].
    rewrite IH.
    destruct (Sample_zip.parse s) as [[[? ?] ?]|]; [|done]. by rewrite append_cons.
Qed.

Lemma parse_zip_bytes written :
  Sample_zip.parse (Sample_zip.zip_bytes written)
  = Some (EmptyString, EmptyString, prod_map id Stored <$> written).
Proof.
  unfold Sample_zip.zip_bytes. induction written as [|[n c] l IH]; [done|].
  rewrite fmap_cons, join_cons. cbn [fst snd].
  rewrite append_cons. cbn [Sample_zip.parse].
  rewrite append_assoc, parse_tagged_name, parse_tagged_content, IH.
  by rewrite !append_nil_r.
Qed.

(** The stand-in reads back what it writes. *)
Lemma sample_zip_reads_back : reads_back Sample_zip.lib.
Proof.
  intros written _. unfold Sample_zip.lib. cbn [unzip zip_bytes].
  unfold Sample_zip.unzip. by rewrite parse_zip_bytes.
Qed.

End sample_zip_facts.

(** ** The archive properties on sample data *)

Section archive_samples.

Lemma sample_source_files n c :
  is_cfg_file (folder Sample_zip.source) n c → n = "pacman.zip.cfg".
Proof.
  intros [_ Hn]. unfold folder, Sample_zip.source, Sample.plain_world in Hn.
  cbn [disk_world files] in Hn.
  by apply lookup_singleton_Some in Hn as [<- _].
Qed.



Lemma sample_archive_at :
  archive_at Sample_zip.lib Sample_zip.backed_up Sample_zip.archive_path
  = Some (Zip [("pacman.zip.cfg", Stored Sample_zip.cfg_text)]).
Proof. reflexivity. Qed.

Lemma sample_plain_members :
  plain_members [("pacman.zip.cfg", Stored Sample_zip.cfg_text)].
Proof.
  intros f Hf. change (cfg_members _) with ["pacman.zip.cfg"] in Hf.
  apply list_elem_of_singleton in Hf as ->. exact I.
Qed.

Lemma sample_apart :
  apart Sample_zip.archive_path
        [("pacman.zip.cfg", Stored Sample_zip.cfg_text)].
Proof.
  intros f Hf. change (cfg_members _) with ["pacman.zip.cfg"] in Hf.
  apply list_elem_of_singleton in Hf as ->. discriminate.
Qed.

Lemma sample_intact :
  intact [("pacman.zip.cfg", Stored Sample_zip.cfg_text)].
Proof.
  intros f Hf. change (cfg_members _) with ["pacman.zip.cfg"] in Hf.
  apply list_elem_of_singleton in Hf as ->. by eexists.
Qed.

Lemma sample_can_restore overwrite :
  can_restore Sample_zip.lib Sample_zip.backed_up Sample_zip.archive_path
              overwrite.
Proof.
  intros members Hm. rewrite sample_archive_at in Hm. injection Hm as <-.
  split; [apply sample_plain_members|]. intros _. apply sample_apart.
Qed.

Lemma restore_configs_errors_witness :
  let lib := Sample_zip.lib in
  let mgr := Sample_zip.mgr in
  let backup_path := Sample_zip.archive_path in
  let d := Sample_zip.backed_up in
  ∃ r d',
    restore_configs lib mgr backup_path true d = Some (r, d')
    ∧ (is_Some r.2 → r.1 = (0, 0))
    ∧ (r.2 = None →
       is_Some (output_folder mgr) ∧ folder_present d = true
       ∧ ∃ members f, archive_at lib d backup_path = Some (Zip members)
                      ∧ f ∈ members.*1 ∧ endswith ".cfg" f = true)
    ∧ (output_folder mgr = None ∨ folder_present d = false
       ∨ (∀ members, archive_at lib d backup_path = Some (Zip members) →
                     cfg_members members = []) →
       is_Some r.2 ∧ folder d' = folder d)
    ∧ folder_present d' = folder_present d ∧ elsewhere d' = elsewhere d
    ∧ ∀ p, (∀ members, archive_at lib d backup_path = Some (Zip members) →
                       p ∉ cfg_members members) →
           folder d' !! p = folder d !! p.
Proof.
  intros lib mgr backup_path d.
  exact (restore_configs_errors lib mgr backup_path true d
           (sample_can_restore true)).
Defined.

Lemma restore_configs_keeps_existing_witness :
  ∃ r d',
    restore_configs Sample_zip.lib Sample_zip.mgr Sample_zip.archive_path
                    false Sample_zip.backed_up
    = Some (r, d')
    ∧ folder Sample_zip.backed_up ⊆ folder d'.
Proof.
  exact (restore_configs_keeps_existing Sample_zip.lib Sample_zip.mgr
           Sample_zip.archive_path Sample_zip.backed_up
           (sample_can_restore false)).
Defined.

Lemma sample_archive_not_empty :
  cfg_members [("pacman.zip.cfg", Stored Sample_zip.cfg_text)] ≠ [].
Proof. discriminate. Qed.

Lemma restore_configs_counts_witness :
  let lib := Sample_zip.lib in
  let mgr := Sample_zip.mgr in
  let backup_path := Sample_zip.archive_path in
  let d := Sample_zip.backed_up in
  let members := [("pacman.zip.cfg", Stored Sample_zip.cfg_text)] in
  let total := Z.of_nat (length (cfg_members members)) in
  ∃ r d',
    restore_configs lib mgr backup_path false d = Some (r, d')
    ∧ r.2 = None
    ∧ r.1.1 + r.1.2 = total ∧ 0 ≤ r.1.1 ∧ 0 ≤ r.1.2
    ∧ (false = true → r.1 = (total, 0))
    ∧ (false = false →
       (∀ f, f ∈ cfg_members members → is_Some (folder d !! f)) →
       r.1 = (0, total))
    ∧ (∀ f content,
         f ∈ cfg_members members →
         zip_read members f = Some (Stored content) →
         false = true ∨ folder d !! f = None →
         folder d' !! f = Some content)
    ∧ (∀ f, f ∈ cfg_members members → false = false →
            is_Some (folder d !! f) → folder d' !! f = folder d !! f).
Proof.
  intros lib mgr backup_path d members total.
  exact (restore_configs_counts lib mgr backup_path false d "roms" members
           eq_refl eq_refl sample_archive_at sample_archive_not_empty
           sample_plain_members (λ _, sample_apart) sample_intact).
Defined.

Lemma sample_backup :
  backup_configs Sample_zip.lib Sample_zip.mgr None Sample_zip.stamp
                 Sample_zip.source
  = Some ((true, Some Sample_zip.archive_path, None), Sample_zip.backed_up).
Proof. reflexivity. Qed.

Lemma sample_archive_copied :
  bytes_at Sample_zip.target Sample_zip.archive_path
  = bytes_at Sample_zip.backed_up Sample_zip.archive_path.
Proof. reflexivity. Qed.

Lemma sample_target_fresh n c :
  is_cfg_file (folder Sample_zip.source) n c →
  folder Sample_zip.target !! n = None.
Proof. intros ->%sample_source_files. reflexivity. Qed.

(** The backup of a folder with one config file, restored without
    overwriting into another folder that holds a text file and the
    archive. *)
Lemma backup_then_restore_witness :
  let d := Sample_zip.source in
  let d2 := Sample_zip.target in
  ∃ d3,
    restore_configs Sample_zip.lib Sample_zip.mgr Sample_zip.archive_path
                    false d2
    = Some ((Z.of_nat (length (eval glob_cfg (disk_world d))), 0, None), d3)
    ∧ (∀ n c, is_cfg_file (folder d) n c → folder d3 !! n = Some c)
    ∧ (∀ p, ¬ (∃ c, is_cfg_file (folder d) p c) →
            folder d3 !! p = folder d2 !! p).
Proof.
  intros d d2.
  exact (backup_then_restore Sample_zip.lib Sample_zip.mgr None
           Sample_zip.stamp d Sample_zip.backed_up Sample_zip.archive_path d2
           false sample_zip_reads_back sample_backup eq_refl
           sample_archive_copied (or_intror sample_target_fresh)).
Defined.

End archive_samples.
